(** * Reference resolution of openapi3/swagger_loader.go

    A shallow embedding of the reference-resolution pass of the loader
    ([ResolveRefsIn], [resolveComponent] and the seven [resolve*Ref]
    methods) together with the properties of the pass.

    Go pointers are addresses into typed stores held by a [World]; the
    [visited] map of the loader is a finite set keyed by (dynamic type,
    pointer), as a Go [map[interface{}]struct{}] is.  A Go call is one unit
    of fuel, a nil dereference is the failure [Panic]. *)

From Stdlib Require Import String Ascii List ZArith Lia.
From stdpp Require Import base gmap sets list strings.

Local Open Scope string_scope.

(** ** The pieces of Go's [strings] and [fmt] packages that the file uses *)

(** [strings.HasPrefix(s, prefix)] *)
Fixpoint HasPrefix (s prefix : string) {struct prefix} : bool :=
  match prefix with
  | EmptyString => true
  | String c prefix' =>
      match s with
      | EmptyString => false
      | String d s' => if Ascii.eqb c d then HasPrefix s' prefix' else false
      end
  end.

(** [s[n:]], for [n <= len(s)] (the only way the file slices a string) *)
Fixpoint sliceFrom (n : nat) (s : string) : string :=
  match n with
  | O => s
  | S n' => match s with EmptyString => EmptyString | String _ s' => sliceFrom n' s' end
  end.

(** [strings.IndexByte(s, c)]: the index of the first [c] in [s], or -1 *)
Fixpoint IndexByte (s : string) (c : ascii) : Z :=
  match s with
  | EmptyString => (-1)%Z
  | String d s' =>
      if Ascii.eqb d c then 0%Z
      else let i := IndexByte s' c in if (i <? 0)%Z then (-1)%Z else (i + 1)%Z
  end.

(** Go errors are compared here by their message. *)
Definition error := string.

Definition foundUnresolvedRef (ref : string) : error :=
  "Found unresolved ref: '" ++ ref ++ "'".

Definition failedToResolveRefDefinitions (value : string) : error :=
  "Failed to resolve fragment in URI: '" ++ value ++ "'".

Definition failedToResolveRefFragment (value : string) : error :=
  "Failed to resolve fragment in URI: '" ++ value ++ "'".

Definition failedToResolveRefFragmentPart (value what : string) : error :=
  "Failed to resolve '" ++ what ++ "' in fragment in URI: '" ++ value ++ "'".

(** The [fmt.Errorf] calls written in line in the source. *)
Definition errNonAllowedExternalRef (ref : string) : error :=
  "Encountered non-allowed external reference: '" ++ ref ++ "'".

Definition errCantParseReference (ref : string) : error :=
  "Can't parse reference: '" ++ ref ++ "': <nil>".

Definition errWhileResolvingReference (ref : string) (err : error) : error :=
  "Error while resolving reference '" ++ ref ++ "': " ++ err.

Definition errUnsupportedURI (location : string) : error :=
  "Unsupported URI: '" ++ location ++ "'".

(** ** Data model *)

Definition loc := positive.

(** A Go pointer: [None] is nil. *)
Definition ptr := option loc.

(** The seven reference types [HeaderRef], [ParameterRef], ... ; the tag is
    the dynamic type of a pointer stored in an [interface{}]. *)
Inductive Kind :=
| KHeader | KParameter | KRequestBody | KResponse
| KSchema | KSecurityScheme | KExample.

#[global] Instance Kind_eq_dec : EqDecision Kind.
Proof. solve_decision. Defined.

Definition Kind_to_nat (k : Kind) : nat :=
  match k with
  | KHeader => 0 | KParameter => 1 | KRequestBody => 2 | KResponse => 3
  | KSchema => 4 | KSecurityScheme => 5 | KExample => 6
  end.

Definition Kind_of_nat (n : nat) : Kind :=
  match n with
  | 0 => KHeader | 1 => KParameter | 2 => KRequestBody | 3 => KResponse
  | 4 => KSchema | 5 => KSecurityScheme | _ => KExample
  end.

#[global] Instance Kind_countable : Countable Kind.
Proof. refine (inj_countable' Kind_to_nat Kind_of_nat _). by intros []. Defined.

(** Modelled from the spec: the declarations of the structs ([HeaderRef],
    [Header], [Schema], [Components], [Swagger], ...) are not part of the
    file; here and below they have the fields the file reads and writes,
    with the types it uses them at.  Every [*Ref] struct has a reference
    string [Ref] and a pointer [Value]. *)
Record ComponentRef := { Ref : string; Value : ptr }.

(** A Go map iterated by [range] and read by key: the entries in the order
    of one iteration (Go leaves the order open); a key is read at its first
    entry.  A missing key and a nil entry both read as nil. *)
Definition gomap (A : Type) := list (string * A).

Fixpoint mapIndex {A : Type} (m : gomap (option A)) (key : string) : option A :=
  match m with
  | [] => None
  | (k, v) :: m' => if String.eqb k key then v else mapIndex m' key
  end.

(** Modelled from the spec: [Header] and [Parameter] ([Parameter_] here,
    the plain name being reserved) embed one [*SchemaRef]. *)
Record Header := { Header_Schema : ptr }.
Record Parameter_ := { Parameter_Schema : ptr }.

(** Modelled from the spec: [ContentType], the descriptor of one content
    type, optionally embeds one [*SchemaRef]. *)
Record ContentType := { ContentType_Schema : ptr }.

(** Modelled from the spec: [RequestBody] and [Response] own
    [Content map[string]*ContentType]; [None] is the nil map. *)
Record RequestBody := { RequestBody_Content : option (gomap ptr) }.
Record Response := { Response_Content : option (gomap ptr) }.

(** Modelled from the spec: [Schema] holds a [*SchemaRef] at three sites
    ([Properties] is a map of them). *)
Record Schema := {
  Items : ptr;
  Properties : option (gomap ptr);
  AdditionalProperties : ptr
}.

(** Modelled from the spec: [Components], seven tables from id to Ref;
    [None] is the nil map.  ([Parameters_] for [Parameters], the plain name
    being reserved.) *)
Record Components := {
  Headers : option (gomap ptr);
  Parameters_ : option (gomap ptr);
  RequestBodies : option (gomap ptr);
  Responses : option (gomap ptr);
  Schemas : option (gomap ptr);
  SecuritySchemes : option (gomap ptr);
  Examples : option (gomap ptr)
}.

(** Modelled from the spec: [Operation], as far as the walk reads it. *)
Record Operation := {
  Operation_Parameters : option (list ptr);
  Operation_RequestBody : ptr;
  Operation_Responses : option (gomap ptr)
}.

(** Modelled from the spec: [PathItem.Operations()] is not part of the file;
    a PathItem exposes zero or more Operations keyed by HTTP method. *)
Record PathItem := { Operations : gomap Operation }.

(** Modelled from the spec: the document [Swagger].  The pass never writes
    to a [Swagger], [Components], [PathItem] or [Operation] and never
    compares two of them, so they are kept as values; a nil [*PathItem]
    entry of [Paths] is [None]. *)
Record Swagger := {
  Swagger_Components : Components;
  Paths : option (gomap (option PathItem))
}.

(** [net/url.URL], the fields the file touches. *)
Record URL := {
  Scheme : string; Host : string; Path : string;
  RawQuery : string; Fragment : string
}.

Definition URL_clearFragment (u : URL) : URL :=
  {| Scheme := Scheme u; Host := Host u; Path := Path u;
     RawQuery := RawQuery u; Fragment := "" |}.

(** ** The state of a pass *)

(** The Go heap as far as the pass reads or writes it, and the fields of the
    [SwaggerLoader].  [loaderCalls] is a ghost trace, absent from the
    source: [LoadSwaggerFromURI] records its argument there, so that
    "the loader is (not) invoked" is a statement about states. *)
Record World := {
  refs : gmap (Kind * loc) ComponentRef;
  headers : gmap loc Header;
  parameters : gmap loc Parameter_;
  requestBodies : gmap loc RequestBody;
  responses : gmap loc Response;
  contentTypes : gmap loc ContentType;
  schemas : gmap loc Schema;
  IsExternalRefsAllowed : bool;
  visited : gset (Kind * ptr);
  loaderCalls : list URL
}.

Definition set_refs (f : gmap (Kind * loc) ComponentRef -> gmap (Kind * loc) ComponentRef)
    (w : World) : World :=
  {| refs := f (refs w); headers := headers w; parameters := parameters w;
     requestBodies := requestBodies w; responses := responses w;
     contentTypes := contentTypes w; schemas := schemas w;
     IsExternalRefsAllowed := IsExternalRefsAllowed w;
     visited := visited w; loaderCalls := loaderCalls w |}.

Definition set_contentTypes (f : gmap loc ContentType -> gmap loc ContentType)
    (w : World) : World :=
  {| refs := refs w; headers := headers w; parameters := parameters w;
     requestBodies := requestBodies w; responses := responses w;
     contentTypes := f (contentTypes w); schemas := schemas w;
     IsExternalRefsAllowed := IsExternalRefsAllowed w;
     visited := visited w; loaderCalls := loaderCalls w |}.

Definition set_visited (f : gset (Kind * ptr) -> gset (Kind * ptr)) (w : World) : World :=
  {| refs := refs w; headers := headers w; parameters := parameters w;
     requestBodies := requestBodies w; responses := responses w;
     contentTypes := contentTypes w; schemas := schemas w;
     IsExternalRefsAllowed := IsExternalRefsAllowed w;
     visited := f (visited w); loaderCalls := loaderCalls w |}.

Definition set_loaderCalls (f : list URL -> list URL) (w : World) : World :=
  {| refs := refs w; headers := headers w; parameters := parameters w;
     requestBodies := requestBodies w; responses := responses w;
     contentTypes := contentTypes w; schemas := schemas w;
     IsExternalRefsAllowed := IsExternalRefsAllowed w;
     visited := visited w; loaderCalls := f (loaderCalls w) |}.

(** ** Outcomes and the monad of the pass *)

Inductive failure :=
| Err (e : error)   (* a non-nil error is returned *)
| Panic             (* a nil pointer is dereferenced *)
| OutOfFuel.        (* the call depth exceeds the fuel *)

Inductive result (A : Type) :=
| Ok (a : A)
| Fail (f : failure).
Arguments Ok {A} a.
Arguments Fail {A} f.

Definition M (A : Type) := World -> result A * World.

Definition ret {A} (a : A) : M A := fun w => (Ok a, w).
Definition fail {A} (f : failure) : M A := fun w => (Fail f, w).
Definition throw {A} (e : error) : M A := fail (Err e).
Definition panic {A} : M A := fail Panic.

Definition bind {A B} (m : M A) (f : A -> M B) : M B :=
  fun w => match m w with
           | (Ok a, w') => f a w'
           | (Fail e, w') => (Fail e, w')
           end.

Notation "x <- m ;; k" := (bind m (fun x => k))
  (at level 100, m at next level, right associativity).
Notation "m ;;; k" := (bind m (fun _ => k))
  (at level 100, right associativity).

(** [for _, x := range l { err := f(x); if err != nil { return err } }] *)
Fixpoint forEach {A} (l : list A) (f : A -> M unit) : M unit :=
  match l with
  | [] => ret tt
  | x :: l' => f x ;;; forEach l' f
  end.

(** [if m := table; m != nil { for _, x := range m { ... } }] *)
Definition forRange {A} (m : option (gomap A)) (f : A -> M unit) : M unit :=
  match m with
  | None => ret tt
  | Some entries => forEach entries (fun kv => f (snd kv))
  end.

(** Reading [*p] for a pointer to a [*Ref] struct of kind [k]. *)
Definition derefRef (k : Kind) (p : ptr) (w : World) : option ComponentRef :=
  match p with
  | None => None
  | Some l => refs w !! (k, l)
  end.

Definition loadRef (k : Kind) (p : ptr) : M ComponentRef :=
  fun w => match derefRef k p w with
           | Some c => (Ok c, w)
           | None => (Fail Panic, w)
           end.

(** [p.Value = v] *)
Definition storeValue (k : Kind) (p : ptr) (v : ptr) : M unit :=
  fun w => match p with
           | Some l =>
               match refs w !! (k, l) with
               | Some c => (Ok tt, set_refs (insert (k, l) {| Ref := Ref c; Value := v |}) w)
               | None => (Fail Panic, w)
               end
           | None => (Fail Panic, w)
           end.

Definition loadFrom {A} (store : World -> gmap loc A) (p : ptr) : M A :=
  fun w => match p with
           | Some l => match store w !! l with
                       | Some a => (Ok a, w)
                       | None => (Fail Panic, w)
                       end
           | None => (Fail Panic, w)
           end.

(** [contentType.Schema = schema] *)
Definition storeContentTypeSchema (p : ptr) (schema : ptr) : M unit :=
  fun w => match p with
           | Some l =>
               match contentTypes w !! l with
               | Some _ => (Ok tt, set_contentTypes (insert l {| ContentType_Schema := schema |}) w)
               | None => (Fail Panic, w)
               end
           | None => (Fail Panic, w)
           end.

(** [_, isVisited := visited[component]] *)
Definition isVisited (k : Kind) (p : ptr) : M bool :=
  fun w => (Ok (bool_decide ((k, p) ∈ visited w)), w).

(** [visited[component] = struct{}{}] *)
Definition markVisited (k : Kind) (p : ptr) : M unit :=
  fun w => (Ok tt, set_visited (fun s => {[ (k, p) ]} ∪ s) w).

(** [len(ref) > 0] *)
Definition nonEmpty (s : string) : bool := (0 <? String.length s)%nat.

(** ** The loader *)

Section Loader.

(** What the file takes from outside: [url.Parse] and [URL.String] of
    [net/url], [ioutil.ReadFile], [json.Unmarshal] into a fresh [Swagger]
    (which allocates the document in the heap), and the pluggable field
    [LoadSwaggerFromURIFunc] of the loader ([None] is the nil function). *)
Variable url_Parse : string -> option URL.
Variable URL_String : URL -> string.
Variable ioutil_ReadFile : string -> M (list Byte.byte).
Variable json_Unmarshal : list Byte.byte -> M Swagger.
Variable LoadSwaggerFromURIFunc : option (URL -> M Swagger).

(** The methods of [SwaggerLoader].  They call one another in a cycle
    (a reference may load a document, whose loading resolves its
    references), so they are defined together, by recursion on the call
    depth left. *)
Fixpoint LoadSwaggerFromURI (fuel : nat) (location : URL) {struct fuel} : M Swagger :=
  match fuel with
  | O => fail OutOfFuel
  | S fuel =>
      (fun w => (Ok tt, set_loaderCalls (fun t => (t ++ [location])%list) w)) ;;;
      match LoadSwaggerFromURIFunc with
      | Some f => f location
      | None =>
          if nonEmpty (Scheme location) || nonEmpty (Host location)
             || nonEmpty (RawQuery location)
          then throw (errUnsupportedURI (URL_String location))
          else
            data <- ioutil_ReadFile (Path location) ;;
            LoadSwaggerFromData fuel data
      end
  end

with LoadSwaggerFromData (fuel : nat) (data : list Byte.byte) {struct fuel} : M Swagger :=
  match fuel with
  | O => fail OutOfFuel
  | S fuel =>
      swagger <- json_Unmarshal data ;;
      ResolveRefsIn fuel swagger ;;;
      ret swagger
  end

with ResolveRefsIn (fuel : nat) (swagger : Swagger) {struct fuel} : M unit :=
  match fuel with
  | O => fail OutOfFuel
  | S fuel =>
      (fun w => (Ok tt, set_visited (fun _ => ∅) w)) ;;;
      (* Visit all components *)
      forRange (Headers (Swagger_Components swagger))
        (fun component => resolveHeaderRef fuel swagger component) ;;;
      forRange (Parameters_ (Swagger_Components swagger))
        (fun component => resolveParameterRef fuel swagger component) ;;;
      forRange (RequestBodies (Swagger_Components swagger))
        (fun component => resolveRequestBodyRef fuel swagger component) ;;;
      forRange (Responses (Swagger_Components swagger))
        (fun component => resolveResponseRef fuel swagger component) ;;;
      forRange (Schemas (Swagger_Components swagger))
        (fun component => resolveSchemaRef fuel swagger component) ;;;
      forRange (SecuritySchemes (Swagger_Components swagger))
        (fun component => resolveSecuritySchemeRef fuel swagger component) ;;;
      (* Visit all operations *)
      forRange (Paths swagger) (fun pathItem =>
        match pathItem with
        | None => ret tt
        | Some pathItem =>
            forEach (Operations pathItem) (fun kv =>
              let operation := snd kv in
              match Operation_Parameters operation with
              | None => ret tt
              | Some parameters =>
                  forEach parameters (fun parameter =>
                    resolveParameterRef fuel swagger parameter)
              end ;;;
              match Operation_RequestBody operation with
              | None => ret tt
              | Some requestBody =>
                  resolveRequestBodyRef fuel swagger (Some requestBody)
              end ;;;
              forRange (Operation_Responses operation)
                (fun response => resolveResponseRef fuel swagger response))
        end)
  end

with resolveComponent (fuel : nat) (swagger : Swagger) (ref prefix : string)
    {struct fuel} : M (Components * string) :=
  match fuel with
  | O => fail OutOfFuel
  | S fuel =>
      sr <- (if negb (HasPrefix ref "#") then
               allowed <- (fun w => (Ok (IsExternalRefsAllowed w), w)) ;;
               if negb allowed then throw (errNonAllowedExternalRef ref)
               else
                 match url_Parse ref with
                 | None => throw (errCantParseReference ref)
                 | Some parsedURL =>
                     let fragment := Fragment parsedURL in
                     fun w =>
                       match LoadSwaggerFromURI fuel (URL_clearFragment parsedURL) w with
                       | (Ok swagger, w') => (Ok (swagger, fragment), w')
                       | (Fail (Err err), w') =>
                           (Fail (Err (errWhileResolvingReference ref err)), w')
                       | (Fail f, w') => (Fail f, w')
                       end
                 end
             else ret (swagger, ref)) ;;
      let swagger := fst sr in
      let ref := snd sr in
      if negb (HasPrefix ref prefix) then throw (failedToResolveRefFragment ref)
      else
        let id := sliceFrom (String.length prefix) ref in
        if (IndexByte id "/" >=? 0)%Z then throw (failedToResolveRefFragmentPart ref id)
        else ret (Swagger_Components swagger, id)
  end

with resolveHeaderRef (fuel : nat) (swagger : Swagger) (component : ptr)
    {struct fuel} : M unit :=
  match fuel with
  | O => fail OutOfFuel
  | S fuel =>
      (* Prevent infinite recursion *)
      seen <- isVisited KHeader component ;;
      if seen then ret tt else
      markVisited KHeader component ;;;
      (* Resolve ref *)
      let prefix := "#/components/headers/" in
      c <- loadRef KHeader component ;;
      let ref := Ref c in
      (if nonEmpty ref then
         ci <- resolveComponent fuel swagger ref prefix ;;
         let components := fst ci in
         let id := snd ci in
         match Headers components with
         | None => throw (failedToResolveRefFragment ref)
         | Some definitions =>
             match mapIndex definitions id with
             | None => throw (failedToResolveRefFragment ref)
             | Some resolved =>
                 resolveHeaderRef fuel swagger (Some resolved) ;;;
                 r <- loadRef KHeader (Some resolved) ;;
                 storeValue KHeader component (Value r)
             end
         end
       else ret tt) ;;;
      c <- loadRef KHeader component ;;
      match Value c with
      | None => ret tt
      | Some value =>
          v <- loadFrom headers (Some value) ;;
          match Header_Schema v with
          | None => ret tt
          | Some schema => resolveSchemaRef fuel swagger (Some schema)
          end
      end
  end

with resolveParameterRef (fuel : nat) (swagger : Swagger) (component : ptr)
    {struct fuel} : M unit :=
  match fuel with
  | O => fail OutOfFuel
  | S fuel =>
      (* Prevent infinite recursion *)
      seen <- isVisited KParameter component ;;
      if seen then ret tt else
      markVisited KParameter component ;;;
      (* Resolve ref *)
      let prefix := "#/components/parameters/" in
      c <- loadRef KParameter component ;;
      let ref := Ref c in
      (if nonEmpty ref then
         ci <- resolveComponent fuel swagger ref prefix ;;
         let components := fst ci in
         let id := snd ci in
         match Parameters_ components with
         | None => throw (failedToResolveRefFragmentPart ref "parameters")
         | Some definitions =>
             match mapIndex definitions id with
             | None => throw (failedToResolveRefFragmentPart ref id)
             | Some resolved =>
                 resolveParameterRef fuel swagger (Some resolved) ;;;
                 r <- loadRef KParameter (Some resolved) ;;
                 storeValue KParameter component (Value r)
             end
         end
       else ret tt) ;;;
      c <- loadRef KParameter component ;;
      match Value c with
      | None => ret tt
      | Some value =>
          v <- loadFrom parameters (Some value) ;;
          match Parameter_Schema v with
          | None => ret tt
          | Some schema => resolveSchemaRef fuel swagger (Some schema)
          end
      end
  end

with resolveRequestBodyRef (fuel : nat) (swagger : Swagger) (component : ptr)
    {struct fuel} : M unit :=
  match fuel with
  | O => fail OutOfFuel
  | S fuel =>
      (* Prevent infinite recursion *)
      seen <- isVisited KRequestBody component ;;
      if seen then ret tt else
      markVisited KRequestBody component ;;;
      (* Resolve ref *)
      let prefix := "#/components/requestBodies/" in
      c <- loadRef KRequestBody component ;;
      let ref := Ref c in
      (if nonEmpty ref then
         ci <- resolveComponent fuel swagger ref prefix ;;
         let components := fst ci in
         let id := snd ci in
         match RequestBodies components with
         | None => throw (failedToResolveRefFragmentPart ref "requestBodies")
         | Some definitions =>
             match mapIndex definitions id with
             | None => throw (failedToResolveRefFragmentPart ref id)
             | Some resolved =>
                 resolveRequestBodyRef fuel swagger (Some resolved) ;;;
                 r <- loadRef KRequestBody (Some resolved) ;;
                 storeValue KRequestBody component (Value r)
             end
         end
       else ret tt) ;;;
      c <- loadRef KRequestBody component ;;
      match Value c with
      | None => ret tt
      | Some value =>
          v <- loadFrom requestBodies (Some value) ;;
          forRange (RequestBody_Content v) (fun contentType =>
            ct <- loadFrom contentTypes contentType ;;
            match ContentType_Schema ct with
            | None => ret tt
            | Some schema => resolveSchemaRef fuel swagger (Some schema)
            end)
      end
  end

with resolveResponseRef (fuel : nat) (swagger : Swagger) (component : ptr)
    {struct fuel} : M unit :=
  match fuel with
  | O => fail OutOfFuel
  | S fuel =>
      (* Prevent infinite recursion *)
      seen <- isVisited KResponse component ;;
      if seen then ret tt else
      markVisited KResponse component ;;;
      (* Resolve ref *)
      let prefix := "#/components/responses/" in
      c <- loadRef KResponse component ;;
      let ref := Ref c in
      (if nonEmpty ref then
         ci <- resolveComponent fuel swagger ref prefix ;;
         let components := fst ci in
         let id := snd ci in
         match Responses components with
         | None => throw (failedToResolveRefFragmentPart ref "responses")
         | Some definitions =>
             match mapIndex definitions id with
             | None => throw (failedToResolveRefFragmentPart ref id)
             | Some resolved =>
                 resolveResponseRef fuel swagger (Some resolved) ;;;
                 r <- loadRef KResponse (Some resolved) ;;
                 storeValue KResponse component (Value r)
             end
         end
       else ret tt) ;;;
      c <- loadRef KResponse component ;;
      match Value c with
      | None => ret tt
      | Some value =>
          v <- loadFrom responses (Some value) ;;
          forRange (Response_Content v) (fun contentType =>
            match contentType with
            | None => ret tt
            | Some _ =>
                ct <- loadFrom contentTypes contentType ;;
                match ContentType_Schema ct with
                | None => ret tt
                | Some schema =>
                    resolveSchemaRef fuel swagger (Some schema) ;;;
                    storeContentTypeSchema contentType (Some schema)
                end
            end)
      end
  end

with resolveSchemaRef (fuel : nat) (swagger : Swagger) (component : ptr)
    {struct fuel} : M unit :=
  match fuel with
  | O => fail OutOfFuel
  | S fuel =>
      (* Prevent infinite recursion *)
      seen <- isVisited KSchema component ;;
      if seen then ret tt else
      markVisited KSchema component ;;;
      (* Resolve ref *)
      let prefix := "#/components/schemas/" in
      c <- loadRef KSchema component ;;
      let ref := Ref c in
      (if nonEmpty ref then
         ci <- resolveComponent fuel swagger ref prefix ;;
         let components := fst ci in
         let id := snd ci in
         match Schemas components with
         | None => throw (failedToResolveRefFragmentPart ref "schemas")
         | Some definitions =>
             match mapIndex definitions id with
             | None => throw (failedToResolveRefFragmentPart ref id)
             | Some resolved =>
                 resolveSchemaRef fuel swagger (Some resolved) ;;;
                 r <- loadRef KSchema (Some resolved) ;;
                 storeValue KSchema component (Value r)
             end
         end
       else ret tt) ;;;
      c <- loadRef KSchema component ;;
      (* ResolveRefs referred schemas: [value.Items] dereferences [value] *)
      value <- loadFrom schemas (Value c) ;;
      match Items value with
      | None => ret tt
      | Some v => resolveSchemaRef fuel swagger (Some v)
      end ;;;
      forRange (Properties value) (fun v => resolveSchemaRef fuel swagger v) ;;;
      match AdditionalProperties value with
      | None => ret tt
      | Some v => resolveSchemaRef fuel swagger (Some v)
      end
  end

with resolveSecuritySchemeRef (fuel : nat) (swagger : Swagger) (component : ptr)
    {struct fuel} : M unit :=
  match fuel with
  | O => fail OutOfFuel
  | S fuel =>
      (* Prevent infinite recursion *)
      seen <- isVisited KSecurityScheme component ;;
      if seen then ret tt else
      markVisited KSecurityScheme component ;;;
      (* Resolve ref *)
      let prefix := "#/components/securitySchemes/" in
      c <- loadRef KSecurityScheme component ;;
      let ref := Ref c in
      if nonEmpty ref then
        ci <- resolveComponent fuel swagger ref prefix ;;
        let components := fst ci in
        let id := snd ci in
        match SecuritySchemes components with
        | None => throw (failedToResolveRefFragmentPart ref "securitySchemes")
        | Some definitions =>
            match mapIndex definitions id with
            | None => throw (failedToResolveRefFragmentPart ref id)
            | Some resolved =>
                resolveSecuritySchemeRef fuel swagger (Some resolved) ;;;
                r <- loadRef KSecurityScheme (Some resolved) ;;
                storeValue KSecurityScheme component (Value r)
            end
        end
      else ret tt
  end.

(** [resolveExampleRef] is called by no other method. *)
Fixpoint resolveExampleRef (fuel : nat) (swagger : Swagger) (component : ptr)
    {struct fuel} : M unit :=
  match fuel with
  | O => fail OutOfFuel
  | S fuel =>
      let prefix := "#/components/examples" in
      c <- loadRef KExample component ;;
      let ref := Ref c in
      if nonEmpty ref then
        ci <- resolveComponent fuel swagger ref prefix ;;
        let components := fst ci in
        let id := snd ci in
        match Examples components with
        | None => throw (failedToResolveRefFragmentPart ref "examples")
        | Some definitions =>
            match mapIndex definitions id with
            | None => throw (failedToResolveRefFragmentPart ref id)
            | Some resolved =>
                resolveExampleRef fuel swagger (Some resolved) ;;;
                r <- loadRef KExample (Some resolved) ;;
                storeValue KExample component (Value r)
            end
        end
      else ret tt
  end.

(** [LoadSwaggerFromFile]: the same loader, entered with a path. *)
Definition LoadSwaggerFromFile (fuel : nat) (path : string) : M Swagger :=
  match fuel with
  | O => fail OutOfFuel
  | S fuel =>
      match LoadSwaggerFromURIFunc with
      | Some f =>
          f {| Scheme := ""; Host := ""; Path := path; RawQuery := ""; Fragment := "" |}
      | None =>
          data <- ioutil_ReadFile path ;;
          LoadSwaggerFromData fuel data
      end
  end.

(** ** Vocabulary of the properties *)

(** The text [c] occurs in [s]. *)
Definition occursIn (c : ascii) (s : string) : Prop :=
  In c (list_ascii_of_string s).

(** Steps 2 to 4 of the component locator, once the document [doc] and the
    [remainder] of the reference are known. *)
Definition locateIn (doc : Swagger) (remainder prefix : string)
    : result (Components * string) :=
  if HasPrefix remainder prefix then
    let id := sliceFrom (String.length prefix) remainder in
    if (0 <=? IndexByte id "/")%Z
    then Fail (Err (failedToResolveRefFragmentPart remainder id))
    else Ok (Swagger_Components doc, id)
  else Fail (Err (failedToResolveRefFragment remainder)).

(** What step 1 of the locator leaves for steps 2 to 4: a local reference
    is its own remainder, against the document at hand; an external one,
    when external references are enabled, parses and its document loads,
    leaves its fragment, against the loaded document. *)
Definition Remainder (fuel : nat) (swagger : Swagger) (ref : string) (w : World)
    (doc : Swagger) (remainder : string) (w' : World) : Prop :=
  (HasPrefix ref "#" = true /\ doc = swagger /\ remainder = ref /\ w' = w)
  \/ (HasPrefix ref "#" = false /\ IsExternalRefsAllowed w = true /\
      exists parsedURL,
        url_Parse ref = Some parsedURL /\
        LoadSwaggerFromURI fuel (URL_clearFragment parsedURL) w = (Ok doc, w') /\
        remainder = Fragment parsedURL).

(** *** The common shape of the resolvers

    The six guarded resolvers are the same code up to the kind, its prefix,
    its table, its two error messages and what is done with the value: a
    guard on [visited], the flattening of the reference string, the descent
    into the value.  The shape is stated once; each resolver is shown below
    to be an instance of it. *)

Definition flattenWith (k : Kind) (prefix : string)
    (table : Components -> option (gomap ptr))
    (errTable : string -> error) (errId : string -> string -> error)
    (locate : string -> string -> M (Components * string))
    (self : ptr -> M unit) (component : ptr) : M unit :=
  c <- loadRef k component ;;
  let ref := Ref c in
  if nonEmpty ref then
    ci <- locate ref prefix ;;
    match table (fst ci) with
    | None => throw (errTable ref)
    | Some definitions =>
        match mapIndex definitions (snd ci) with
        | None => throw (errId ref (snd ci))
        | Some resolved =>
            self (Some resolved) ;;;
            r <- loadRef k (Some resolved) ;;
            storeValue k component (Value r)
        end
    end
  else ret tt.

Definition guardedWith (k : Kind) (component : ptr) (body : M unit) : M unit :=
  seen <- isVisited k component ;;
  if seen then ret tt else markVisited k component ;;; body.

Definition descendHeader (resolveSchema : ptr -> M unit) (component : ptr) : M unit :=
  c <- loadRef KHeader component ;;
  match Value c with
  | None => ret tt
  | Some value =>
      v <- loadFrom headers (Some value) ;;
      match Header_Schema v with
      | None => ret tt
      | Some schema => resolveSchema (Some schema)
      end
  end.

Definition descendParameter (resolveSchema : ptr -> M unit) (component : ptr) : M unit :=
  c <- loadRef KParameter component ;;
  match Value c with
  | None => ret tt
  | Some value =>
      v <- loadFrom parameters (Some value) ;;
      match Parameter_Schema v with
      | None => ret tt
      | Some schema => resolveSchema (Some schema)
      end
  end.

Definition descendRequestBody (resolveSchema : ptr -> M unit) (component : ptr) : M unit :=
  c <- loadRef KRequestBody component ;;
  match Value c with
  | None => ret tt
  | Some value =>
      v <- loadFrom requestBodies (Some value) ;;
      forRange (RequestBody_Content v) (fun contentType =>
        ct <- loadFrom contentTypes contentType ;;
        match ContentType_Schema ct with
        | None => ret tt
        | Some schema => resolveSchema (Some schema)
        end)
  end.

Definition descendResponse (resolveSchema : ptr -> M unit) (component : ptr) : M unit :=
  c <- loadRef KResponse component ;;
  match Value c with
  | None => ret tt
  | Some value =>
      v <- loadFrom responses (Some value) ;;
      forRange (Response_Content v) (fun contentType =>
        match contentType with
        | None => ret tt
        | Some _ =>
            ct <- loadFrom contentTypes contentType ;;
            match ContentType_Schema ct with
            | None => ret tt
            | Some schema =>
                resolveSchema (Some schema) ;;;
                storeContentTypeSchema contentType (Some schema)
            end
        end)
  end.

Definition descendSchema (resolveSchema : ptr -> M unit) (component : ptr) : M unit :=
  c <- loadRef KSchema component ;;
  value <- loadFrom schemas (Value c) ;;
  match Items value with
  | None => ret tt
  | Some v => resolveSchema (Some v)
  end ;;;
  forRange (Properties value) (fun v => resolveSchema v) ;;;
  match AdditionalProperties value with
  | None => ret tt
  | Some v => resolveSchema (Some v)
  end.

(** *** What a reference string names *)

(** The prefix each resolver passes to the locator. *)
Definition kindPrefix (k : Kind) : string :=
  match k with
  | KHeader => "#/components/headers/"
  | KParameter => "#/components/parameters/"
  | KRequestBody => "#/components/requestBodies/"
  | KResponse => "#/components/responses/"
  | KSchema => "#/components/schemas/"
  | KSecurityScheme => "#/components/securitySchemes/"
  | KExample => "#/components/examples"
  end.

(** The table each resolver reads. *)
Definition kindTable (k : Kind) (c : Components) : option (gomap ptr) :=
  match k with
  | KHeader => Headers c
  | KParameter => Parameters_ c
  | KRequestBody => RequestBodies c
  | KResponse => Responses c
  | KSchema => Schemas c
  | KSecurityScheme => SecuritySchemes c
  | KExample => Examples c
  end.

(** The local reference string [ref], read by the resolver of kind [k],
    names the entry at address [target] of the table of [k]. *)
Definition Names (swagger : Swagger) (k : Kind) (ref : string) (target : loc) : Prop :=
  exists id definitions,
    ref = kindPrefix k ++ id /\ ~ occursIn "/" id /\
    kindTable k (Swagger_Components swagger) = Some definitions /\
    mapIndex definitions id = Some target.

(** The [Value] field behind a pointer, when the pointer is valid. *)
Definition valueOf (k : Kind) (p : ptr) (w : World) : option ptr :=
  Value <$> derefRef k p w.

(** A visited Ref is resolved: it is a valid pointer; a Schema Ref holds a
    non-null Value; when it carries a reference string, the string names a
    visited entry of the table of its kind and both hold the same Value. *)
Definition Resolved (swagger : Swagger) (w : World) (k : Kind) (p : ptr) : Prop :=
  exists o, derefRef k p w = Some o /\
    (k = KSchema -> Value o <> None) /\
    (Ref o <> "" ->
     exists target o', Names swagger k (Ref o) target /\
       (k, Some target) ∈ visited w /\
       refs w !! (k, target) = Some o' /\ Value o' = Value o).

(** Following reference strings from one Ref of kind [k] to another, any
    number of hops. *)
Inductive Hops (swagger : Swagger) (w : World) (k : Kind) : loc -> loc -> Prop :=
| Hops_refl l : Hops swagger w k l l
| Hops_step l o target l' :
    refs w !! (k, l) = Some o -> Ref o <> "" ->
    Names swagger k (Ref o) target ->
    Hops swagger w k target l' ->
    Hops swagger w k l l'.

(** No Schema Ref still to be visited carries both a reference string and
    a Value. *)
Definition Shape (w : World) : Prop :=
  forall l o, (KSchema, Some l) ∉ visited w ->
    refs w !! (KSchema, l) = Some o -> Ref o <> "" -> Value o = None.

(** What the resolvers are reasoned about under: external references
    disabled, and [Shape]. *)
Definition Pre (w : World) : Prop :=
  IsExternalRefsAllowed w = false /\ Shape w.

(** What a part of the pass does to the state: it writes to Refs only, and
    only to those it visits for the first time; these end up resolved. *)
Record Step (swagger : Swagger) (w w' : World) : Prop := {
  step_headers : headers w' = headers w;
  step_parameters : parameters w' = parameters w;
  step_requestBodies : requestBodies w' = requestBodies w;
  step_responses : responses w' = responses w;
  step_contentTypes : contentTypes w' = contentTypes w;
  step_schemas : schemas w' = schemas w;
  step_allowed : IsExternalRefsAllowed w' = IsExternalRefsAllowed w;
  step_loaderCalls : loaderCalls w' = loaderCalls w;
  step_visited : visited w ⊆ visited w';
  step_refs : forall k l,
    (k, Some l) ∈ visited w \/ (k, Some l) ∉ visited w' ->
    refs w' !! (k, l) = refs w !! (k, l);
  step_Ref : forall k l, Ref <$> refs w' !! (k, l) = Ref <$> refs w !! (k, l);
  step_new : forall k p,
    (k, p) ∈ visited w' -> (k, p) ∉ visited w -> Resolved swagger w' k p
}.

(** The Refs of kind [k] visited for the first time hold the Value of [c]. *)
Definition SameValue (k : Kind) (c : ptr) (w w' : World) : Prop :=
  forall p, (k, p) ∈ visited w' -> (k, p) ∉ visited w ->
    valueOf k p w' = valueOf k c w'.

(** Only Schema Refs are visited for the first time. *)
Definition OnlySchemaKeys (w w' : World) : Prop :=
  forall k p, (k, p) ∈ visited w' -> (k, p) ∉ visited w -> k = KSchema.

(** The sites of a value that hold a [*SchemaRef]: [s] is one of them in
    the value [v] of a Ref of kind [k]. *)
Definition Child (w : World) (k : Kind) (v : ptr) (s : ptr) : Prop :=
  match k with
  | KHeader =>
      exists lv h ls, v = Some lv /\ headers w !! lv = Some h /\
        Header_Schema h = Some ls /\ s = Some ls
  | KParameter =>
      exists lv h ls, v = Some lv /\ parameters w !! lv = Some h /\
        Parameter_Schema h = Some ls /\ s = Some ls
  | KRequestBody =>
      exists lv b m key lct ct ls, v = Some lv /\ requestBodies w !! lv = Some b /\
        RequestBody_Content b = Some m /\ (key, Some lct) ∈ m /\
        contentTypes w !! lct = Some ct /\ ContentType_Schema ct = Some ls /\
        s = Some ls
  | KResponse =>
      exists lv b m key lct ct ls, v = Some lv /\ responses w !! lv = Some b /\
        Response_Content b = Some m /\ (key, Some lct) ∈ m /\
        contentTypes w !! lct = Some ct /\ ContentType_Schema ct = Some ls /\
        s = Some ls
  | KSchema =>
      exists lv sch, v = Some lv /\ schemas w !! lv = Some sch /\
        ((exists ls, Items sch = Some ls /\ s = Some ls)
         \/ (exists m key, Properties sch = Some m /\ (key, s) ∈ m)
         \/ (exists ls, AdditionalProperties sch = Some ls /\ s = Some ls))
  | KSecurityScheme | KExample => False
  end.

(** The schema of the content type [contentType] is visited. *)
Definition ContentVisited (contentType : ptr) (w : World) : Prop :=
  forall lct ct ls, contentType = Some lct -> contentTypes w !! lct = Some ct ->
    ContentType_Schema ct = Some ls -> (KSchema, Some ls) ∈ visited w.

(** The nested Schema Refs of the value of the Ref [p] are visited. *)
Definition ChildrenVisited (w : World) (k : Kind) (p : ptr) : Prop :=
  forall o s, derefRef k p w = Some o -> Child w k (Value o) s ->
    (KSchema, s) ∈ visited w.

(** The Refs visited for the first time have their nested Refs visited. *)
Definition Closes (w w' : World) : Prop :=
  forall k p, (k, p) ∈ visited w' -> (k, p) ∉ visited w -> ChildrenVisited w' k p.

(** A step that visits Schema Refs only: the descent into a value. *)
Definition SchemaStep (swagger : Swagger) (w w' : World) : Prop :=
  Step swagger w w' /\ OnlySchemaKeys w w' /\ Closes w w'.

(** A step of the top-level walk. *)
Definition WalkStep (swagger : Swagger) (w w' : World) : Prop :=
  Step swagger w w' /\ Closes w w'.

(** The Refs of an operation are visited. *)
Definition OperationVisited (operation : Operation) (w : World) : Prop :=
  (forall parameters p, Operation_Parameters operation = Some parameters ->
     p ∈ parameters -> (KParameter, p) ∈ visited w)
  /\ (forall l, Operation_RequestBody operation = Some l ->
       (KRequestBody, Some l) ∈ visited w)
  /\ (forall m key p, Operation_Responses operation = Some m ->
       (key, p) ∈ m -> (KResponse, p) ∈ visited w).

Definition PathItemVisited (pathItem : option PathItem) (w : World) : Prop :=
  forall item method operation, pathItem = Some item ->
    (method, operation) ∈ Operations item -> OperationVisited operation w.

(** What a successful call of the resolver of kind [k] guarantees. *)
Definition ResolverSpec (swagger : Swagger) (k : Kind) (self : ptr -> M unit) : Prop :=
  forall c w w', Pre w -> self c w = (Ok tt, w') ->
    Step swagger w w' /\ (k, c) ∈ visited w' /\
    (k <> KSchema -> SameValue k c w w') /\
    (k = KSchema -> OnlySchemaKeys w w') /\
    Closes w w'.

(** The Refs the walk starts from: the entries of the six tables it ranges
    over, and the parameters, request body and responses of the
    operations. *)
Inductive Root (swagger : Swagger) : Kind -> ptr -> Prop :=
| Root_table k m key p :
    k <> KExample ->
    kindTable k (Swagger_Components swagger) = Some m -> (key, p) ∈ m ->
    Root swagger k p
| Root_parameter paths path item method operation parameters p :
    Paths swagger = Some paths -> (path, Some item) ∈ paths ->
    (method, operation) ∈ Operations item ->
    Operation_Parameters operation = Some parameters -> p ∈ parameters ->
    Root swagger KParameter p
| Root_requestBody paths path item method operation l :
    Paths swagger = Some paths -> (path, Some item) ∈ paths ->
    (method, operation) ∈ Operations item ->
    Operation_RequestBody operation = Some l ->
    Root swagger KRequestBody (Some l)
| Root_response paths path item method operation m key p :
    Paths swagger = Some paths -> (path, Some item) ∈ paths ->
    (method, operation) ∈ Operations item ->
    Operation_Responses operation = Some m -> (key, p) ∈ m ->
    Root swagger KResponse p.

(** The Refs reachable from the roots: through a reference string to the
    entry it names, and through a value to its nested Schema Refs. *)
Inductive Reach (swagger : Swagger) (w : World) : Kind -> ptr -> Prop :=
| Reach_root k p : Root swagger k p -> Reach swagger w k p
| Reach_target k l o target :
    Reach swagger w k (Some l) ->
    refs w !! (k, l) = Some o -> Ref o <> "" ->
    Names swagger k (Ref o) target ->
    Reach swagger w k (Some target)
| Reach_child k p o s :
    Reach swagger w k p ->
    derefRef k p w = Some o -> Child w k (Value o) s ->
    Reach swagger w KSchema s.

(** *** Documents without reference strings *)

(** [p] points to a Ref of kind [k] of the document [D];
    [OptionalRef]: or is nil. *)
Definition ValidRef (D : gset (Kind * loc)) (k : Kind) (p : ptr) : Prop :=
  exists l, p = Some l /\ (k, l) ∈ D.

Definition OptionalRef (D : gset (Kind * loc)) (k : Kind) (p : ptr) : Prop :=
  p = None \/ ValidRef D k p.

(** The content types of a [Content] map are allocated and their schema,
    if any, is a Ref of the document; [nilAllowed] tells whether the map may
    hold nil entries (the Response resolver skips them, the RequestBody
    resolver dereferences them). *)
Definition WfContent (w : World) (D : gset (Kind * loc)) (nilAllowed : bool)
    (content : option (gomap ptr)) : Prop :=
  forall m key contentType, content = Some m -> (key, contentType) ∈ m ->
    (nilAllowed = true /\ contentType = None)
    \/ exists lct ct, contentType = Some lct /\ contentTypes w !! lct = Some ct /\
         OptionalRef D KSchema (ContentType_Schema ct).

(** The value [v] of a Ref of kind [k] is allocated, and the Schema Refs
    it holds are Refs of the document.  A Schema Ref has a value; the value
    of a Ref of another kind may be null. *)
Definition WfValue (w : World) (D : gset (Kind * loc)) (k : Kind) (v : ptr) : Prop :=
  match k with
  | KHeader =>
      v = None \/ exists lv h, v = Some lv /\ headers w !! lv = Some h /\
        OptionalRef D KSchema (Header_Schema h)
  | KParameter =>
      v = None \/ exists lv h, v = Some lv /\ parameters w !! lv = Some h /\
        OptionalRef D KSchema (Parameter_Schema h)
  | KRequestBody =>
      v = None \/ exists lv b, v = Some lv /\ requestBodies w !! lv = Some b /\
        WfContent w D false (RequestBody_Content b)
  | KResponse =>
      v = None \/ exists lv b, v = Some lv /\ responses w !! lv = Some b /\
        WfContent w D true (Response_Content b)
  | KSchema =>
      exists lv sch, v = Some lv /\ schemas w !! lv = Some sch /\
        OptionalRef D KSchema (Items sch) /\
        (forall m key p, Properties sch = Some m -> (key, p) ∈ m ->
           ValidRef D KSchema p) /\
        OptionalRef D KSchema (AdditionalProperties sch)
  | KSecurityScheme | KExample => True
  end.

(** [D] is a document without reference strings: each of its Refs is
    allocated, has an empty reference string and a well-formed value. *)
Definition RefFree (w : World) (D : gset (Kind * loc)) : Prop :=
  forall k l, (k, l) ∈ D ->
    exists o, refs w !! (k, l) = Some o /\ Ref o = "" /\ WfValue w D k (Value o).

(** The Refs the walk starts from are Refs of [D]. *)
Definition RootsIn (swagger : Swagger) (D : gset (Kind * loc)) : Prop :=
  forall k p, Root swagger k p -> ValidRef D k p.

(** The Refs of [D] not visited yet: what bounds the depth of the calls. *)
Definition pending (D : gset (Kind * loc)) (w : World) : nat :=
  size (filter (fun x => (x.1, Some x.2) ∉ visited w) D).

(** Nothing but [visited] differs between [w] and [w']. *)
Definition SameHeap (w w' : World) : Prop :=
  refs w' = refs w /\ headers w' = headers w /\ parameters w' = parameters w /\
  requestBodies w' = requestBodies w /\ responses w' = responses w /\
  contentTypes w' = contentTypes w /\ schemas w' = schemas w /\
  IsExternalRefsAllowed w' = IsExternalRefsAllowed w /\
  loaderCalls w' = loaderCalls w.

(** Only [visited] changes, and it grows. *)
Definition Visits (w w' : World) : Prop :=
  SameHeap w w' /\ visited w ⊆ visited w'.

(** The state in which a call of depth [n] is safe. *)
Definition Safe (D : gset (Kind * loc)) (n : nat) (w : World) : Prop :=
  RefFree w D /\ pending D w < n.

(** The resolver [self] of kind [k] returns without error on the Refs of a
    document without reference strings, given [n] units of fuel more than
    Refs are pending. *)
Definition TotalOn (D : gset (Kind * loc)) (k : Kind) (n : nat)
    (self : ptr -> M unit) : Prop :=
  forall c w, RefFree w D -> ValidRef D k c -> pending D w < n ->
    exists w', self c w = (Ok tt, w') /\ Visits w w'.

(** *** Sample documents *)

Definition emptyWorld : World :=
  {| refs := ∅; headers := ∅; parameters := ∅; requestBodies := ∅;
     responses := ∅; contentTypes := ∅; schemas := ∅;
     IsExternalRefsAllowed := false; visited := ∅; loaderCalls := [] |}.

(** The same with external references enabled. *)
Definition openWorld : World :=
  {| refs := ∅; headers := ∅; parameters := ∅; requestBodies := ∅;
     responses := ∅; contentTypes := ∅; schemas := ∅;
     IsExternalRefsAllowed := true; visited := ∅; loaderCalls := [] |}.

Definition noComponents : Components :=
  {| Headers := None; Parameters_ := None; RequestBodies := None;
     Responses := None; Schemas := None; SecuritySchemes := None;
     Examples := None |}.

Definition leafSchema : Schema :=
  {| Items := None; Properties := None; AdditionalProperties := None |}.

(** Two parameters that refer to each other. *)
Definition parameterCycle : Swagger :=
  {| Swagger_Components :=
       {| Headers := None;
          Parameters_ := Some [("A", Some 1%positive); ("B", Some 2%positive)];
          RequestBodies := None; Responses := None; Schemas := None;
          SecuritySchemes := None; Examples := None |};
     Paths := None |}.

Definition parameterCycleWorld : World :=
  set_refs (fun _ => list_to_map
    [((KParameter, 1%positive),
      {| Ref := "#/components/parameters/B"; Value := None |});
     ((KParameter, 2%positive),
      {| Ref := "#/components/parameters/A"; Value := None |})]) emptyWorld.

(** Pet and Person refer to each other through a property; A refers to B,
    B to C; an operation has a parameter referring to a component, and a
    response whose content has a schema referring to Pet. *)
Definition petStore : Swagger :=
  {| Swagger_Components :=
       {| Headers := None;
          Parameters_ := Some [("limit", Some 1%positive)];
          RequestBodies := None; Responses := None;
          Schemas := Some [("Pet", Some 1%positive); ("Person", Some 2%positive);
                           ("A", Some 3%positive); ("B", Some 4%positive);
                           ("C", Some 5%positive)];
          SecuritySchemes := None; Examples := None |};
     Paths := Some [("/pets", Some {| Operations :=
       [("GET", {| Operation_Parameters := Some [Some 2%positive];
                   Operation_RequestBody := None;
                   Operation_Responses := Some [("200", Some 1%positive)] |})] |})] |}.

Definition petStoreWorld : World :=
  {| refs := list_to_map
       [((KSchema, 1%positive), {| Ref := ""; Value := Some 101%positive |});
        ((KSchema, 2%positive), {| Ref := ""; Value := Some 102%positive |});
        ((KSchema, 3%positive), {| Ref := "#/components/schemas/B"; Value := None |});
        ((KSchema, 4%positive), {| Ref := "#/components/schemas/C"; Value := None |});
        ((KSchema, 5%positive), {| Ref := ""; Value := Some 103%positive |});
        ((KSchema, 6%positive), {| Ref := "#/components/schemas/Person"; Value := None |});
        ((KSchema, 7%positive), {| Ref := "#/components/schemas/Pet"; Value := None |});
        ((KSchema, 8%positive), {| Ref := "#/components/schemas/A"; Value := None |});
        ((KSchema, 9%positive), {| Ref := "#/components/schemas/Pet"; Value := None |});
        ((KParameter, 1%positive), {| Ref := ""; Value := Some 201%positive |});
        ((KParameter, 2%positive),
         {| Ref := "#/components/parameters/limit"; Value := None |});
        ((KResponse, 1%positive), {| Ref := ""; Value := Some 301%positive |})];
     headers := ∅;
     parameters := {[ 201%positive := {| Parameter_Schema := Some 8%positive |} ]};
     requestBodies := ∅;
     responses := {[ 301%positive :=
       {| Response_Content := Some [("application/json", Some 401%positive)] |} ]};
     contentTypes := {[ 401%positive := {| ContentType_Schema := Some 9%positive |} ]};
     schemas := list_to_map
       [(101%positive, {| Items := None;
                          Properties := Some [("owner", Some 6%positive)];
                          AdditionalProperties := None |});
        (102%positive, {| Items := None;
                          Properties := Some [("pet", Some 7%positive)];
                          AdditionalProperties := None |});
        (103%positive, leafSchema)];
     IsExternalRefsAllowed := false; visited := ∅; loaderCalls := [] |}.

(** Three schemas that refer to one another in a ring: A to B, B to C,
    C back to A. *)
Definition schemaRing : Swagger :=
  {| Swagger_Components :=
       {| Headers := None; Parameters_ := None; RequestBodies := None;
          Responses := None;
          Schemas := Some [("A", Some 1%positive); ("B", Some 2%positive);
                           ("C", Some 3%positive)];
          SecuritySchemes := None; Examples := None |};
     Paths := None |}.

Definition schemaRingWorld : World :=
  set_refs (fun _ => list_to_map
    [((KSchema, 1%positive), {| Ref := "#/components/schemas/B"; Value := None |});
     ((KSchema, 2%positive), {| Ref := "#/components/schemas/C"; Value := None |});
     ((KSchema, 3%positive), {| Ref := "#/components/schemas/A"; Value := None |})])
    emptyWorld.

(** The chain A to B to C where C is a schema with a property that refers
    back to A. *)
Definition schemaLoopWorld : World :=
  {| refs := list_to_map
       [((KSchema, 1%positive), {| Ref := "#/components/schemas/B"; Value := None |});
        ((KSchema, 2%positive), {| Ref := "#/components/schemas/C"; Value := None |});
        ((KSchema, 3%positive), {| Ref := ""; Value := Some 103%positive |});
        ((KSchema, 4%positive), {| Ref := "#/components/schemas/A"; Value := None |})];
     headers := ∅; parameters := ∅; requestBodies := ∅; responses := ∅;
     contentTypes := ∅;
     schemas := {[ 103%positive :=
       {| Items := None; Properties := Some [("back", Some 4%positive)];
          AdditionalProperties := None |} ]};
     IsExternalRefsAllowed := false; visited := ∅; loaderCalls := [] |}.

(** A Schema Ref and a Parameter Ref with neither a reference string nor a
    Value. *)
Definition blankRefs : World :=
  set_refs (fun _ => list_to_map
    [((KSchema, 1%positive), {| Ref := ""; Value := None |});
     ((KParameter, 1%positive), {| Ref := ""; Value := None |})]) emptyWorld.

(** Examples: "a" has a value; "b" refers to it the way the grammar has it;
    "c" refers to it by the only string the Example resolver accepts; "d"
    refers to itself. *)
Definition exampleDoc : Swagger :=
  {| Swagger_Components :=
       {| Headers := None; Parameters_ := None; RequestBodies := None;
          Responses := None; Schemas := None; SecuritySchemes := None;
          Examples := Some [("a", Some 1%positive); ("b", Some 2%positive);
                            ("c", Some 3%positive); ("d", Some 4%positive)] |};
     Paths := None |}.

Definition exampleWorld : World :=
  set_refs (fun _ => list_to_map
    [((KExample, 1%positive), {| Ref := ""; Value := Some 9%positive |});
     ((KExample, 2%positive), {| Ref := "#/components/examples/a"; Value := None |});
     ((KExample, 3%positive), {| Ref := "#/components/examplesa"; Value := None |});
     ((KExample, 4%positive), {| Ref := "#/components/examplesd"; Value := None |})])
    emptyWorld.

(** A Header Ref and a Parameter Ref that refer to components of a document
    that has no table of their kind. *)
Definition danglingDoc : Swagger :=
  {| Swagger_Components := noComponents; Paths := None |}.

Definition danglingWorld : World :=
  set_refs (fun _ => list_to_map
    [((KHeader, 1%positive), {| Ref := "#/components/headers/x"; Value := None |});
     ((KParameter, 1%positive),
      {| Ref := "#/components/parameters/x"; Value := None |})]) emptyWorld.

(** A document without reference strings: two schemas that hold each other
    as items, and a response whose content has a schema. *)
Definition plainDoc : Swagger :=
  {| Swagger_Components :=
       {| Headers := None; Parameters_ := None; RequestBodies := None;
          Responses := Some [("R", Some 1%positive)];
          Schemas := Some [("S", Some 1%positive)];
          SecuritySchemes := None; Examples := None |};
     Paths := None |}.

Definition plainWorld : World :=
  {| refs := list_to_map
       [((KSchema, 1%positive), {| Ref := ""; Value := Some 10%positive |});
        ((KSchema, 2%positive), {| Ref := ""; Value := Some 11%positive |});
        ((KResponse, 1%positive), {| Ref := ""; Value := Some 20%positive |})];
     headers := ∅; parameters := ∅; requestBodies := ∅;
     responses := {[ 20%positive :=
       {| Response_Content := Some [("application/json", Some 30%positive)] |} ]};
     contentTypes := {[ 30%positive := {| ContentType_Schema := Some 2%positive |} ]};
     schemas := list_to_map
       [(10%positive, {| Items := Some 2%positive; Properties := None;
                         AdditionalProperties := None |});
        (11%positive, {| Items := Some 1%positive; Properties := None;
                         AdditionalProperties := None |})];
     IsExternalRefsAllowed := false; visited := ∅; loaderCalls := [] |}.

Definition plainRefs : gset (Kind * loc) :=
  {[ (KSchema, 1%positive); (KSchema, 2%positive); (KResponse, 1%positive) ]}.

(** Stand-ins for what the loader takes from outside: nothing parses, no
    file is found. *)
Definition noParse : string -> option URL := fun _ => None.
Definition noFile : string -> M (list Byte.byte) :=
  fun _ => throw "open: no such file or directory".
Definition noJSON : list Byte.byte -> M Swagger :=
  fun _ => throw "unexpected end of JSON input".

(** A parser that knows one external reference, and a loader function that
    serves [petStore] for it. *)
Definition otherParse : string -> option URL :=
  fun ref =>
    if String.eqb ref "other.json#/components/schemas/X"
    then Some {| Scheme := ""; Host := ""; Path := "other.json"; RawQuery := "";
                 Fragment := "/components/schemas/X" |}
    else None.

Definition otherLoad : URL -> M Swagger := fun _ => ret petStore.

(** Refs whose reference strings the resolvers refuse: an external
    reference, a reference with a nested path, a reference to a remote
    location, a Parameter Ref that holds a schema reference, a reference
    to a parameter that does not exist. *)
Definition strayDoc : Swagger :=
  {| Swagger_Components :=
       {| Headers := None;
          Parameters_ := Some [("p", Some 1%positive)];
          RequestBodies := None; Responses := None;
          Schemas := Some [("S", Some 1%positive)];
          SecuritySchemes := None; Examples := None |};
     Paths := None |}.

Definition strayRefs : gmap (Kind * loc) ComponentRef :=
  list_to_map
    [((KSchema, 1%positive),
      {| Ref := "other.json#/components/schemas/X"; Value := None |});
     ((KSchema, 2%positive), {| Ref := "#/components/schemas/a/b"; Value := None |});
     ((KSchema, 3%positive),
      {| Ref := "http://example.com/api.json#/components/schemas/X";
         Value := None |});
     ((KParameter, 1%positive), {| Ref := "#/components/schemas/S"; Value := None |});
     ((KParameter, 2%positive),
      {| Ref := "#/components/parameters/q"; Value := None |})].

Definition strayWorld : World := set_refs (fun _ => strayRefs) emptyWorld.
Definition strayOpenWorld : World := set_refs (fun _ => strayRefs) openWorld.

(** A parser that knows one reference to a remote location. *)
Definition remoteParse : string -> option URL :=
  fun ref =>
    if String.eqb ref "http://example.com/api.json#/components/schemas/X"
    then Some {| Scheme := "http"; Host := "example.com"; Path := "/api.json";
                 RawQuery := ""; Fragment := "/components/schemas/X" |}
    else None.

(** A stand-in for [URL.String]: scheme, host and path. *)
Definition schemeHostPath : URL -> string :=
  fun u => Scheme u ++ "://" ++ Host u ++ Path u.

(** Pet and Person, each a definition with a property that refers to the
    other by a reference string. *)
Definition flatDoc : Swagger :=
  {| Swagger_Components :=
       {| Headers := None; Parameters_ := None; RequestBodies := None;
          Responses := None;
          Schemas := Some [("Pet", Some 1%positive); ("Person", Some 2%positive)];
          SecuritySchemes := None; Examples := None |};
     Paths := None |}.

Definition flatWorld : World :=
  {| refs := list_to_map
       [((KSchema, 1%positive), {| Ref := ""; Value := Some 101%positive |});
        ((KSchema, 2%positive), {| Ref := ""; Value := Some 102%positive |});
        ((KSchema, 3%positive),
         {| Ref := "#/components/schemas/Person"; Value := None |});
        ((KSchema, 4%positive),
         {| Ref := "#/components/schemas/Pet"; Value := None |})];
     headers := ∅; parameters := ∅; requestBodies := ∅; responses := ∅;
     contentTypes := ∅;
     schemas := list_to_map
       [(101%positive, {| Items := None;
                          Properties := Some [("owner", Some 3%positive)];
                          AdditionalProperties := None |});
        (102%positive, {| Items := None;
                          Properties := Some [("pet", Some 4%positive)];
                          AdditionalProperties := None |})];
     IsExternalRefsAllowed := false; visited := ∅; loaderCalls := [] |}.

Definition flatRefs : gset (Kind * loc) :=
  {[ (KSchema, 1%positive); (KSchema, 2%positive); (KSchema, 3%positive);
     (KSchema, 4%positive) ]}.

(** Stand-ins for a file system with the one file "flat.json", and for a
    decoder that allocates [flatDoc] in the heap. *)
Definition flatFile : string -> M (list Byte.byte) :=
  fun path =>
    if String.eqb path "flat.json" then ret [Byte.x7b; Byte.x7d]
    else throw "open: no such file or directory".

Definition flatJSON : list Byte.byte -> M Swagger :=
  fun _ w =>
    (Ok flatDoc,
     {| refs := refs flatWorld; headers := headers flatWorld;
        parameters := parameters flatWorld;
        requestBodies := requestBodies flatWorld; responses := responses flatWorld;
        contentTypes := contentTypes flatWorld; schemas := schemas flatWorld;
        IsExternalRefsAllowed := IsExternalRefsAllowed w;
        visited := visited w; loaderCalls := loaderCalls w |}).

(** A RequestBody and a Response whose Content holds a nil entry. *)
Definition nilContentWorld : World :=
  {| refs := list_to_map
       [((KRequestBody, 1%positive), {| Ref := ""; Value := Some 10%positive |});
        ((KResponse, 1%positive), {| Ref := ""; Value := Some 20%positive |})];
     headers := ∅; parameters := ∅;
     requestBodies := {[ 10%positive :=
       {| RequestBody_Content := Some [("application/json", None)] |} ]};
     responses := {[ 20%positive :=
       {| Response_Content := Some [("application/json", None)] |} ]};
     contentTypes := ∅; schemas := ∅;
     IsExternalRefsAllowed := false; visited := ∅; loaderCalls := [] |}.

(** Documents without any reference string that the pass does not survive:
    a schema entry with neither reference string nor Value (over
    [blankRefs]), a schema entry that is nil, a request body whose Content
    holds a nil entry (over [nilContentWorld]); and, for comparison, a
    response whose Content holds a nil entry. *)
Definition blankSchemaDoc : Swagger :=
  {| Swagger_Components :=
       {| Headers := None; Parameters_ := None; RequestBodies := None;
          Responses := None; Schemas := Some [("S", Some 1%positive)];
          SecuritySchemes := None; Examples := None |};
     Paths := None |}.

Definition nilEntryDoc : Swagger :=
  {| Swagger_Components :=
       {| Headers := None; Parameters_ := None; RequestBodies := None;
          Responses := None; Schemas := Some [("S", None)];
          SecuritySchemes := None; Examples := None |};
     Paths := None |}.

Definition nilContentBodyDoc : Swagger :=
  {| Swagger_Components :=
       {| Headers := None; Parameters_ := None;
          RequestBodies := Some [("B", Some 1%positive)];
          Responses := None; Schemas := None;
          SecuritySchemes := None; Examples := None |};
     Paths := None |}.

Definition nilContentResponseDoc : Swagger :=
  {| Swagger_Components :=
       {| Headers := None; Parameters_ := None; RequestBodies := None;
          Responses := Some [("R", Some 1%positive)]; Schemas := None;
          SecuritySchemes := None; Examples := None |};
     Paths := None |}.

(** *** The seven resolvers, by kind *)

(** The resolver of the kind [k]. *)
Definition resolveRef (k : Kind) : nat -> Swagger -> ptr -> M unit :=
  match k with
  | KHeader => resolveHeaderRef
  | KParameter => resolveParameterRef
  | KRequestBody => resolveRequestBodyRef
  | KResponse => resolveResponseRef
  | KSchema => resolveSchemaRef
  | KSecurityScheme => resolveSecuritySchemeRef
  | KExample => resolveExampleRef
  end.

(** What the resolver of [k] does with a value once it has one. *)
Definition descendOf (k : Kind) (resolveSchema : ptr -> M unit) (component : ptr)
    : M unit :=
  match k with
  | KHeader => descendHeader resolveSchema component
  | KParameter => descendParameter resolveSchema component
  | KRequestBody => descendRequestBody resolveSchema component
  | KResponse => descendResponse resolveSchema component
  | KSchema => descendSchema resolveSchema component
  | KSecurityScheme | KExample => ret tt
  end.

(** The error of the resolver of [k] when the table of its kind is nil. *)
Definition tableError (k : Kind) (ref : string) : error :=
  match k with
  | KHeader => failedToResolveRefFragment ref
  | KParameter => failedToResolveRefFragmentPart ref "parameters"
  | KRequestBody => failedToResolveRefFragmentPart ref "requestBodies"
  | KResponse => failedToResolveRefFragmentPart ref "responses"
  | KSchema => failedToResolveRefFragmentPart ref "schemas"
  | KSecurityScheme => failedToResolveRefFragmentPart ref "securitySchemes"
  | KExample => failedToResolveRefFragmentPart ref "examples"
  end.

(** Its error when the table has no entry for the identifier. *)
Definition idError (k : Kind) (ref id : string) : error :=
  match k with
  | KHeader => failedToResolveRefFragment ref
  | _ => failedToResolveRefFragmentPart ref id
  end.

(** The guard of the resolver of [k]: every resolver but the Example
    resolver has one. *)
Definition guardOf (k : Kind) (component : ptr) (body : M unit) : M unit :=
  match k with
  | KExample => body
  | _ => guardedWith k component body
  end.

(** The state in which the resolver of [k] starts on the reference string
    of a Ref it had not visited: the Ref is marked (not by the Example
    resolver, which marks nothing). *)
Definition entered (k : Kind) (component : ptr) (w : World) : World :=
  match k with
  | KExample => w
  | _ => set_visited (fun s => {[ (k, component) ]} ∪ s) w
  end.

(** *** What a run leaves of the state, however it ends *)

(** What a part of the pass, finished or aborted, does to the state when
    external references are disabled: values, content types, the flag and
    the trace of loader calls are as before; no reference string changes;
    the Refs that were visited already, and those not visited at the end,
    are as before. *)
Record Frame (w w' : World) : Prop := {
  frame_headers : headers w' = headers w;
  frame_parameters : parameters w' = parameters w;
  frame_requestBodies : requestBodies w' = requestBodies w;
  frame_responses : responses w' = responses w;
  frame_contentTypes : contentTypes w' = contentTypes w;
  frame_schemas : schemas w' = schemas w;
  frame_allowed : IsExternalRefsAllowed w' = IsExternalRefsAllowed w;
  frame_loaderCalls : loaderCalls w' = loaderCalls w;
  frame_visited : visited w ⊆ visited w';
  frame_refs : forall k l,
    (k, Some l) ∈ visited w \/ (k, Some l) ∉ visited w' ->
    refs w' !! (k, l) = refs w !! (k, l);
  frame_Ref : forall k l, Ref <$> refs w' !! (k, l) = Ref <$> refs w !! (k, l)
}.

(** The error [e] is one of the three the locator and the table lookups
    have when external references are disabled, and the reference string
    it names is the one of a Ref of the state [w] that names no entry of
    the table of its kind in the document. *)
Definition Blames (swagger : Swagger) (w : World) (e : error) : Prop :=
  exists k l o, refs w !! (k, l) = Some o /\ Ref o <> "" /\
    (forall target, ~ Names swagger k (Ref o) target) /\
    (e = errNonAllowedExternalRef (Ref o)
     \/ e = failedToResolveRefFragment (Ref o)
     \/ exists what, e = failedToResolveRefFragmentPart (Ref o) what).

(** The state in which a call of depth [n] does not run out of depth:
    external references are disabled and fewer than [n] of the Refs in the
    heap are still to be visited. *)
Definition Ready (n : nat) (w : World) : Prop :=
  IsExternalRefsAllowed w = false /\ pending (dom (refs w)) w < n.

(** The run of [m] from [w] ends within the depth given, frames the state,
    and an error it returns blames a reference string. *)
Definition RunsAt {A} (swagger : Swagger) (m : M A) (w : World) : Prop :=
  fst (m w) <> Fail OutOfFuel /\ Frame w (snd (m w)) /\
  forall e, fst (m w) = Fail (Err e) -> Blames swagger w e.

(** The resolver [self] of kind [k], given the depth [n]. *)
Definition Halts (swagger : Swagger) (k : Kind) (n : nat) (self : ptr -> M unit)
    : Prop :=
  forall c w, Ready n w ->
    RunsAt swagger (self c) w
    /\ (fst (self c w) = Ok tt -> (k, c) ∈ visited (snd (self c w))).

(** The same for a run that starts at [w] inside a part of the pass that
    started at [w0]: the frame and the blame are those of the whole part,
    and what was visited at [w] stays so. *)
Definition RunsFrom {A} (swagger : Swagger) (w0 : World) (m : M A) (w : World)
    : Prop :=
  fst (m w) <> Fail OutOfFuel /\ Frame w0 (snd (m w)) /\
  visited w ⊆ visited (snd (m w)) /\
  forall e, fst (m w) = Fail (Err e) -> Blames swagger w0 e.

(** *** Documents whose references name definitions *)

(** The Ref [(k, l)] is a definition: it has no reference string, and the
    Value [v]. *)
Definition Defines (w : World) (k : Kind) (l : loc) (v : ptr) : Prop :=
  exists o, refs w !! (k, l) = Some o /\ Ref o = "" /\ Value o = v.

(** The value the Ref [(k, l)] of the document [D] stands for: its own when
    it is a definition, otherwise the one of the definition of [D] that its
    reference string names. *)
Definition Denotes (swagger : Swagger) (D : gset (Kind * loc)) (w : World)
    (k : Kind) (l : loc) (v : ptr) : Prop :=
  Defines w k l v
  \/ exists o target, refs w !! (k, l) = Some o /\
       Names swagger k (Ref o) target /\ (k, target) ∈ D /\ Defines w k target v.

(** [D] is a document in which every reference names a definition: each
    of its Refs stands for a well-formed value. *)
Definition Flat (swagger : Swagger) (w : World) (D : gset (Kind * loc)) : Prop :=
  forall k l, (k, l) ∈ D -> exists v, Denotes swagger D w k l v /\ WfValue w D k v.

(** A frame that moreover leaves the definitions as they are. *)
Definition Keeps (w w' : World) : Prop :=
  Frame w w' /\
  forall k l o, refs w !! (k, l) = Some o -> Ref o = "" -> refs w' !! (k, l) = Some o.

(** What a part of the pass does on such a document: the Refs of [D]
    visited for the first time end up with the value they stand for. *)
Definition Settles (swagger : Swagger) (D : gset (Kind * loc)) (w w' : World) : Prop :=
  Keeps w w' /\
  forall k l v, (k, Some l) ∈ visited w' -> (k, Some l) ∉ visited w ->
    (k, l) ∈ D -> Denotes swagger D w k l v -> valueOf k (Some l) w' = Some v.

(** The state in which a call of depth [n] succeeds. *)
Definition Sound (swagger : Swagger) (D : gset (Kind * loc)) (n : nat) (w : World)
    : Prop :=
  IsExternalRefsAllowed w = false /\ Flat swagger w D /\ pending D w < n.

(** The resolver [self] of kind [k] returns nil on the Refs of such a
    document. *)
Definition ResolvesOn (swagger : Swagger) (D : gset (Kind * loc)) (k : Kind)
    (n : nat) (self : ptr -> M unit) : Prop :=
  forall c w, Sound swagger D n w -> ValidRef D k c ->
    exists w', self c w = (Ok tt, w') /\ Settles swagger D w w' /\
      (k, c) ∈ visited w'.

(** ** Properties *)

Lemma append_cons (c : ascii) (p t : string) : String c p ++ t = String c (p ++ t).
Proof. reflexivity. Qed.

Lemma HasPrefix_app (p t : string) : HasPrefix (p ++ t) p = true.
Proof.
  induction p as [|c p IH]; [reflexivity|].
  rewrite append_cons. cbn. by rewrite Ascii.eqb_refl.
Qed.

Lemma HasPrefix_true (s p : string) :
  HasPrefix s p = true -> exists t, s = p ++ t.
Proof.
  revert s. induction p as [|c p IH]; intros s H; cbn in *.
  - by exists s.
  - destruct s as [|d s]; [discriminate|].
    destruct (Ascii.eqb_spec c d) as [->|]; [|discriminate].
    destruct (IH _ H) as [t ->]. exists t. by rewrite append_cons.
Qed.

Lemma sliceFrom_app (p t : string) : sliceFrom (String.length p) (p ++ t) = t.
Proof.
  induction p as [|c p IH]; [reflexivity|].
  rewrite append_cons. cbn. exact IH.
Qed.

Lemma IndexByte_found (s : string) (c : ascii) :
  (0 <=? IndexByte s c)%Z = true <-> occursIn c s.
Proof.
  unfold occursIn. induction s as [|d s IH]; cbn.
  - split; [discriminate|tauto].
  - destruct (Ascii.eqb_spec d c) as [->|Hne].
    + split; [tauto|reflexivity].
    + destruct (Z.ltb_spec (IndexByte s c) 0) as [Hlt|Hge].
      * split; [discriminate|]. intros [?|Hin]; [done|].
        apply IH in Hin. apply Z.leb_le in Hin. lia.
      * split; [|intros _; apply Z.leb_le; lia].
        intros _. right. apply IH. by apply Z.leb_le.
Qed.

Lemma geb_leb (z : Z) : (z >=? 0)%Z = (0 <=? z)%Z.
Proof. apply Z.geb_leb. Qed.

Arguments HasPrefix : simpl never.
Arguments sliceFrom : simpl never.
Arguments IndexByte : simpl never.

(** The locator on a local reference: no state is touched. *)
Lemma resolveComponent_local fuel swagger ref prefix w :
  HasPrefix ref "#" = true ->
  resolveComponent (S fuel) swagger ref prefix w = (locateIn swagger ref prefix, w).
Proof.
  intros Hloc. simpl. unfold bind, locateIn. rewrite Hloc. simpl.
  destruct (HasPrefix ref prefix); simpl; [|reflexivity].
  rewrite geb_leb. by destruct (0 <=? _)%Z.
Qed.

(** The locator on an external reference, external references enabled. *)
Lemma resolveComponent_loaded fuel swagger ref prefix w parsedURL doc w' :
  HasPrefix ref "#" = false ->
  IsExternalRefsAllowed w = true ->
  url_Parse ref = Some parsedURL ->
  LoadSwaggerFromURI fuel (URL_clearFragment parsedURL) w = (Ok doc, w') ->
  resolveComponent (S fuel) swagger ref prefix w
  = (locateIn doc (Fragment parsedURL) prefix, w').
Proof.
  intros Hext Hallow Hparse Hload. simpl. unfold bind, locateIn.
  rewrite Hext. simpl. rewrite Hallow. simpl. rewrite Hparse, Hload. simpl.
  destruct (HasPrefix _ prefix); simpl; [|reflexivity].
  rewrite geb_leb. by destruct (0 <=? _)%Z.
Qed.

Lemma locateIn_no_prefix doc remainder prefix :
  ~ (exists id, remainder = prefix ++ id) ->
  locateIn doc remainder prefix = Fail (Err (failedToResolveRefFragment remainder)).
Proof.
  intros Hno. unfold locateIn.
  destruct (HasPrefix remainder prefix) eqn:Hp; [|reflexivity].
  destruct Hno. by apply HasPrefix_true.
Qed.

Lemma locateIn_slash doc prefix id :
  occursIn "/" id ->
  locateIn doc (prefix ++ id) prefix
  = Fail (Err (failedToResolveRefFragmentPart (prefix ++ id) id)).
Proof.
  intros Hs. unfold locateIn. rewrite HasPrefix_app, sliceFrom_app.
  apply IndexByte_found in Hs. by rewrite Hs.
Qed.

Lemma locateIn_flat doc prefix id :
  ~ occursIn "/" id ->
  locateIn doc (prefix ++ id) prefix = Ok (Swagger_Components doc, id).
Proof.
  intros Hs. unfold locateIn. rewrite HasPrefix_app, sliceFrom_app.
  destruct (0 <=? IndexByte id "/")%Z eqn:E; [|reflexivity].
  destruct Hs. by apply IndexByte_found.
Qed.

Lemma resolveComponent_Remainder fuel swagger ref prefix w doc remainder w' :
  Remainder fuel swagger ref w doc remainder w' ->
  resolveComponent (S fuel) swagger ref prefix w = (locateIn doc remainder prefix, w').
Proof.
  intros [(Hloc & -> & -> & ->)|(Hext & Hallow & u & Hparse & Hload & ->)].
  - by apply resolveComponent_local.
  - by apply resolveComponent_loaded.
Qed.

(** C7. Whatever step 1 of the component locator leaves as remainder
    (the reference itself when it is local, the fragment of an external
    reference against the loaded document): a remainder that does not start
    with the expected prefix fails with UnresolvableFragment
    ([failedToResolveRefFragment]); one whose text after the prefix holds a
    '/' fails with UnresolvableFragmentPart
    ([failedToResolveRefFragmentPart]); any other returns the Components of
    the resolved document and the bare identifier. *)
Theorem resolveComponent_prefix_then_flat_id
    fuel swagger ref prefix w doc remainder w' :
  Remainder fuel swagger ref w doc remainder w' ->
  (~ (exists id, remainder = prefix ++ id) ->
     resolveComponent (S fuel) swagger ref prefix w
     = (Fail (Err (failedToResolveRefFragment remainder)), w'))
  /\ (forall id, remainder = prefix ++ id -> occursIn "/" id ->
       resolveComponent (S fuel) swagger ref prefix w
       = (Fail (Err (failedToResolveRefFragmentPart remainder id)), w'))
  /\ (forall id, remainder = prefix ++ id -> ~ occursIn "/" id ->
       resolveComponent (S fuel) swagger ref prefix w
       = (Ok (Swagger_Components doc, id), w')).
Proof.
  intros HR. rewrite (resolveComponent_Remainder _ _ _ _ _ _ _ _ HR).
  split; [|split].
  - intros Hno. by rewrite locateIn_no_prefix.
  - intros id -> Hs. by rewrite locateIn_slash.
  - intros id -> Hs. by rewrite locateIn_flat.
Qed.

(** C8. A reference that does not start with '#': with external references
    disabled the locator fails with DisallowedExternalRef and leaves the
    state as it found it (the loader is not invoked, the trace of loader
    calls included); with external references enabled and the reference
    parsed as a URI, the loader runs on the URI with its fragment removed
    (the state the locator leaves is the state that call leaves), a loader
    error is returned wrapped, and on a loaded document the lookup goes on
    against that document with the fragment. *)
Theorem resolveComponent_external_reference fuel swagger ref prefix w :
  HasPrefix ref "#" = false ->
  (IsExternalRefsAllowed w = false ->
     resolveComponent (S fuel) swagger ref prefix w
     = (Fail (Err (errNonAllowedExternalRef ref)), w))
  /\ (IsExternalRefsAllowed w = true ->
      forall parsedURL, url_Parse ref = Some parsedURL ->
        let locator := URL_clearFragment parsedURL in
        snd (resolveComponent (S fuel) swagger ref prefix w)
        = snd (LoadSwaggerFromURI fuel locator w)
        /\ (forall err w', LoadSwaggerFromURI fuel locator w = (Fail (Err err), w') ->
              resolveComponent (S fuel) swagger ref prefix w
              = (Fail (Err (errWhileResolvingReference ref err)), w'))
        /\ (forall doc w', LoadSwaggerFromURI fuel locator w = (Ok doc, w') ->
              resolveComponent (S fuel) swagger ref prefix w
              = (locateIn doc (Fragment parsedURL) prefix, w'))).
Proof.
  intros Hext. split.
  - intros Hoff. simpl. unfold bind. rewrite Hext. simpl. by rewrite Hoff.
  - intros Hon u Hparse locator. split; [|split].
    + simpl. unfold bind. rewrite Hext. simpl. rewrite Hon. simpl. rewrite Hparse.
      fold locator.
      destruct (LoadSwaggerFromURI fuel locator w) as [[doc|[e| |]] w1]; simpl;
        try reflexivity.
      destruct (HasPrefix _ prefix); simpl; [|reflexivity].
      by destruct (_ >=? 0)%Z.
    + intros err w' Hload. simpl. unfold bind. rewrite Hext. simpl. rewrite Hon.
      simpl. rewrite Hparse. fold locator. by rewrite Hload.
    + intros doc w' Hload. by apply resolveComponent_loaded.
Qed.

(** *** Running the monad *)

Lemma bind_Ok {A B} (m : M A) (f : A -> M B) w b w' :
  bind m f w = (Ok b, w') ->
  exists a w1, m w = (Ok a, w1) /\ f a w1 = (Ok b, w').
Proof.
  unfold bind. destruct (m w) as [[a|e] w1]; [eauto|discriminate].
Qed.

Lemma bind_run {A B} (m : M A) (f : A -> M B) w a w1 :
  m w = (Ok a, w1) -> bind m f w = f a w1.
Proof. unfold bind. by intros ->. Qed.

Lemma bind_Fail {A B} (m : M A) (f : A -> M B) w e :
  fst (m w) = Fail e -> fst (bind m f w) = Fail e.
Proof.
  unfold bind. destruct (m w) as [[a|e'] w1]; cbn; [discriminate|].
  by intros [= ->].
Qed.

Lemma loadRef_Ok k p w c w' :
  loadRef k p w = (Ok c, w') -> derefRef k p w = Some c /\ w' = w.
Proof.
  unfold loadRef. destruct (derefRef k p w); [|discriminate].
  intros [= -> ->]. done.
Qed.

Lemma loadFrom_Ok {A} (store : World -> gmap loc A) p w a w' :
  loadFrom store p w = (Ok a, w') ->
  exists l, p = Some l /\ store w !! l = Some a /\ w' = w.
Proof.
  unfold loadFrom. destruct p as [l|]; [|discriminate].
  destruct (store w !! l) eqn:E; [|discriminate].
  intros [= -> ->]. eauto.
Qed.

Lemma storeValue_Ok k p v w u w' :
  storeValue k p v w = (Ok u, w') ->
  exists l c, p = Some l /\ refs w !! (k, l) = Some c /\
    w' = set_refs (insert (k, l) {| Ref := Ref c; Value := v |}) w.
Proof.
  unfold storeValue. destruct p as [l|]; [|discriminate].
  destruct (refs w !! (k, l)) eqn:E; [|discriminate].
  intros [= _ <-]. eauto.
Qed.

Lemma storeContentTypeSchema_Ok p schema w u w' :
  storeContentTypeSchema p schema w = (Ok u, w') ->
  exists l c, p = Some l /\ contentTypes w !! l = Some c /\
    w' = set_contentTypes (insert l {| ContentType_Schema := schema |}) w.
Proof.
  unfold storeContentTypeSchema. destruct p as [l|]; [|discriminate].
  destruct (contentTypes w !! l) eqn:E; [|discriminate].
  intros [= _ <-]. eauto.
Qed.

Lemma nonEmpty_true s : nonEmpty s = true <-> s <> "".
Proof. destruct s; cbn; split; (done || discriminate). Qed.

Lemma nonEmpty_false s : nonEmpty s = false <-> s = "".
Proof. destruct s; cbn; split; (done || discriminate). Qed.

(** Inversion of a successful run, one monadic step after the other. *)
Tactic Notation "ok_bind" hyp(H) "as" ident(a) ident(w) ident(H1) :=
  apply bind_Ok in H; destruct H as (a & w & H1 & H).

(** With external references disabled, a successful locator call is a
    local lookup. *)
Lemma resolveComponent_Ok_disabled fuel swagger ref prefix w components id w' :
  IsExternalRefsAllowed w = false ->
  resolveComponent fuel swagger ref prefix w = (Ok (components, id), w') ->
  w' = w /\ components = Swagger_Components swagger /\
  ref = prefix ++ id /\ ~ occursIn "/" id.
Proof.
  intros Hoff H. destruct fuel as [|fuel]; [discriminate|].
  destruct (HasPrefix ref "#") eqn:Hloc.
  - rewrite resolveComponent_local in H by done.
    unfold locateIn in H.
    destruct (HasPrefix ref prefix) eqn:Hp; [|discriminate].
    destruct (0 <=? _)%Z eqn:Hs; [discriminate|].
    injection H as <- <- <-.
    apply HasPrefix_true in Hp as [t ->]. rewrite sliceFrom_app in Hs |- *.
    repeat split; try done.
    intros Hin. apply IndexByte_found in Hin. congruence.
  - simpl in H. unfold bind in H. rewrite Hloc in H. simpl in H.
    rewrite Hoff in H. discriminate.
Qed.

(** *** Steps *)

Lemma Step_refl swagger w : Step swagger w w.
Proof. split; done. Qed.

Lemma derefRef_Step_visited swagger w w' k p :
  Step swagger w w' -> (k, p) ∈ visited w -> derefRef k p w' = derefRef k p w.
Proof.
  intros HS Hin. destruct p as [l|]; [|done].
  apply (step_refs _ _ _ HS). by left.
Qed.

Lemma Resolved_Step swagger w w' k p :
  Step swagger w w' -> (k, p) ∈ visited w ->
  Resolved swagger w k p -> Resolved swagger w' k p.
Proof.
  intros HS Hin (o & Ho & Hnn & Ht). exists o. split; [|split; [done|]].
  - by rewrite (derefRef_Step_visited _ _ _ _ _ HS Hin).
  - intros Hne. destruct (Ht Hne) as (t & o' & HN & Hvt & Hot & Hv).
    exists t, o'. repeat split; try done.
    + by apply (step_visited _ _ _ HS).
    + rewrite (step_refs _ _ _ HS); [done|by left].
Qed.

Lemma Step_trans swagger w1 w2 w3 :
  Step swagger w1 w2 -> Step swagger w2 w3 -> Step swagger w1 w3.
Proof.
  intros H12 H23. split.
  - by rewrite (step_headers _ _ _ H23), (step_headers _ _ _ H12).
  - by rewrite (step_parameters _ _ _ H23), (step_parameters _ _ _ H12).
  - by rewrite (step_requestBodies _ _ _ H23), (step_requestBodies _ _ _ H12).
  - by rewrite (step_responses _ _ _ H23), (step_responses _ _ _ H12).
  - by rewrite (step_contentTypes _ _ _ H23), (step_contentTypes _ _ _ H12).
  - by rewrite (step_schemas _ _ _ H23), (step_schemas _ _ _ H12).
  - by rewrite (step_allowed _ _ _ H23), (step_allowed _ _ _ H12).
  - by rewrite (step_loaderCalls _ _ _ H23), (step_loaderCalls _ _ _ H12).
  - etrans; [apply (step_visited _ _ _ H12)|apply (step_visited _ _ _ H23)].
  - intros k l Hc.
    pose proof (step_visited _ _ _ H12) as S12.
    pose proof (step_visited _ _ _ H23) as S23.
    rewrite (step_refs _ _ _ H23), (step_refs _ _ _ H12); [done| |].
    + destruct Hc as [?|?]; [by left|right]. set_solver.
    + destruct Hc as [?|?]; [left|by right]. set_solver.
  - intros k l. by rewrite (step_Ref _ _ _ H23), (step_Ref _ _ _ H12).
  - intros k p Hin Hnot.
    destruct (decide ((k, p) ∈ visited w2)) as [Hin2|Hnot2].
    + apply (Resolved_Step _ w2); [done..|]. by apply (step_new _ _ _ H12).
    + by apply (step_new _ _ _ H23).
Qed.

Lemma Pre_Step swagger w w' : Pre w -> Step swagger w w' -> Pre w'.
Proof.
  intros [Hoff Hshape] HS. split.
  - by rewrite (step_allowed _ _ _ HS).
  - intros l o Hnot Ho Hne.
    assert ((KSchema, Some l) ∉ visited w) as Hnot0.
    { intros ?. apply Hnot. by apply (step_visited _ _ _ HS). }
    rewrite (step_refs _ _ _ HS) in Ho by (by right).
    by apply (Hshape l o).
Qed.

Lemma SameValue_refl k c w : SameValue k c w w.
Proof. intros p Hin Hnot. by destruct Hnot. Qed.

Lemma OnlySchemaKeys_refl w : OnlySchemaKeys w w.
Proof. intros k p Hin Hnot. by destruct Hnot. Qed.

Lemma OnlySchemaKeys_trans w1 w2 w3 :
  OnlySchemaKeys w1 w2 -> OnlySchemaKeys w2 w3 -> OnlySchemaKeys w1 w3.
Proof.
  intros H12 H23 k p Hin Hnot.
  destruct (decide ((k, p) ∈ visited w2)); [by apply (H12 k p)|by apply (H23 k p)].
Qed.

(** *** The resolvers are instances of the common shape *)

Ltac same_run :=
  unfold guardedWith, flattenWith, bind; simpl;
  repeat match goal with
    | |- context [match ?m ?w with _ => _ end] =>
        lazymatch type of w with World => destruct (m w) as [[?|?] ?] eqn:?; simpl end
    | |- context [if ?b then _ else _] => destruct b eqn:?; simpl
    | |- context [match ?x with Some _ => _ | None => _ end] => destruct x eqn:?; simpl
    end;
  try reflexivity.

Lemma resolveHeaderRef_shape fuel swagger c w :
  resolveHeaderRef (S fuel) swagger c w
  = guardedWith KHeader c
      (flattenWith KHeader (kindPrefix KHeader) (kindTable KHeader)
         failedToResolveRefFragment (fun ref _ => failedToResolveRefFragment ref)
         (resolveComponent fuel swagger) (resolveHeaderRef fuel swagger) c ;;;
       descendHeader (resolveSchemaRef fuel swagger) c) w.
Proof.
  simpl. unfold descendHeader. same_run.
Qed.

Lemma resolveParameterRef_shape fuel swagger c w :
  resolveParameterRef (S fuel) swagger c w
  = guardedWith KParameter c
      (flattenWith KParameter (kindPrefix KParameter) (kindTable KParameter)
         (fun ref => failedToResolveRefFragmentPart ref "parameters")
         failedToResolveRefFragmentPart
         (resolveComponent fuel swagger) (resolveParameterRef fuel swagger) c ;;;
       descendParameter (resolveSchemaRef fuel swagger) c) w.
Proof.
  simpl. unfold descendParameter. same_run.
Qed.

Lemma resolveRequestBodyRef_shape fuel swagger c w :
  resolveRequestBodyRef (S fuel) swagger c w
  = guardedWith KRequestBody c
      (flattenWith KRequestBody (kindPrefix KRequestBody) (kindTable KRequestBody)
         (fun ref => failedToResolveRefFragmentPart ref "requestBodies")
         failedToResolveRefFragmentPart
         (resolveComponent fuel swagger) (resolveRequestBodyRef fuel swagger) c ;;;
       descendRequestBody (resolveSchemaRef fuel swagger) c) w.
Proof.
  simpl. unfold descendRequestBody. same_run.
Qed.

Lemma resolveResponseRef_shape fuel swagger c w :
  resolveResponseRef (S fuel) swagger c w
  = guardedWith KResponse c
      (flattenWith KResponse (kindPrefix KResponse) (kindTable KResponse)
         (fun ref => failedToResolveRefFragmentPart ref "responses")
         failedToResolveRefFragmentPart
         (resolveComponent fuel swagger) (resolveResponseRef fuel swagger) c ;;;
       descendResponse (resolveSchemaRef fuel swagger) c) w.
Proof.
  simpl. unfold descendResponse. same_run.
Qed.

Lemma resolveSchemaRef_shape fuel swagger c w :
  resolveSchemaRef (S fuel) swagger c w
  = guardedWith KSchema c
      (flattenWith KSchema (kindPrefix KSchema) (kindTable KSchema)
         (fun ref => failedToResolveRefFragmentPart ref "schemas")
         failedToResolveRefFragmentPart
         (resolveComponent fuel swagger) (resolveSchemaRef fuel swagger) c ;;;
       descendSchema (resolveSchemaRef fuel swagger) c) w.
Proof.
  simpl. unfold descendSchema. same_run.
Qed.

Lemma resolveSecuritySchemeRef_shape fuel swagger c w :
  resolveSecuritySchemeRef (S fuel) swagger c w
  = guardedWith KSecurityScheme c
      (flattenWith KSecurityScheme (kindPrefix KSecurityScheme)
         (kindTable KSecurityScheme)
         (fun ref => failedToResolveRefFragmentPart ref "securitySchemes")
         failedToResolveRefFragmentPart
         (resolveComponent fuel swagger) (resolveSecuritySchemeRef fuel swagger) c ;;;
       ret tt) w.
Proof.
  simpl. same_run; by repeat match goal with u : unit |- _ => destruct u end.
Qed.

Lemma resolveExampleRef_shape fuel swagger c w :
  resolveExampleRef (S fuel) swagger c w
  = flattenWith KExample (kindPrefix KExample) (kindTable KExample)
      (fun ref => failedToResolveRefFragmentPart ref "examples")
      failedToResolveRefFragmentPart
      (resolveComponent fuel swagger) (resolveExampleRef fuel swagger) c w.
Proof.
  simpl. same_run.
Qed.

(** *** The flattening of a reference string *)

Lemma flattenWith_Ok k errTable errId fuel swagger self c w1 w3 :
  IsExternalRefsAllowed w1 = false ->
  flattenWith k (kindPrefix k) (kindTable k) errTable errId
    (resolveComponent fuel swagger) self c w1 = (Ok tt, w3) ->
  exists o, derefRef k c w1 = Some o /\
    ((Ref o = "" /\ w3 = w1)
     \/ (Ref o <> "" /\ exists target w2 r,
           Names swagger k (Ref o) target /\
           self (Some target) w1 = (Ok tt, w2) /\
           derefRef k (Some target) w2 = Some r /\
           storeValue k c (Value r) w2 = (Ok tt, w3))).
Proof.
  intros Hoff H. unfold flattenWith in H.
  ok_bind H as o w1' Ho. apply loadRef_Ok in Ho as [Ho ->].
  exists o. split; [done|].
  destruct (nonEmpty (Ref o)) eqn:Hne.
  - right. apply nonEmpty_true in Hne. split; [done|].
    ok_bind H as ci w1' Hloc. destruct ci as [components id]. simpl in H.
    apply resolveComponent_Ok_disabled in Hloc as (-> & -> & Href & Hflat); [|done].
    destruct (kindTable k _) as [definitions|] eqn:Htab; [|discriminate].
    destruct (mapIndex definitions id) as [target|] eqn:Hidx; [|discriminate].
    ok_bind H as u w2 Hcall. destruct u.
    ok_bind H as r w2' Hr. apply loadRef_Ok in Hr as [Hr ->].
    exists target, w2, r. repeat split; try done.
    by exists id, definitions.
  - left. apply nonEmpty_false in Hne. cbv [ret] in H. by injection H as <-.
Qed.

Lemma valueOf_Step swagger w w' k p :
  Step swagger w w' -> (k, p) ∈ visited w -> valueOf k p w' = valueOf k p w.
Proof. intros HS Hin. unfold valueOf. by rewrite (derefRef_Step_visited _ _ _ _ _ HS Hin). Qed.

Lemma Child_Step swagger w w' k v s :
  Step swagger w w' -> Child w' k v s -> Child w k v s.
Proof.
  intros HS. unfold Child.
  rewrite (step_headers _ _ _ HS), (step_parameters _ _ _ HS),
    (step_requestBodies _ _ _ HS), (step_responses _ _ _ HS),
    (step_contentTypes _ _ _ HS), (step_schemas _ _ _ HS). done.
Qed.

Lemma ChildrenVisited_Step swagger w w' k p :
  Step swagger w w' -> (k, p) ∈ visited w ->
  ChildrenVisited w k p -> ChildrenVisited w' k p.
Proof.
  intros HS Hin Hcv o s Ho Hch.
  rewrite (derefRef_Step_visited _ _ _ _ _ HS Hin) in Ho.
  apply (step_visited _ _ _ HS). apply (Hcv o s Ho).
  by apply (Child_Step swagger w w').
Qed.

Lemma Closes_refl w : Closes w w.
Proof. intros k p Hin Hnot. by destruct Hnot. Qed.

Lemma Closes_trans swagger w1 w2 w3 :
  Step swagger w2 w3 -> Closes w1 w2 -> Closes w2 w3 -> Closes w1 w3.
Proof.
  intros HS H12 H23 k p Hin Hnot.
  destruct (decide ((k, p) ∈ visited w2)) as [Hin2|Hnot2].
  - apply (ChildrenVisited_Step swagger w2); [done..|]. by apply H12.
  - by apply H23.
Qed.

(** Marking [c] visited and flattening its reference string is a step,
    provided a Schema Ref ends up with a Value. *)
Lemma mark_flatten_Step k errTable errId fuel swagger self c w w3 :
  Pre w -> (k, c) ∉ visited w ->
  ResolverSpec swagger k self ->
  flattenWith k (kindPrefix k) (kindTable k) errTable errId
    (resolveComponent fuel swagger) self c
    (set_visited (fun s => {[ (k, c) ]} ∪ s) w) = (Ok tt, w3) ->
  (k = KSchema -> exists o, derefRef k c w3 = Some o /\ Value o <> None) ->
  Step swagger w w3 /\ (k, c) ∈ visited w3 /\
  (k <> KSchema -> SameValue k c w w3) /\
  (k = KSchema -> OnlySchemaKeys w w3) /\
  (forall k' p, (k', p) ∈ visited w3 -> (k', p) ∉ visited w ->
     (k', p) <> (k, c) -> ChildrenVisited w3 k' p).
Proof.
  intros [Hoff Hshape] Hfresh Hself H Hvalue.
  set (w1 := set_visited (fun s => {[ (k, c) ]} ∪ s) w) in *.
  assert (forall x, x ∈ visited w1 <-> x = (k, c) \/ x ∈ visited w) as Hmark.
  { intros x. cbn. by rewrite elem_of_union, elem_of_singleton. }
  assert (Pre w1) as Hpre1.
  { split; [done|]. intros l o Hnot Ho Hne. apply (Hshape l o); try done.
    intros ?. apply Hnot, Hmark. by right. }
  apply flattenWith_Ok in H as (o & Ho & H); [|done].
  destruct c as [lc|]; [|discriminate]. cbn in Ho.
  destruct H as [[Hempty ->]|(Hne & target & w2 & r & HN & Hcall & Hr & Hstore)].
  - (* no reference string *)
    assert (forall k' p, (k', p) ∈ visited w1 -> (k', p) ∉ visited w ->
              (k', p) = (k, Some lc)) as Hnew.
    { intros k' p Hin Hnot. apply Hmark in Hin. by destruct Hin. }
    repeat split; try done.
    + intros x Hx. apply Hmark. by right.
    + intros k' p Hin Hnot. pose proof (Hnew _ _ Hin Hnot) as [= -> ->].
      exists o. split; [done|]. split; [|done].
      intros Hk. destruct (Hvalue Hk) as (o' & Ho' & Hv). cbn in Ho'. congruence.
    + apply Hmark. by left.
    + intros _ p Hin Hnot. pose proof (Hnew _ _ Hin Hnot) as [= ->]. done.
    + intros Hk k' p Hin Hnot. by pose proof (Hnew _ _ Hin Hnot) as [= -> ->].
    + intros k' p Hin Hnot Hneq. destruct Hneq. by apply Hnew.
  - (* a reference string: the target is resolved, its Value copied *)
    destruct (Hself _ _ _ Hpre1 Hcall) as (HS12 & Htv & Hsame & Honly & Hcl).
    apply storeValue_Ok in Hstore as (lc' & c2 & [= <-] & Hc2 & ->).
    assert ((k, Some lc) ∈ visited w1) as Hc1 by (apply Hmark; by left).
    assert (refs w2 !! (k, lc) = Some o) as Ho2.
    { rewrite (step_refs _ _ _ HS12); [done|by left]. }
    assert (c2 = o) as -> by congruence. clear Hc2.
    set (o3 := {| Ref := Ref o; Value := Value r |}).
    set (w3 := set_refs (insert (k, lc) o3) w2) in *.
    assert (forall x, x ∈ visited w1 -> x ∈ visited w2) as Hv12.
    { apply elem_of_subseteq, (step_visited _ _ _ HS12). }
    assert (forall k' l, (k', l) <> (k, lc) -> refs w3 !! (k', l) = refs w2 !! (k', l))
      as Hother.
    { intros k' l Hneq. cbn. by rewrite lookup_insert_ne. }
    assert (refs w3 !! (k, lc) = Some o3) as Ho3.
    { cbn. by rewrite lookup_insert_eq. }
    assert (Resolved swagger w3 k (Some lc)) as Hres_c.
    { exists o3. split; [done|]. split.
      - intros Hk. destruct (Hvalue Hk) as (o' & Ho' & Hv). cbn in Ho'.
        rewrite lookup_insert_eq in Ho'. by injection Ho' as <-.
      - intros _. destruct (decide (target = lc)) as [->|Hneq].
        + exists lc, o3. by repeat split.
        + exists target, r. repeat split; try done.
          rewrite Hother; [done|congruence]. }
    assert (forall k' p, (k', p) ∈ visited w2 -> (k', p) ∉ visited w1 ->
              Resolved swagger w3 k' p) as Hres_new.
    { intros k' p Hin Hnot.
      destruct (step_new _ _ _ HS12 k' p Hin Hnot) as (ox & Hox & Hnn & Ht).
      destruct p as [l|]; [|discriminate]. cbn in Hox.
      assert ((k', l) <> (k, lc)) as Hneq by (intros [= -> ->]; done).
      exists ox. split; [cbn; by rewrite lookup_insert_ne|]. split; [done|].
      intros Hrefx. destruct (Ht Hrefx) as (t' & o' & HN' & Hvt & Hot & Hv).
      destruct (decide ((k', t') = (k, lc))) as [[= -> ->]|Hneq'].
      - exists lc, o3. repeat split; try done. cbn.
        assert (o' = o) as -> by congruence.
        destruct (decide (k = KSchema)) as [Hk|Hk].
        + exfalso. apply (Hnn Hk). rewrite <- Hv. subst k. by apply (Hshape lc o).
        + specialize (Hsame Hk _ Hin Hnot). unfold valueOf in Hsame.
          cbn in Hsame. rewrite Hox in Hsame. cbn in Hr. rewrite Hr in Hsame.
          by injection Hsame as <-.
      - exists t', o'. repeat split; try done. by rewrite Hother. }
    split; [|split; [|split; [|split]]].
    + split; try (cbn; apply HS12).
      * intros x Hx. cbn. apply Hv12, Hmark. by right.
      * intros k' l Hc.
        assert ((k', l) <> (k, lc)) as Hneq.
        { intros [= -> ->]. destruct Hc as [?|Hc]; [done|]. by apply Hc, Hv12. }
        rewrite Hother by done. rewrite (step_refs _ _ _ HS12); [done|].
        destruct Hc as [?|Hc]; [left; apply Hmark; by right|by right].
      * intros k' l. destruct (decide ((k', l) = (k, lc))) as [[= -> ->]|Hneq].
        -- rewrite Ho3. by rewrite Ho.
        -- rewrite Hother by done. apply (step_Ref _ _ _ HS12).
      * intros k' p Hin Hnot. cbn in Hin.
        destruct (decide ((k', p) = (k, Some lc))) as [[= -> ->]|Hneq]; [done|].
        apply Hres_new; [done|]. intros Hin1. apply Hmark in Hin1. by destruct Hin1.
    + cbn. by apply Hv12.
    + intros Hk p Hin Hnot. cbn in Hin.
      destruct (decide (p = Some lc)) as [->|Hneq]; [done|].
      assert ((k, p) ∉ visited w1) as Hnot1.
      { intros Hin1. apply Hmark in Hin1. destruct Hin1 as [Heq|?]; [|done].
        injection Heq as ->. done. }
      pose proof (Hsame Hk _ Hin Hnot1) as Hs.
      destruct (step_new _ _ _ HS12 k p Hin Hnot1) as (ox & Hox & _).
      destruct p as [l|]; [|discriminate].
      unfold valueOf in *. cbn in *. rewrite lookup_insert_eq.
      rewrite lookup_insert_ne by congruence. by rewrite Hs, Hr.
    + intros Hk k' p Hin Hnot. cbn in Hin.
      destruct (decide ((k', p) = (k, Some lc))) as [[= -> ->]|Hneq]; [done|].
      apply (Honly Hk k' p); [done|].
      intros Hin1. apply Hmark in Hin1. by destruct Hin1.
    + intros k' p Hin Hnot Hneq o' s Ho' Hch. cbn in Hin.
      assert ((k', p) ∉ visited w1) as Hnot1.
      { intros Hin1. apply Hmark in Hin1. by destruct Hin1. }
      apply (Hcl k' p Hin Hnot1 o' s); [|exact Hch].
      destruct p as [l|]; [|discriminate]. cbn in Ho' |- *.
      rewrite lookup_insert_ne in Ho'; [done|congruence].
Qed.

(** *** The guard, and the whole of a resolver *)

Lemma guardedWith_spec k errTable errId fuel swagger self descent c w w' :
  Pre w -> ResolverSpec swagger k self ->
  (forall w3 w4, descent w3 = (Ok tt, w4) ->
     k = KSchema -> exists o, derefRef k c w3 = Some o /\ Value o <> None) ->
  (forall w3 w4, Pre w3 -> (k, c) ∈ visited w3 -> descent w3 = (Ok tt, w4) ->
     SchemaStep swagger w3 w4 /\ ChildrenVisited w4 k c) ->
  guardedWith k c
    (flattenWith k (kindPrefix k) (kindTable k) errTable errId
       (resolveComponent fuel swagger) self c ;;; descent) w = (Ok tt, w') ->
  Step swagger w w' /\ (k, c) ∈ visited w' /\
  (k <> KSchema -> SameValue k c w w') /\
  (k = KSchema -> OnlySchemaKeys w w') /\
  Closes w w'.
Proof.
  intros Hpre Hself Hvalue Hdesc H. unfold guardedWith in H.
  ok_bind H as seen w0 Hseen. cbv [isVisited] in Hseen.
  injection Hseen as <- <-.
  destruct (bool_decide_reflect ((k, c) ∈ visited w)) as [Hin|Hfresh].
  - cbv [ret] in H. injection H as <-.
    repeat split; try done.
    + intros _. apply SameValue_refl.
    + intros _. apply OnlySchemaKeys_refl.
    + apply Closes_refl.
  - ok_bind H as u w1 Hmark. cbv [markVisited] in Hmark. injection Hmark as _ <-.
    ok_bind H as u' w3 Hflat. destruct u'.
    destruct (mark_flatten_Step _ _ _ _ _ _ _ _ _ Hpre Hfresh Hself Hflat
                (Hvalue _ _ H)) as (HS & Hc & Hsame & Honly & Hcl).
    destruct (Hdesc _ _ (Pre_Step _ _ _ Hpre HS) Hc H) as [(HS' & Honly' & Hcl') Hcv].
    split; [by apply (Step_trans _ _ w3)|]. split; [|split; [|split]].
    + by apply (step_visited _ _ _ HS').
    + intros Hk p Hin Hnot.
      destruct (decide ((k, p) ∈ visited w3)) as [Hin3|Hnot3].
      * rewrite !(valueOf_Step _ _ _ _ _ HS') by done. by apply Hsame.
      * destruct Hk. by apply (Honly' k p).
    + intros Hk. apply (OnlySchemaKeys_trans _ w3); [by apply Honly|done].
    + intros k' p Hin Hnot.
      destruct (decide ((k', p) ∈ visited w3)) as [Hin3|Hnot3].
      * destruct (decide ((k', p) = (k, c))) as [[= -> ->]|Hneq]; [done|].
        apply (ChildrenVisited_Step swagger w3); [done..|]. by apply Hcl.
      * by apply Hcl'.
Qed.

(** *** Loops *)

Lemma forEach_Ok {A} (R : World -> World -> Prop) (I : World -> Prop)
    (l : list A) (f : A -> M unit) :
  (forall w, R w w) ->
  (forall w1 w2 w3, R w1 w2 -> R w2 w3 -> R w1 w3) ->
  (forall w w', I w -> R w w' -> I w') ->
  (forall x w w', x ∈ l -> I w -> f x w = (Ok tt, w') -> R w w') ->
  forall w w', I w -> forEach l f w = (Ok tt, w') ->
    R w w' /\
    forall x, x ∈ l -> exists w1 w2, R w w1 /\ I w1 /\ f x w1 = (Ok tt, w2) /\ R w2 w'.
Proof.
  intros Hrefl Htrans HI. induction l as [|x l IH]; intros Hf w w' Hw H.
  - cbv [forEach ret] in H. injection H as <-. split; [done|].
    intros x Hx. by apply elem_of_nil in Hx.
  - cbn [forEach] in H. ok_bind H as u w1 Hx. destruct u.
    assert (R w w1) as H01 by (apply (Hf x); [left|done..]).
    assert (I w1) as Hw1 by by apply (HI w).
    destruct (IH (fun y w w' Hy => Hf y w w' (list_elem_of_further _ _ _ Hy))
                w1 w' Hw1 H) as [H1' Hall].
    split; [by apply (Htrans _ w1)|].
    intros y Hy. apply elem_of_cons in Hy as [->|Hy].
    + exists w, w1. by repeat split.
    + destruct (Hall y Hy) as (wa & wb & Ha & HIa & Hb & Hc).
      exists wa, wb. repeat split; try done. by apply (Htrans _ w1).
Qed.

Lemma SchemaStep_refl swagger w : SchemaStep swagger w w.
Proof.
  split; [apply Step_refl|]. split; [apply OnlySchemaKeys_refl|apply Closes_refl].
Qed.

Lemma SchemaStep_trans swagger w1 w2 w3 :
  SchemaStep swagger w1 w2 -> SchemaStep swagger w2 w3 -> SchemaStep swagger w1 w3.
Proof.
  intros (? & ? & ?) (? & ? & ?). split; [by apply (Step_trans _ _ w2)|].
  split; [by apply (OnlySchemaKeys_trans _ w2)|by apply (Closes_trans swagger _ w2)].
Qed.

Lemma Pre_SchemaStep swagger w w' : Pre w -> SchemaStep swagger w w' -> Pre w'.
Proof. intros ? [? _]. by apply (Pre_Step swagger w). Qed.

Lemma SchemaStep_visited swagger w w' x :
  SchemaStep swagger w w' -> x ∈ visited w -> x ∈ visited w'.
Proof. intros [HS _]. apply (step_visited _ _ _ HS). Qed.

Lemma call_SchemaStep swagger resolveSchema c w w' :
  ResolverSpec swagger KSchema resolveSchema -> Pre w ->
  resolveSchema c w = (Ok tt, w') ->
  SchemaStep swagger w w' /\ (KSchema, c) ∈ visited w'.
Proof.
  intros Hspec Hpre H. destruct (Hspec _ _ _ Hpre H) as (? & ? & _ & Honly & ?).
  split; [|done]. split; [done|]. split; [by apply Honly|done].
Qed.

Lemma forRange_SchemaStep {A} swagger (m : option (gomap A)) (f : A -> M unit)
    (Q : A -> World -> Prop) :
  (forall x w w', Q x w -> SchemaStep swagger w w' -> Q x w') ->
  (forall x w w', Pre w -> f x w = (Ok tt, w') -> SchemaStep swagger w w' /\ Q x w') ->
  forall w w', Pre w -> forRange m f w = (Ok tt, w') ->
    SchemaStep swagger w w' /\
    forall entries key x, m = Some entries -> (key, x) ∈ entries -> Q x w'.
Proof.
  intros HQ Hf w w' Hpre H. destruct m as [entries|]; cbn in H.
  - eapply (forEach_Ok (SchemaStep swagger) Pre) in H as [HS Hall]; try done.
    + split; [done|]. intros ? key x [= <-] Hx.
      destruct (Hall _ Hx) as (w1 & w2 & _ & Hpre1 & Hcall & H2).
      apply (HQ x w2); [|done]. by apply (Hf x w1).
    + apply SchemaStep_refl.
    + apply SchemaStep_trans.
    + apply Pre_SchemaStep.
    + intros kv w1 w2 _ Hpre1 Hcall. by apply (Hf (snd kv)).
  - cbv [ret] in H. injection H as <-. split; [apply SchemaStep_refl|done].
Qed.

(** *** The descent into a value *)

Lemma optional_SchemaStep swagger resolveSchema (schema : ptr) w w' :
  ResolverSpec swagger KSchema resolveSchema -> Pre w ->
  match schema with
  | None => ret tt
  | Some v => resolveSchema (Some v)
  end w = (Ok tt, w') ->
  SchemaStep swagger w w' /\
  forall v, schema = Some v -> (KSchema, Some v) ∈ visited w'.
Proof.
  intros Hspec Hpre H. destruct schema as [v|].
  - destruct (call_SchemaStep _ _ _ _ _ Hspec Hpre H) as [HS Hv].
    split; [done|]. by intros ? [= <-].
  - cbv [ret] in H. injection H as <-. split; [apply SchemaStep_refl|done].
Qed.

Lemma descendHeader_spec swagger resolveSchema c w w' :
  ResolverSpec swagger KSchema resolveSchema -> Pre w ->
  (KHeader, c) ∈ visited w ->
  descendHeader resolveSchema c w = (Ok tt, w') ->
  SchemaStep swagger w w' /\ ChildrenVisited w' KHeader c.
Proof.
  intros Hspec Hpre Hc H. unfold descendHeader in H.
  ok_bind H as o w1 Ho. apply loadRef_Ok in Ho as [Ho ->].
  assert (SchemaStep swagger w w' /\
          forall lv h ls, Value o = Some lv -> headers w !! lv = Some h ->
            Header_Schema h = Some ls -> (KSchema, Some ls) ∈ visited w') as [HS Hsites].
  { destruct (Value o) as [value|].
    - ok_bind H as v w1 Hv. apply loadFrom_Ok in Hv as (l & [= <-] & Hv & ->).
      destruct (optional_SchemaStep _ _ _ _ _ Hspec Hpre H) as [HS Hvis].
      split; [done|]. intros lv h ls [= <-] Hh Hs. apply Hvis. congruence.
    - cbv [ret] in H. injection H as <-. split; [apply SchemaStep_refl|done]. }
  split; [done|]. intros o' s Ho' Hch.
  rewrite (derefRef_Step_visited _ _ _ _ _ (proj1 HS) Hc), Ho in Ho'.
  injection Ho' as <-. apply (Child_Step _ _ _ _ _ _ (proj1 HS)) in Hch.
  destruct Hch as (lv & h & ls & Hv & Hh & Hs & ->). by apply (Hsites lv h).
Qed.

Lemma descendParameter_spec swagger resolveSchema c w w' :
  ResolverSpec swagger KSchema resolveSchema -> Pre w ->
  (KParameter, c) ∈ visited w ->
  descendParameter resolveSchema c w = (Ok tt, w') ->
  SchemaStep swagger w w' /\ ChildrenVisited w' KParameter c.
Proof.
  intros Hspec Hpre Hc H. unfold descendParameter in H.
  ok_bind H as o w1 Ho. apply loadRef_Ok in Ho as [Ho ->].
  assert (SchemaStep swagger w w' /\
          forall lv h ls, Value o = Some lv -> parameters w !! lv = Some h ->
            Parameter_Schema h = Some ls -> (KSchema, Some ls) ∈ visited w') as [HS Hsites].
  { destruct (Value o) as [value|].
    - ok_bind H as v w1 Hv. apply loadFrom_Ok in Hv as (l & [= <-] & Hv & ->).
      destruct (optional_SchemaStep _ _ _ _ _ Hspec Hpre H) as [HS Hvis].
      split; [done|]. intros lv h ls [= <-] Hh Hs. apply Hvis. congruence.
    - cbv [ret] in H. injection H as <-. split; [apply SchemaStep_refl|done]. }
  split; [done|]. intros o' s Ho' Hch.
  rewrite (derefRef_Step_visited _ _ _ _ _ (proj1 HS) Hc), Ho in Ho'.
  injection Ho' as <-. apply (Child_Step _ _ _ _ _ _ (proj1 HS)) in Hch.
  destruct Hch as (lv & h & ls & Hv & Hh & Hs & ->). by apply (Hsites lv h).
Qed.

Lemma ContentVisited_SchemaStep swagger x w w' :
  ContentVisited x w -> SchemaStep swagger w w' -> ContentVisited x w'.
Proof.
  intros Hx HS lct ct ls Hl Hct Hs.
  rewrite (step_contentTypes _ _ _ (proj1 HS)) in Hct.
  apply (SchemaStep_visited _ _ _ _ HS). by apply (Hx lct ct ls).
Qed.

Lemma descendRequestBody_spec swagger resolveSchema c w w' :
  ResolverSpec swagger KSchema resolveSchema -> Pre w ->
  (KRequestBody, c) ∈ visited w ->
  descendRequestBody resolveSchema c w = (Ok tt, w') ->
  SchemaStep swagger w w' /\ ChildrenVisited w' KRequestBody c.
Proof.
  intros Hspec Hpre Hc H. unfold descendRequestBody in H.
  ok_bind H as o w1 Ho. apply loadRef_Ok in Ho as [Ho ->].
  assert (SchemaStep swagger w w' /\
          forall lv b m key contentType, Value o = Some lv ->
            requestBodies w !! lv = Some b -> RequestBody_Content b = Some m ->
            (key, contentType) ∈ m -> ContentVisited contentType w') as [HS Hsites].
  { destruct (Value o) as [value|].
    - ok_bind H as v w1 Hv. apply loadFrom_Ok in Hv as (l & [= <-] & Hv & ->).
      eapply (forRange_SchemaStep swagger _ _ ContentVisited)
        in H as [HS Hall]; [| | |done].
      + split; [done|]. intros lv b m key contentType [= <-] Hb Hm Hin.
        assert (b = v) as -> by congruence. by apply (Hall m key).
      + intros x wa wb. apply ContentVisited_SchemaStep.
      + intros contentType wa wb Hprea Hrun.
        ok_bind Hrun as ct wa' Hct. apply loadFrom_Ok in Hct as (lct & -> & Hct & ->).
        destruct (optional_SchemaStep _ _ _ _ _ Hspec Hprea Hrun) as [HSab Hvis].
        split; [done|]. intros lct' ct' ls [= <-] Hct' Hs.
        rewrite (step_contentTypes _ _ _ (proj1 HSab)) in Hct'.
        apply Hvis. congruence.
    - cbv [ret] in H. injection H as <-. split; [apply SchemaStep_refl|done]. }
  split; [done|]. intros o' s Ho' Hch.
  rewrite (derefRef_Step_visited _ _ _ _ _ (proj1 HS) Hc), Ho in Ho'.
  injection Ho' as <-.
  destruct Hch as (lv & b & m & key & lct & ct & ls & Hv & Hb & Hm & Hin & Hct & Hs & ->).
  rewrite (step_requestBodies _ _ _ (proj1 HS)) in Hb.
  by apply (Hsites lv b m key (Some lct) Hv Hb Hm Hin lct ct ls).
Qed.

(** Writing back to a content type the schema pointer it holds changes
    nothing. *)
Lemma storeContentTypeSchema_same lct ct schema w u w' :
  contentTypes w !! lct = Some ct -> ContentType_Schema ct = schema ->
  storeContentTypeSchema (Some lct) schema w = (Ok u, w') -> w' = w.
Proof.
  intros Hct Hs H. apply storeContentTypeSchema_Ok in H as (l & c' & [= <-] & _ & ->).
  destruct ct as [s]. cbn in Hs. subst s.
  destruct w. unfold set_contentTypes. cbn in *. f_equal. by apply insert_id.
Qed.

Lemma descendResponse_spec swagger resolveSchema c w w' :
  ResolverSpec swagger KSchema resolveSchema -> Pre w ->
  (KResponse, c) ∈ visited w ->
  descendResponse resolveSchema c w = (Ok tt, w') ->
  SchemaStep swagger w w' /\ ChildrenVisited w' KResponse c.
Proof.
  intros Hspec Hpre Hc H. unfold descendResponse in H.
  ok_bind H as o w1 Ho. apply loadRef_Ok in Ho as [Ho ->].
  assert (SchemaStep swagger w w' /\
          forall lv b m key contentType, Value o = Some lv ->
            responses w !! lv = Some b -> Response_Content b = Some m ->
            (key, contentType) ∈ m -> ContentVisited contentType w') as [HS Hsites].
  { destruct (Value o) as [value|].
    - ok_bind H as v w1 Hv. apply loadFrom_Ok in Hv as (l & [= <-] & Hv & ->).
      eapply (forRange_SchemaStep swagger _ _ ContentVisited)
        in H as [HS Hall]; [| | |done].
      + split; [done|]. intros lv b m key contentType [= <-] Hb Hm Hin.
        assert (b = v) as -> by congruence. by apply (Hall m key).
      + intros x wa wb. apply ContentVisited_SchemaStep.
      + intros contentType wa wb Hprea Hrun.
        destruct contentType as [lct|].
        * ok_bind Hrun as ct wa' Hct.
          apply loadFrom_Ok in Hct as (lct' & [= <-] & Hct & ->).
          destruct (ContentType_Schema ct) as [schema|] eqn:Hs.
          -- ok_bind Hrun as u wc Hcall. destruct u.
             destruct (call_SchemaStep _ _ _ _ _ Hspec Hprea Hcall) as [HSac Hvis].
             assert (contentTypes wc !! lct = Some ct) as Hct'.
             { by rewrite (step_contentTypes _ _ _ (proj1 HSac)). }
             rewrite (storeContentTypeSchema_same _ _ _ _ _ _ Hct' Hs Hrun).
             split; [done|]. intros lct' ct' ls [= <-] Hct'' Hs'.
             assert (ct' = ct) as -> by congruence.
             assert (ls = schema) as -> by congruence. done.
          -- cbv [ret] in Hrun. injection Hrun as <-.
             split; [apply SchemaStep_refl|]. intros lct' ct' ls [= <-] Hct' Hs'.
             congruence.
        * cbv [ret] in Hrun. injection Hrun as <-.
          split; [apply SchemaStep_refl|]. by intros lct' ct' ls [=].
    - cbv [ret] in H. injection H as <-. split; [apply SchemaStep_refl|done]. }
  split; [done|]. intros o' s Ho' Hch.
  rewrite (derefRef_Step_visited _ _ _ _ _ (proj1 HS) Hc), Ho in Ho'.
  injection Ho' as <-.
  destruct Hch as (lv & b & m & key & lct & ct & ls & Hv & Hb & Hm & Hin & Hct & Hs & ->).
  rewrite (step_responses _ _ _ (proj1 HS)) in Hb.
  by apply (Hsites lv b m key (Some lct) Hv Hb Hm Hin lct ct ls).
Qed.

Lemma descendSchema_value resolveSchema c w w' :
  descendSchema resolveSchema c w = (Ok tt, w') ->
  exists o, derefRef KSchema c w = Some o /\ Value o <> None.
Proof.
  intros H. unfold descendSchema in H.
  ok_bind H as o w1 Ho. apply loadRef_Ok in Ho as [Ho ->].
  ok_bind H as v w1 Hv. apply loadFrom_Ok in Hv as (l & Hl & _ & ->).
  exists o. by rewrite Hl.
Qed.

Lemma descendSchema_spec swagger resolveSchema c w w' :
  ResolverSpec swagger KSchema resolveSchema -> Pre w ->
  (KSchema, c) ∈ visited w ->
  descendSchema resolveSchema c w = (Ok tt, w') ->
  SchemaStep swagger w w' /\ ChildrenVisited w' KSchema c.
Proof.
  intros Hspec Hpre Hc H. unfold descendSchema in H.
  ok_bind H as o w1 Ho. apply loadRef_Ok in Ho as [Ho ->].
  ok_bind H as v w1 Hv. apply loadFrom_Ok in Hv as (l & Hl & Hv & ->).
  ok_bind H as u wa Hitems. destruct u.
  ok_bind H as u wb Hprops. destruct u.
  destruct (optional_SchemaStep _ _ _ _ _ Hspec Hpre Hitems) as [Ha Hia].
  pose proof (Pre_SchemaStep _ _ _ Hpre Ha) as Hprea.
  eapply (forRange_SchemaStep swagger _ _ (fun x w1 => (KSchema, x) ∈ visited w1))
    in Hprops as [Hb Hpb]; [| | |done].
  2:{ intros x w1 w2 Hx HS12. by apply (SchemaStep_visited _ _ _ _ HS12). }
  2:{ intros x w1 w2 Hpre1. by apply call_SchemaStep. }
  pose proof (Pre_SchemaStep _ _ _ Hprea Hb) as Hpreb.
  destruct (optional_SchemaStep _ _ _ _ _ Hspec Hpreb H) as [Hcc Hic].
  assert (SchemaStep swagger w w') as HS.
  { apply (SchemaStep_trans _ _ wa); [done|]. by apply (SchemaStep_trans _ _ wb). }
  split; [done|]. intros o' s Ho' Hch.
  rewrite (derefRef_Step_visited _ _ _ _ _ (proj1 HS) Hc), Ho in Ho'.
  injection Ho' as <-.
  destruct Hch as (lv & sch & Hlv & Hsch & Hsite).
  rewrite (step_schemas _ _ _ (proj1 HS)) in Hsch.
  assert (sch = v) as -> by congruence.
  destruct Hsite as [(ls & Hi & ->)|[(m & key & Hm & Hin)|(ls & Hi & ->)]].
  - apply (SchemaStep_visited _ _ _ _ Hcc), (SchemaStep_visited _ _ _ _ Hb).
    by apply Hia.
  - apply (SchemaStep_visited _ _ _ _ Hcc). by apply (Hpb m key).
  - by apply Hic.
Qed.

(** *** The six guarded resolvers meet their specification *)

Lemma resolveSchemaRef_spec fuel swagger :
  ResolverSpec swagger KSchema (resolveSchemaRef fuel swagger).
Proof.
  induction fuel as [|fuel IH]; intros c w w' Hpre H; [discriminate|].
  rewrite resolveSchemaRef_shape in H.
  eapply guardedWith_spec in H; try done.
  - intros w3 w4 Hd _. by apply descendSchema_value in Hd.
  - intros w3 w4 Hpre3 Hc Hd. exact (descendSchema_spec _ _ c _ _ IH Hpre3 Hc Hd).
Qed.

Lemma resolveHeaderRef_spec fuel swagger :
  ResolverSpec swagger KHeader (resolveHeaderRef fuel swagger).
Proof.
  induction fuel as [|fuel IH]; intros c w w' Hpre H; [discriminate|].
  rewrite resolveHeaderRef_shape in H.
  eapply guardedWith_spec in H; try done.
  intros w3 w4 Hpre3 Hc Hd.
  exact (descendHeader_spec _ _ c _ _ (resolveSchemaRef_spec fuel swagger) Hpre3 Hc Hd).
Qed.

Lemma resolveParameterRef_spec fuel swagger :
  ResolverSpec swagger KParameter (resolveParameterRef fuel swagger).
Proof.
  induction fuel as [|fuel IH]; intros c w w' Hpre H; [discriminate|].
  rewrite resolveParameterRef_shape in H.
  eapply guardedWith_spec in H; try done.
  intros w3 w4 Hpre3 Hc Hd.
  exact (descendParameter_spec _ _ c _ _ (resolveSchemaRef_spec fuel swagger) Hpre3 Hc Hd).
Qed.

Lemma resolveRequestBodyRef_spec fuel swagger :
  ResolverSpec swagger KRequestBody (resolveRequestBodyRef fuel swagger).
Proof.
  induction fuel as [|fuel IH]; intros c w w' Hpre H; [discriminate|].
  rewrite resolveRequestBodyRef_shape in H.
  eapply guardedWith_spec in H; try done.
  intros w3 w4 Hpre3 Hc Hd.
  exact (descendRequestBody_spec _ _ c _ _ (resolveSchemaRef_spec fuel swagger) Hpre3 Hc Hd).
Qed.

Lemma resolveResponseRef_spec fuel swagger :
  ResolverSpec swagger KResponse (resolveResponseRef fuel swagger).
Proof.
  induction fuel as [|fuel IH]; intros c w w' Hpre H; [discriminate|].
  rewrite resolveResponseRef_shape in H.
  eapply guardedWith_spec in H; try done.
  intros w3 w4 Hpre3 Hc Hd.
  exact (descendResponse_spec _ _ c _ _ (resolveSchemaRef_spec fuel swagger) Hpre3 Hc Hd).
Qed.

Lemma resolveSecuritySchemeRef_spec fuel swagger :
  ResolverSpec swagger KSecurityScheme (resolveSecuritySchemeRef fuel swagger).
Proof.
  induction fuel as [|fuel IH]; intros c w w' Hpre H; [discriminate|].
  rewrite resolveSecuritySchemeRef_shape in H.
  eapply guardedWith_spec in H; try done.
  intros w3 w4 _ _. cbv [ret]. intros [= <-].
  split; [apply SchemaStep_refl|]. by intros o s _ [].
Qed.

(** *** The top-level walk *)

Lemma WalkStep_refl swagger w : WalkStep swagger w w.
Proof. split; [apply Step_refl|apply Closes_refl]. Qed.

Lemma WalkStep_trans swagger w1 w2 w3 :
  WalkStep swagger w1 w2 -> WalkStep swagger w2 w3 -> WalkStep swagger w1 w3.
Proof.
  intros [? ?] [? ?]. split; [by apply (Step_trans _ _ w2)|].
  by apply (Closes_trans swagger _ w2).
Qed.

Lemma Pre_WalkStep swagger w w' : Pre w -> WalkStep swagger w w' -> Pre w'.
Proof. intros ? [? _]. by apply (Pre_Step swagger w). Qed.

Lemma WalkStep_visited swagger w w' x :
  WalkStep swagger w w' -> x ∈ visited w -> x ∈ visited w'.
Proof. intros [HS _]. apply (step_visited _ _ _ HS). Qed.

Lemma call_WalkStep swagger k self c w w' :
  ResolverSpec swagger k self -> Pre w -> self c w = (Ok tt, w') ->
  WalkStep swagger w w' /\ (k, c) ∈ visited w'.
Proof.
  intros Hspec Hpre H. destruct (Hspec _ _ _ Hpre H) as (? & ? & _ & _ & ?).
  by split.
Qed.

Lemma forEach_WalkStep {A} swagger (l : list A) (f : A -> M unit)
    (Q : A -> World -> Prop) :
  (forall x w w', Q x w -> WalkStep swagger w w' -> Q x w') ->
  (forall x w w', Pre w -> f x w = (Ok tt, w') -> WalkStep swagger w w' /\ Q x w') ->
  forall w w', Pre w -> forEach l f w = (Ok tt, w') ->
    WalkStep swagger w w' /\ forall x, x ∈ l -> Q x w'.
Proof.
  intros HQ Hf w w' Hpre H.
  eapply (forEach_Ok (WalkStep swagger) Pre) in H as [HS Hall]; try done.
  - split; [done|]. intros x Hx.
    destruct (Hall _ Hx) as (w1 & w2 & _ & Hpre1 & Hcall & H2).
    apply (HQ x w2); [|done]. by apply (Hf x w1).
  - apply WalkStep_refl.
  - apply WalkStep_trans.
  - apply Pre_WalkStep.
  - intros x w1 w2 _ Hpre1 Hcall. by apply (Hf x).
Qed.

Lemma forRange_WalkStep {A} swagger (m : option (gomap A)) (f : A -> M unit)
    (Q : A -> World -> Prop) :
  (forall x w w', Q x w -> WalkStep swagger w w' -> Q x w') ->
  (forall x w w', Pre w -> f x w = (Ok tt, w') -> WalkStep swagger w w' /\ Q x w') ->
  forall w w', Pre w -> forRange m f w = (Ok tt, w') ->
    WalkStep swagger w w' /\
    forall entries key x, m = Some entries -> (key, x) ∈ entries -> Q x w'.
Proof.
  intros HQ Hf w w' Hpre H. destruct m as [entries|]; cbn in H.
  - eapply (forEach_WalkStep swagger _ _ (fun kv => Q (snd kv))) in H as [HS Hall];
      try done.
    + split; [done|]. intros ? key x [= <-] Hx. apply (Hall _ Hx).
    + intros kv. apply HQ.
    + intros kv. apply Hf.
  - cbv [ret] in H. injection H as <-. split; [apply WalkStep_refl|done].
Qed.

Lemma table_WalkStep swagger k self (m : option (gomap ptr)) w w' :
  ResolverSpec swagger k self -> Pre w ->
  forRange m (fun component => self component) w = (Ok tt, w') ->
  WalkStep swagger w w' /\
  forall entries key p, m = Some entries -> (key, p) ∈ entries ->
    (k, p) ∈ visited w'.
Proof.
  intros Hspec. apply (forRange_WalkStep swagger m _ (fun p w => (k, p) ∈ visited w)).
  - intros x w1 w2 Hx HS. by apply (WalkStep_visited _ _ _ _ HS).
  - intros x w1 w2. by apply call_WalkStep.
Qed.

Lemma OperationVisited_WalkStep swagger operation w w' :
  OperationVisited operation w -> WalkStep swagger w w' ->
  OperationVisited operation w'.
Proof.
  intros (Hp & Hb & Hr) HS. split; [|split].
  - intros ps p ? ?. apply (WalkStep_visited _ _ _ _ HS). by apply (Hp ps).
  - intros l ?. apply (WalkStep_visited _ _ _ _ HS). by apply Hb.
  - intros m key p ? ?. apply (WalkStep_visited _ _ _ _ HS). by apply (Hr m key).
Qed.

Lemma operation_WalkStep fuel swagger operation w w' :
  Pre w ->
  (match Operation_Parameters operation with
   | None => ret tt
   | Some parameters =>
       forEach parameters (fun parameter =>
         resolveParameterRef fuel swagger parameter)
   end ;;;
   match Operation_RequestBody operation with
   | None => ret tt
   | Some requestBody => resolveRequestBodyRef fuel swagger (Some requestBody)
   end ;;;
   forRange (Operation_Responses operation)
     (fun response => resolveResponseRef fuel swagger response)) w = (Ok tt, w') ->
  WalkStep swagger w w' /\ OperationVisited operation w'.
Proof.
  intros Hpre H.
  ok_bind H as u wa Hparams. destruct u.
  ok_bind H as u wb Hbody. destruct u.
  assert (WalkStep swagger w wa /\
          forall parameters p, Operation_Parameters operation = Some parameters ->
            p ∈ parameters -> (KParameter, p) ∈ visited wa) as [Ha Hpa].
  { destruct (Operation_Parameters operation) as [parameters|].
    - eapply (forEach_WalkStep swagger _ _ (fun p w => (KParameter, p) ∈ visited w))
        in Hparams as [HS Hall]; [| | |done].
      + split; [done|]. by intros ? p [= <-] Hin; apply Hall.
      + intros x w1 w2 Hx HS. by apply (WalkStep_visited _ _ _ _ HS).
      + intros x w1 w2. apply call_WalkStep, resolveParameterRef_spec.
    - cbv [ret] in Hparams. injection Hparams as <-.
      split; [apply WalkStep_refl|done]. }
  pose proof (Pre_WalkStep _ _ _ Hpre Ha) as Hprea.
  assert (WalkStep swagger wa wb /\
          forall l, Operation_RequestBody operation = Some l ->
            (KRequestBody, Some l) ∈ visited wb) as [Hb Hpb].
  { destruct (Operation_RequestBody operation) as [requestBody|].
    - destruct (call_WalkStep _ _ _ _ _ _
                  (resolveRequestBodyRef_spec fuel swagger) Hprea Hbody) as [HS Hv].
      split; [done|]. by intros ? [= <-].
    - cbv [ret] in Hbody. injection Hbody as <-.
      split; [apply WalkStep_refl|done]. }
  pose proof (Pre_WalkStep _ _ _ Hprea Hb) as Hpreb.
  destruct (table_WalkStep _ _ _ _ _ _
              (resolveResponseRef_spec fuel swagger) Hpreb H) as [Hc Hpc].
  split.
  - apply (WalkStep_trans _ _ wa); [done|]. by apply (WalkStep_trans _ _ wb).
  - split; [|split].
    + intros ps p ? ?. apply (WalkStep_visited _ _ _ _ Hc),
        (WalkStep_visited _ _ _ _ Hb). by apply (Hpa ps).
    + intros l ?. apply (WalkStep_visited _ _ _ _ Hc). by apply Hpb.
    + intros m key p ? ?. by apply (Hpc m key).
Qed.

Lemma Names_functional swagger k ref t1 t2 :
  Names swagger k ref t1 -> Names swagger k ref t2 -> t1 = t2.
Proof.
  intros (id1 & m1 & -> & _ & Hm1 & Hi1) (id2 & m2 & Heq & _ & Hm2 & Hi2).
  assert (id1 = id2) as ->.
  { revert Heq. generalize (kindPrefix k). intros pre.
    induction pre as [|a pre IH]; [done|].
    rewrite !append_cons. intros [= ?]. by apply IH. }
  congruence.
Qed.

Lemma ResolveRefsIn_walk fuel swagger w w' :
  IsExternalRefsAllowed w = false ->
  (forall l o, refs w !! (KSchema, l) = Some o -> Ref o <> "" -> Value o = None) ->
  ResolveRefsIn fuel swagger w = (Ok tt, w') ->
  WalkStep swagger (set_visited (fun _ => ∅) w) w' /\
  forall k p, Root swagger k p -> (k, p) ∈ visited w'.
Proof.
  intros Hoff Hshape H. destruct fuel as [|fuel]; [discriminate|].
  simpl in H.
  ok_bind H as u w0 Hreset. destruct u. injection Hreset as <-.
  set (w0 := set_visited (fun _ => ∅) w) in *.
  assert (Pre w0) as Hpre0.
  { split; [done|]. intros l o _. apply Hshape. }
  ok_bind H as u w1 H1. destruct u.
  ok_bind H as u w2 H2. destruct u.
  ok_bind H as u w3 H3. destruct u.
  ok_bind H as u w4 H4. destruct u.
  ok_bind H as u w5 H5. destruct u.
  ok_bind H as u w6 H6. destruct u.
  destruct (table_WalkStep _ _ _ _ _ _ (resolveHeaderRef_spec fuel swagger) Hpre0 H1)
    as [S1 V1].
  pose proof (Pre_WalkStep _ _ _ Hpre0 S1) as Hpre1.
  destruct (table_WalkStep _ _ _ _ _ _ (resolveParameterRef_spec fuel swagger) Hpre1 H2)
    as [S2 V2].
  pose proof (Pre_WalkStep _ _ _ Hpre1 S2) as Hpre2.
  destruct (table_WalkStep _ _ _ _ _ _ (resolveRequestBodyRef_spec fuel swagger) Hpre2 H3)
    as [S3 V3].
  pose proof (Pre_WalkStep _ _ _ Hpre2 S3) as Hpre3.
  destruct (table_WalkStep _ _ _ _ _ _ (resolveResponseRef_spec fuel swagger) Hpre3 H4)
    as [S4 V4].
  pose proof (Pre_WalkStep _ _ _ Hpre3 S4) as Hpre4.
  destruct (table_WalkStep _ _ _ _ _ _ (resolveSchemaRef_spec fuel swagger) Hpre4 H5)
    as [S5 V5].
  pose proof (Pre_WalkStep _ _ _ Hpre4 S5) as Hpre5.
  destruct (table_WalkStep _ _ _ _ _ _ (resolveSecuritySchemeRef_spec fuel swagger) Hpre5 H6)
    as [S6 V6].
  pose proof (Pre_WalkStep _ _ _ Hpre5 S6) as Hpre6.
  eapply (forRange_WalkStep swagger _ _ PathItemVisited) in H as [S7 V7]; [| | |done].
  2:{ intros x wa wb Hx HS item method operation Hi Hin.
      apply (OperationVisited_WalkStep swagger _ wa); [|done]. by apply (Hx item method). }
  2:{ intros pathItem wa wb Hprea Hrun. destruct pathItem as [item|].
      - eapply (forEach_WalkStep swagger _ _ (fun kv => OperationVisited (snd kv)))
          in Hrun as [HS Hall]; [| | |done].
        + split; [done|]. intros item' method operation [= <-] Hin.
          apply (Hall _ Hin).
        + intros kv. apply OperationVisited_WalkStep.
        + intros kv wc wd Hprec. apply operation_WalkStep. done.
      - cbv [ret] in Hrun. injection Hrun as <-.
        split; [apply WalkStep_refl|]. by intros item method operation [=]. }
  assert (WalkStep swagger w6 w') as S67 by done.
  assert (WalkStep swagger w5 w') as S57 by by apply (WalkStep_trans _ _ w6).
  assert (WalkStep swagger w4 w') as S47 by by apply (WalkStep_trans _ _ w5).
  assert (WalkStep swagger w3 w') as S37 by by apply (WalkStep_trans _ _ w4).
  assert (WalkStep swagger w2 w') as S27 by by apply (WalkStep_trans _ _ w3).
  assert (WalkStep swagger w1 w') as S17 by by apply (WalkStep_trans _ _ w2).
  split; [by apply (WalkStep_trans _ _ w1)|].
  intros k p HR.
  destruct HR as [k m key p Hk Hm Hin
                 |paths path item method operation parameters p Hpaths Hitem Hop Hps Hin
                 |paths path item method operation l Hpaths Hitem Hop Hbody
                 |paths path item method operation m key p Hpaths Hitem Hop Hm Hin].
  - destruct k; cbn in Hm.
    + apply (WalkStep_visited _ _ _ _ S17). by apply (V1 m key).
    + apply (WalkStep_visited _ _ _ _ S27). by apply (V2 m key).
    + apply (WalkStep_visited _ _ _ _ S37). by apply (V3 m key).
    + apply (WalkStep_visited _ _ _ _ S47). by apply (V4 m key).
    + apply (WalkStep_visited _ _ _ _ S57). by apply (V5 m key).
    + apply (WalkStep_visited _ _ _ _ S67). by apply (V6 m key).
    + done.
  - destruct (V7 paths path (Some item) Hpaths Hitem item method operation eq_refl Hop)
      as (Hp & _ & _). by apply (Hp parameters).
  - destruct (V7 paths path (Some item) Hpaths Hitem item method operation eq_refl Hop)
      as (_ & Hb & _). by apply Hb.
  - destruct (V7 paths path (Some item) Hpaths Hitem item method operation eq_refl Hop)
      as (_ & _ & Hr). by apply (Hr m key).
Qed.

(** C1 (amended). External references disabled, and no Schema Ref of the
    document carrying both a reference string and a Value: when
    [ResolveRefsIn] returns no error, every Ref reachable from the six
    tables the walk ranges over (Headers, Parameters, RequestBodies,
    Responses, Schemas, SecuritySchemes) and from the operations, through
    reference strings and through the nested schema sites of the values, is
    a valid Ref; if it is a Schema Ref its Value is non-null; its reference
    string, if any, names an entry of the table of its kind; and every Ref
    found by following reference strings from it, through any number of
    hops, holds exactly its Value.  (The Value of a Ref of another kind may
    be null.) *)
Theorem ResolveRefsIn_flattens_reachable_refs fuel swagger w w' :
  IsExternalRefsAllowed w = false ->
  (forall l o, refs w !! (KSchema, l) = Some o -> Ref o <> "" -> Value o = None) ->
  ResolveRefsIn fuel swagger w = (Ok tt, w') ->
  forall k p, Reach swagger w' k p ->
    exists o, derefRef k p w' = Some o /\
      (k = KSchema -> Value o <> None) /\
      (Ref o <> "" -> exists target, Names swagger k (Ref o) target) /\
      (forall l l', p = Some l -> Hops swagger w' k l l' ->
         valueOf k (Some l') w' = Some (Value o)).
Proof.
  intros Hoff Hshape H.
  destruct (ResolveRefsIn_walk _ _ _ _ Hoff Hshape H) as [[HS Hcl] Hroots].
  assert (forall k p, (k, p) ∈ visited w' -> Resolved swagger w' k p) as Hres.
  { intros k p Hin. apply (step_new _ _ _ HS); [done|]. apply not_elem_of_empty. }
  assert (forall k p, (k, p) ∈ visited w' -> ChildrenVisited w' k p) as Hcv.
  { intros k p Hin. apply Hcl; [done|]. apply not_elem_of_empty. }
  assert (forall k p, Reach swagger w' k p -> (k, p) ∈ visited w') as Hreach.
  { intros k p HR. induction HR as [k p Hroot|k l o target _ IH Ho Hne HN
                                   |k p o s _ IH Ho Hch].
    - by apply Hroots.
    - destruct (Hres _ _ IH) as (o' & Ho' & _ & Ht). cbn in Ho'.
      assert (o' = o) as -> by congruence.
      destruct (Ht Hne) as (t & _ & HN' & Hvt & _).
      by assert (target = t) as -> by apply (Names_functional _ _ _ _ _ HN HN').
    - by apply (Hcv _ _ IH o s). }
  assert (forall k l l', Hops swagger w' k l l' -> (k, Some l) ∈ visited w' ->
            valueOf k (Some l') w' = valueOf k (Some l) w') as Hhops.
  { intros k l l' Hh. induction Hh as [l|l o target l' Ho Hne HN _ IH]; [done|].
    intros Hin. destruct (Hres _ _ Hin) as (o' & Ho' & _ & Ht). cbn in Ho'.
    assert (o' = o) as -> by congruence.
    destruct (Ht Hne) as (t & ot & HN' & Hvt & Hot & Hv).
    assert (target = t) as -> by apply (Names_functional _ _ _ _ _ HN HN').
    rewrite (IH Hvt). unfold valueOf. cbn. rewrite Hot, Ho. cbn. by rewrite Hv. }
  intros k p HR. pose proof (Hreach _ _ HR) as Hin.
  destruct (Hres _ _ Hin) as (o & Ho & Hnn & Ht).
  exists o. split; [done|]. split; [done|]. split.
  - intros Hne. destruct (Ht Hne) as (t & _ & HN & _). by exists t.
  - intros l l' -> Hh. rewrite (Hhops _ _ _ Hh Hin). unfold valueOf. by rewrite Ho.
Qed.

(** *** Documents without reference strings: the walk returns and writes
    nothing *)

Lemma Visits_refl w : Visits w w.
Proof. by repeat split. Qed.

Lemma Visits_trans w1 w2 w3 : Visits w1 w2 -> Visits w2 w3 -> Visits w1 w3.
Proof.
  intros [(? & ? & ? & ? & ? & ? & ? & ? & ?) ?]
         [(? & ? & ? & ? & ? & ? & ? & ? & ?) ?].
  split; [|by etrans]. repeat split; congruence.
Qed.

Lemma RefFree_Visits w w' D : RefFree w D -> Visits w w' -> RefFree w' D.
Proof.
  intros HD [(Hr & Hh & Hp & Hb & Hs & Hc & Hsch & _) _] k l Hin.
  destruct (HD k l Hin) as (o & Ho & Hempty & Hwf).
  exists o. rewrite Hr. split; [done|]. split; [done|].
  unfold WfValue, WfContent in *. by rewrite Hh, Hp, Hb, Hs, Hc, Hsch.
Qed.

Lemma pending_mono D w w' : visited w ⊆ visited w' -> pending D w' <= pending D w.
Proof.
  intros Hsub. unfold pending. apply subseteq_size.
  intros x. rewrite !elem_of_filter. intros [Hnot Hx]. split; [|done].
  intros Hin. by apply Hnot, Hsub.
Qed.

Lemma pending_mark D k l w :
  (k, l) ∈ D -> (k, Some l) ∉ visited w ->
  pending D (set_visited (fun s => {[ (k, Some l) ]} ∪ s) w) < pending D w.
Proof.
  intros Hin Hnot. unfold pending. apply subset_size. split.
  - intros x. rewrite !elem_of_filter. cbn. intros [Hx ?]. split; [|done].
    intros ?. apply Hx, elem_of_union. by right.
  - intros Hsub. specialize (Hsub (k, l)). rewrite !elem_of_filter in Hsub.
    cbn in Hsub. destruct Hsub as [Hsub _]; [done|].
    apply Hsub, elem_of_union. left. by apply elem_of_singleton.
Qed.

Lemma loadRef_run k p w o : derefRef k p w = Some o -> loadRef k p w = (Ok o, w).
Proof. unfold loadRef. by intros ->. Qed.

Lemma loadFrom_run {A} (store : World -> gmap loc A) l w a :
  store w !! l = Some a -> loadFrom store (Some l) w = (Ok a, w).
Proof. unfold loadFrom. by intros ->. Qed.

Lemma storeContentTypeSchema_run lct ct w :
  contentTypes w !! lct = Some ct ->
  storeContentTypeSchema (Some lct) (ContentType_Schema ct) w = (Ok tt, w).
Proof.
  intros Hct. unfold storeContentTypeSchema. rewrite Hct. f_equal.
  destruct ct as [s]. destruct w. unfold set_contentTypes. cbn in *.
  f_equal. by apply insert_id.
Qed.

Lemma forEach_total {A} (G : World -> Prop) (l : list A) (f : A -> M unit) :
  (forall w w', G w -> Visits w w' -> G w') ->
  (forall x w, x ∈ l -> G w -> exists w', f x w = (Ok tt, w') /\ Visits w w') ->
  forall w, G w -> exists w', forEach l f w = (Ok tt, w') /\ Visits w w'.
Proof.
  intros HG. induction l as [|x l IH]; intros Hf w Hw.
  - exists w. split; [done|apply Visits_refl].
  - destruct (Hf x w) as (w1 & Hx & H01); [left|done|].
    destruct (IH (fun y w Hy => Hf y w (list_elem_of_further _ _ _ Hy)) w1)
      as (w' & Hl & H1'); [by apply (HG w)|].
    exists w'. split; [|by apply (Visits_trans _ w1)].
    cbn [forEach]. by rewrite (bind_run _ _ _ _ _ Hx).
Qed.

Lemma forRange_total {A} (G : World -> Prop) (m : option (gomap A)) (f : A -> M unit) :
  (forall w w', G w -> Visits w w' -> G w') ->
  (forall entries key x w, m = Some entries -> (key, x) ∈ entries -> G w ->
     exists w', f x w = (Ok tt, w') /\ Visits w w') ->
  forall w, G w -> exists w', forRange m f w = (Ok tt, w') /\ Visits w w'.
Proof.
  intros HG Hf w Hw. destruct m as [entries|]; cbn.
  - apply (forEach_total G); try done.
    intros [key x] w1 Hin. by apply (Hf entries key).
  - exists w. split; [done|apply Visits_refl].
Qed.

Lemma Safe_Visits D n w w' : Safe D n w -> Visits w w' -> Safe D n w'.
Proof.
  intros [HD Hn] HV. split; [by apply (RefFree_Visits w)|].
  pose proof (pending_mono D w w' (proj2 HV)). lia.
Qed.

Lemma optional_total D n resolveSchema (schema : ptr) w :
  TotalOn D KSchema n resolveSchema -> Safe D n w ->
  OptionalRef D KSchema schema ->
  exists w',
    match schema with
    | None => ret tt
    | Some v => resolveSchema (Some v)
    end w = (Ok tt, w') /\ Visits w w'.
Proof.
  intros Htot [HD Hn] [->|(l & -> & Hin)].
  - exists w. split; [done|apply Visits_refl].
  - apply Htot; try done. by exists l.
Qed.

Lemma guardedWith_total D k prefix table errTable errId locate self descent lc w :
  RefFree w D -> (k, lc) ∈ D ->
  (forall w1, RefFree w1 D -> pending D w1 < pending D w ->
     exists w', descent w1 = (Ok tt, w') /\ Visits w1 w') ->
  exists w',
    guardedWith k (Some lc)
      (flattenWith k prefix table errTable errId locate self (Some lc) ;;; descent) w
    = (Ok tt, w') /\ Visits w w'.
Proof.
  intros HD Hin Hdesc. unfold guardedWith.
  rewrite (bind_run _ _ w _ w (eq_refl : isVisited k (Some lc) w = (_, w))).
  case_bool_decide as Hfresh.
  - exists w. split; [done|apply Visits_refl].
  - set (w1 := set_visited (fun s => {[ (k, Some lc) ]} ∪ s) w).
    rewrite (bind_run _ _ w _ w1 (eq_refl : markVisited k (Some lc) w = (_, w1))).
    assert (Visits w w1) as H01.
    { split; [by repeat split|]. apply union_subseteq_r. }
    pose proof (RefFree_Visits _ _ _ HD H01) as HD1.
    destruct (HD1 k lc Hin) as (o & Ho & Hempty & _).
    destruct (Hdesc w1 HD1 (pending_mark D k lc w Hin Hfresh)) as (w' & Hrun & H1').
    exists w'. split; [|by apply (Visits_trans _ w1)].
    rewrite (bind_run _ _ w1 tt w1); [done|].
    unfold flattenWith. rewrite (bind_run _ _ w1 o w1); [|by apply loadRef_run].
    by rewrite Hempty.
Qed.

Lemma descendHeader_total D n resolveSchema lc w :
  TotalOn D KSchema n resolveSchema -> Safe D n w -> (KHeader, lc) ∈ D ->
  exists w', descendHeader resolveSchema (Some lc) w = (Ok tt, w') /\ Visits w w'.
Proof.
  intros Htot Hsafe Hin. destruct (proj1 Hsafe _ _ Hin) as (o & Ho & _ & Hwf).
  unfold descendHeader. rewrite (bind_run _ _ w o w); [|by apply loadRef_run].
  destruct Hwf as [->|(lv & h & -> & Hh & Hs)].
  - exists w. split; [done|apply Visits_refl].
  - rewrite (bind_run _ _ w h w); [|by apply loadFrom_run].
    by apply (optional_total D n).
Qed.

Lemma descendParameter_total D n resolveSchema lc w :
  TotalOn D KSchema n resolveSchema -> Safe D n w -> (KParameter, lc) ∈ D ->
  exists w', descendParameter resolveSchema (Some lc) w = (Ok tt, w') /\ Visits w w'.
Proof.
  intros Htot Hsafe Hin. destruct (proj1 Hsafe _ _ Hin) as (o & Ho & _ & Hwf).
  unfold descendParameter. rewrite (bind_run _ _ w o w); [|by apply loadRef_run].
  destruct Hwf as [->|(lv & h & -> & Hh & Hs)].
  - exists w. split; [done|apply Visits_refl].
  - rewrite (bind_run _ _ w h w); [|by apply loadFrom_run].
    by apply (optional_total D n).
Qed.

Lemma WfContent_Visits w w' D nilAllowed content :
  WfContent w D nilAllowed content -> Visits w w' -> WfContent w' D nilAllowed content.
Proof.
  intros Hwf [(_ & _ & _ & _ & _ & Hc & _) _]. unfold WfContent in *. by rewrite Hc.
Qed.

Lemma descendRequestBody_total D n resolveSchema lc w :
  TotalOn D KSchema n resolveSchema -> Safe D n w -> (KRequestBody, lc) ∈ D ->
  exists w', descendRequestBody resolveSchema (Some lc) w = (Ok tt, w') /\ Visits w w'.
Proof.
  intros Htot Hsafe Hin. destruct (proj1 Hsafe _ _ Hin) as (o & Ho & _ & Hwf).
  unfold descendRequestBody. rewrite (bind_run _ _ w o w); [|by apply loadRef_run].
  destruct Hwf as [->|(lv & b & -> & Hb & Hcontent)].
  - exists w. split; [done|apply Visits_refl].
  - rewrite (bind_run _ _ w b w); [|by apply loadFrom_run].
    apply (forRange_total
             (fun w1 => Safe D n w1 /\ WfContent w1 D false (RequestBody_Content b)));
      [| |done].
    + intros w1 w2 [Hs1 Hc1] HV. split; [by apply (Safe_Visits D n w1)|].
      by apply (WfContent_Visits w1).
    + intros m key contentType w1 Hm Hentry [Hs1 Hc1].
      destruct (Hc1 m key contentType Hm Hentry)
        as [[[=] _]|(lct & ct & -> & Hct & Hschema)].
      rewrite (bind_run _ _ w1 ct w1); [|by apply loadFrom_run].
      by apply (optional_total D n).
Qed.

Lemma descendResponse_total D n resolveSchema lc w :
  TotalOn D KSchema n resolveSchema -> Safe D n w -> (KResponse, lc) ∈ D ->
  exists w', descendResponse resolveSchema (Some lc) w = (Ok tt, w') /\ Visits w w'.
Proof.
  intros Htot Hsafe Hin. destruct (proj1 Hsafe _ _ Hin) as (o & Ho & _ & Hwf).
  unfold descendResponse. rewrite (bind_run _ _ w o w); [|by apply loadRef_run].
  destruct Hwf as [->|(lv & b & -> & Hb & Hcontent)].
  - exists w. split; [done|apply Visits_refl].
  - rewrite (bind_run _ _ w b w); [|by apply loadFrom_run].
    apply (forRange_total
             (fun w1 => Safe D n w1 /\ WfContent w1 D true (Response_Content b)));
      [| |done].
    + intros w1 w2 [Hs1 Hc1] HV. split; [by apply (Safe_Visits D n w1)|].
      by apply (WfContent_Visits w1).
    + intros m key contentType w1 Hm Hentry [Hs1 Hc1].
      destruct (Hc1 m key contentType Hm Hentry)
        as [[_ ->]|(lct & ct & -> & Hct & Hschema)].
      * exists w1. split; [done|apply Visits_refl].
      * rewrite (bind_run _ _ w1 ct w1); [|by apply loadFrom_run].
        destruct (ContentType_Schema ct) as [schema|] eqn:Hs.
        -- destruct Hschema as [[=]|(l & [= <-] & Hl)].
           destruct (Htot (Some schema) w1) as (w2 & Hrun & HV);
             [apply Hs1|by exists schema|apply Hs1|].
           exists w2. split; [|done].
           rewrite (bind_run _ _ w1 tt w2 Hrun). rewrite <- Hs.
           apply storeContentTypeSchema_run.
           destruct HV as [(_ & _ & _ & _ & _ & Hc & _) _]. by rewrite Hc.
        -- exists w1. split; [done|apply Visits_refl].
Qed.

Lemma descendSchema_total D n resolveSchema lc w :
  TotalOn D KSchema n resolveSchema -> Safe D n w -> (KSchema, lc) ∈ D ->
  exists w', descendSchema resolveSchema (Some lc) w = (Ok tt, w') /\ Visits w w'.
Proof.
  intros Htot Hsafe Hin.
  destruct (proj1 Hsafe _ _ Hin) as (o & Ho & _ & lv & sch & Hv & Hsch & Hi & Hp & Ha).
  unfold descendSchema. rewrite (bind_run _ _ w o w); [|by apply loadRef_run].
  rewrite Hv. rewrite (bind_run _ _ w sch w); [|by apply loadFrom_run].
  destruct (optional_total D n resolveSchema (Items sch) w Htot Hsafe Hi)
    as (wa & Hruna & HVa).
  rewrite (bind_run _ _ w tt wa Hruna).
  pose proof (Safe_Visits _ _ _ _ Hsafe HVa) as Hsafea.
  destruct (forRange_total (Safe D n) (Properties sch)
              (fun v => resolveSchema v) (Safe_Visits D n)) with (w := wa)
    as (wb & Hrunb & HVb); [|done|].
  { intros m key p w1 Hm Hentry [HD1 Hn1]. apply Htot; [done| |done].
    by apply (Hp m key). }
  rewrite (bind_run _ _ wa tt wb Hrunb).
  pose proof (Safe_Visits _ _ _ _ Hsafea HVb) as Hsafeb.
  destruct (optional_total D n resolveSchema (AdditionalProperties sch) wb
              Htot Hsafeb Ha) as (wc & Hrunc & HVc).
  exists wc. split; [done|].
  apply (Visits_trans _ wa); [done|]. by apply (Visits_trans _ wb).
Qed.

Lemma resolveSchemaRef_total D swagger fuel :
  TotalOn D KSchema fuel (resolveSchemaRef fuel swagger).
Proof.
  induction fuel as [|fuel IH]; intros c w HD (lc & -> & Hin) Hn; [lia|].
  rewrite resolveSchemaRef_shape. apply (guardedWith_total D); try done.
  intros w1 HD1 Hn1. apply (descendSchema_total D fuel); try done.
  split; [done|lia].
Qed.

Lemma resolveHeaderRef_total D swagger fuel :
  TotalOn D KHeader fuel (resolveHeaderRef fuel swagger).
Proof.
  destruct fuel as [|fuel]; intros c w HD (lc & -> & Hin) Hn; [lia|].
  rewrite resolveHeaderRef_shape. apply (guardedWith_total D); try done.
  intros w1 HD1 Hn1. apply (descendHeader_total D fuel); try done.
  - apply resolveSchemaRef_total.
  - split; [done|lia].
Qed.

Lemma resolveParameterRef_total D swagger fuel :
  TotalOn D KParameter fuel (resolveParameterRef fuel swagger).
Proof.
  destruct fuel as [|fuel]; intros c w HD (lc & -> & Hin) Hn; [lia|].
  rewrite resolveParameterRef_shape. apply (guardedWith_total D); try done.
  intros w1 HD1 Hn1. apply (descendParameter_total D fuel); try done.
  - apply resolveSchemaRef_total.
  - split; [done|lia].
Qed.

Lemma resolveRequestBodyRef_total D swagger fuel :
  TotalOn D KRequestBody fuel (resolveRequestBodyRef fuel swagger).
Proof.
  destruct fuel as [|fuel]; intros c w HD (lc & -> & Hin) Hn; [lia|].
  rewrite resolveRequestBodyRef_shape. apply (guardedWith_total D); try done.
  intros w1 HD1 Hn1. apply (descendRequestBody_total D fuel); try done.
  - apply resolveSchemaRef_total.
  - split; [done|lia].
Qed.

Lemma resolveResponseRef_total D swagger fuel :
  TotalOn D KResponse fuel (resolveResponseRef fuel swagger).
Proof.
  destruct fuel as [|fuel]; intros c w HD (lc & -> & Hin) Hn; [lia|].
  rewrite resolveResponseRef_shape. apply (guardedWith_total D); try done.
  intros w1 HD1 Hn1. apply (descendResponse_total D fuel); try done.
  - apply resolveSchemaRef_total.
  - split; [done|lia].
Qed.

Lemma resolveSecuritySchemeRef_total D swagger fuel :
  TotalOn D KSecurityScheme fuel (resolveSecuritySchemeRef fuel swagger).
Proof.
  destruct fuel as [|fuel]; intros c w HD (lc & -> & Hin) Hn; [lia|].
  rewrite resolveSecuritySchemeRef_shape. apply (guardedWith_total D); try done.
  intros w1 HD1 Hn1. exists w1. split; [done|apply Visits_refl].
Qed.

Lemma table_total D swagger k n self (m : option (gomap ptr)) w :
  k <> KExample -> kindTable k (Swagger_Components swagger) = m ->
  RootsIn swagger D -> TotalOn D k n self -> Safe D n w ->
  exists w', forRange m (fun component => self component) w = (Ok tt, w') /\
    Visits w w'.
Proof.
  intros Hk Hm Hroots Htot Hsafe.
  apply (forRange_total (Safe D n)); [apply Safe_Visits| |done].
  intros entries key p w1 Hentries Hin [HD1 Hn1]. apply Htot; [done| |done].
  apply Hroots. apply (Root_table _ k entries key); [done|congruence|done].
Qed.

Lemma operation_total D swagger fuel paths path item method operation w :
  RootsIn swagger D ->
  Paths swagger = Some paths -> (path, Some item) ∈ paths ->
  (method, operation) ∈ Operations item ->
  Safe D fuel w ->
  exists w',
    (match Operation_Parameters operation with
     | None => ret tt
     | Some parameters =>
         forEach parameters (fun parameter =>
           resolveParameterRef fuel swagger parameter)
     end ;;;
     match Operation_RequestBody operation with
     | None => ret tt
     | Some requestBody => resolveRequestBodyRef fuel swagger (Some requestBody)
     end ;;;
     forRange (Operation_Responses operation)
       (fun response => resolveResponseRef fuel swagger response)) w = (Ok tt, w')
    /\ Visits w w'.
Proof.
  intros Hroots Hpaths Hitem Hop Hsafe.
  assert (exists wa,
    match Operation_Parameters operation with
    | None => ret tt
    | Some parameters =>
        forEach parameters (fun parameter =>
          resolveParameterRef fuel swagger parameter)
    end w = (Ok tt, wa) /\ Visits w wa) as (wa & Hruna & HVa).
  { destruct (Operation_Parameters operation) as [parameters|] eqn:Hps.
    - apply (forEach_total (Safe D fuel)); [apply Safe_Visits| |done].
      intros p w1 Hin [HD1 Hn1].
      apply (resolveParameterRef_total D swagger fuel p w1); [done| |done].
      apply Hroots.
      by apply (Root_parameter _ paths path item method operation parameters).
    - exists w. split; [done|apply Visits_refl]. }
  rewrite (bind_run _ _ w tt wa Hruna).
  pose proof (Safe_Visits _ _ _ _ Hsafe HVa) as Hsafea.
  assert (exists wb,
    match Operation_RequestBody operation with
    | None => ret tt
    | Some requestBody => resolveRequestBodyRef fuel swagger (Some requestBody)
    end wa = (Ok tt, wb) /\ Visits wa wb) as (wb & Hrunb & HVb).
  { destruct (Operation_RequestBody operation) as [requestBody|] eqn:Hbody.
    - apply (resolveRequestBodyRef_total D swagger fuel (Some requestBody) wa);
        [apply Hsafea| |apply Hsafea].
      apply Hroots.
      by apply (Root_requestBody _ paths path item method operation).
    - exists wa. split; [done|apply Visits_refl]. }
  rewrite (bind_run _ _ wa tt wb Hrunb).
  pose proof (Safe_Visits _ _ _ _ Hsafea HVb) as Hsafeb.
  destruct (forRange_total (Safe D fuel) (Operation_Responses operation)
              (fun response => resolveResponseRef fuel swagger response)
              (Safe_Visits D fuel)) with (w := wb) as (wc & Hrunc & HVc); [|done|].
  { intros m key p w1 Hm Hin [HD1 Hn1].
    apply (resolveResponseRef_total D swagger fuel p w1); [done| |done].
    apply Hroots.
    by apply (Root_response _ paths path item method operation m key). }
  exists wc. split; [done|].
  apply (Visits_trans _ wa); [done|]. by apply (Visits_trans _ wb).
Qed.

(** X21. In a well-formed document without reference strings (every Ref
    of the document is allocated and has an empty reference string; the
    values and content types it reaches are allocated, with no nil entry
    where the code dereferences one; every Schema Ref has a Value),
    [ResolveRefsIn] returns no error as soon as the fuel exceeds the
    number of Refs by two, and nothing but the visit state of the loader
    differs afterwards: every store of the heap is as it was (the
    assignment of a content type's schema to itself included).  Without
    well-formedness the pass may panic: see C10. *)
Theorem ResolveRefsIn_ref_free_document D swagger w fuel :
  RefFree w D -> RootsIn swagger D -> size D + 1 < fuel ->
  exists w', ResolveRefsIn fuel swagger w = (Ok tt, w') /\ SameHeap w w'.
Proof.
  intros HD Hroots Hfuel. destruct fuel as [|fuel]; [lia|].
  simpl.
  set (w0 := set_visited (fun _ => ∅) w).
  rewrite (bind_run (fun w1 => (Ok tt, set_visited (fun _ => ∅) w1)) _ w tt w0 eq_refl).
  assert (Safe D fuel w0) as Hsafe0.
  { split.
    - intros k l Hin. destruct (HD k l Hin) as (o & Ho & He & Hwf). by exists o.
    - unfold pending. apply (Nat.le_lt_trans _ (size D)); [|lia].
      apply subseteq_size. intros x. rewrite elem_of_filter. tauto. }
  destruct (table_total D swagger KHeader fuel (resolveHeaderRef fuel swagger)
              (Headers (Swagger_Components swagger)) w0) as (w1 & R1 & V1);
    [done|done|done|apply resolveHeaderRef_total|done|].
  rewrite (bind_run _ _ w0 tt w1 R1).
  pose proof (Safe_Visits _ _ _ _ Hsafe0 V1) as Hsafe1.
  destruct (table_total D swagger KParameter fuel (resolveParameterRef fuel swagger)
              (Parameters_ (Swagger_Components swagger)) w1) as (w2 & R2 & V2);
    [done|done|done|apply resolveParameterRef_total|done|].
  rewrite (bind_run _ _ w1 tt w2 R2).
  pose proof (Safe_Visits _ _ _ _ Hsafe1 V2) as Hsafe2.
  destruct (table_total D swagger KRequestBody fuel (resolveRequestBodyRef fuel swagger)
              (RequestBodies (Swagger_Components swagger)) w2) as (w3 & R3 & V3);
    [done|done|done|apply resolveRequestBodyRef_total|done|].
  rewrite (bind_run _ _ w2 tt w3 R3).
  pose proof (Safe_Visits _ _ _ _ Hsafe2 V3) as Hsafe3.
  destruct (table_total D swagger KResponse fuel (resolveResponseRef fuel swagger)
              (Responses (Swagger_Components swagger)) w3) as (w4 & R4 & V4);
    [done|done|done|apply resolveResponseRef_total|done|].
  rewrite (bind_run _ _ w3 tt w4 R4).
  pose proof (Safe_Visits _ _ _ _ Hsafe3 V4) as Hsafe4.
  destruct (table_total D swagger KSchema fuel (resolveSchemaRef fuel swagger)
              (Schemas (Swagger_Components swagger)) w4) as (w5 & R5 & V5);
    [done|done|done|apply resolveSchemaRef_total|done|].
  rewrite (bind_run _ _ w4 tt w5 R5).
  pose proof (Safe_Visits _ _ _ _ Hsafe4 V5) as Hsafe5.
  destruct (table_total D swagger KSecurityScheme fuel
              (resolveSecuritySchemeRef fuel swagger)
              (SecuritySchemes (Swagger_Components swagger)) w5) as (w6 & R6 & V6);
    [done|done|done|apply resolveSecuritySchemeRef_total|done|].
  rewrite (bind_run _ _ w5 tt w6 R6).
  pose proof (Safe_Visits _ _ _ _ Hsafe5 V6) as Hsafe6.
  match goal with |- exists w', forRange ?m ?f w6 = _ /\ _ =>
    destruct (forRange_total (Safe D fuel) m f (Safe_Visits D fuel)) with (w := w6)
      as (w7 & R7 & V7); [|done|]
  end.
  { intros paths path pathItem wa Hpaths Hin Hsafea.
    destruct pathItem as [item|]; [|exists wa; split; [done|apply Visits_refl]].
    apply (forEach_total (Safe D fuel)); [apply Safe_Visits| |done].
    intros [method operation] wb Hop Hsafeb.
    by apply (operation_total D swagger fuel paths path item method). }
  exists w7. split; [done|].
  assert (Visits w0 w7) as [HS _].
  { apply (Visits_trans _ w1); [done|]. apply (Visits_trans _ w2); [done|].
    apply (Visits_trans _ w3); [done|]. apply (Visits_trans _ w4); [done|].
    apply (Visits_trans _ w5); [done|]. by apply (Visits_trans _ w6). }
  exact HS.
Qed.

(** *** Where the code departs from the specification *)

(** A guarded resolver returns at once on a Ref it has visited. *)
Lemma guardedWith_visited k c body w :
  (k, c) ∈ visited w -> guardedWith k c body w = (Ok tt, w).
Proof.
  intros Hin. unfold guardedWith.
  rewrite (bind_run _ _ w _ w (eq_refl : isVisited k c w = (_, w))).
  by rewrite bool_decide_eq_true_2.
Qed.

Lemma resolveSchemaRef_visited fuel swagger c w :
  (KSchema, c) ∈ visited w -> resolveSchemaRef (S fuel) swagger c w = (Ok tt, w).
Proof. intros. rewrite resolveSchemaRef_shape. by apply guardedWith_visited. Qed.

Lemma resolveHeaderRef_visited fuel swagger c w :
  (KHeader, c) ∈ visited w -> resolveHeaderRef (S fuel) swagger c w = (Ok tt, w).
Proof. intros. rewrite resolveHeaderRef_shape. by apply guardedWith_visited. Qed.

Lemma resolveParameterRef_visited fuel swagger c w :
  (KParameter, c) ∈ visited w -> resolveParameterRef (S fuel) swagger c w = (Ok tt, w).
Proof. intros. rewrite resolveParameterRef_shape. by apply guardedWith_visited. Qed.

Lemma resolveRequestBodyRef_visited fuel swagger c w :
  (KRequestBody, c) ∈ visited w ->
  resolveRequestBodyRef (S fuel) swagger c w = (Ok tt, w).
Proof. intros. rewrite resolveRequestBodyRef_shape. by apply guardedWith_visited. Qed.

Lemma resolveResponseRef_visited fuel swagger c w :
  (KResponse, c) ∈ visited w -> resolveResponseRef (S fuel) swagger c w = (Ok tt, w).
Proof. intros. rewrite resolveResponseRef_shape. by apply guardedWith_visited. Qed.

Lemma resolveSecuritySchemeRef_visited fuel swagger c w :
  (KSecurityScheme, c) ∈ visited w ->
  resolveSecuritySchemeRef (S fuel) swagger c w = (Ok tt, w).
Proof.
  intros. rewrite resolveSecuritySchemeRef_shape. by apply guardedWith_visited.
Qed.

(** C2 (the code departs). On the ring of schema references A to B, B to C,
    C to A, and on the chain A to B to C whose schema C has a property that
    refers back to A, the walk does not return: it dereferences the null
    Value of a Ref met a second time, whatever the fuel. *)
Theorem ResolveRefsIn_schema_cycle_panics fuel :
  fst (ResolveRefsIn (6 + fuel) schemaRing schemaRingWorld) = Fail Panic
  /\ fst (ResolveRefsIn (6 + fuel) schemaRing schemaLoopWorld) = Fail Panic.
Proof. split; vm_compute; reflexivity. Qed.

(** C3 (the code departs). The Example resolver has no guard: on a Ref
    recorded as visited it still does the lookup (and here fails), and on an
    Example that refers to itself no amount of fuel makes it return. *)
Theorem resolveExampleRef_has_no_guard :
  (forall fuel,
     fst (resolveExampleRef (2 + fuel) exampleDoc (Some 2%positive)
            (set_visited (fun _ => {[ (KExample, Some 2%positive) ]}) exampleWorld))
     = Fail (Err (failedToResolveRefFragmentPart "#/components/examples/a" "/a")))
  /\ (forall fuel,
        fst (resolveExampleRef fuel exampleDoc (Some 4%positive) exampleWorld)
        = Fail OutOfFuel).
Proof.
  split.
  - intros fuel. vm_compute. reflexivity.
  - intros fuel. induction fuel as [|fuel IH]; [reflexivity|].
    rewrite resolveExampleRef_shape. unfold flattenWith.
    rewrite (bind_run _ _ exampleWorld
               {| Ref := "#/components/examplesd"; Value := None |} exampleWorld);
      [|reflexivity].
    cbn [Ref]. change (nonEmpty "#/components/examplesd") with true. cbv iota.
    destruct fuel as [|fuel]; [reflexivity|].
    rewrite (bind_run _ _ exampleWorld
               (Swagger_Components exampleDoc, "d") exampleWorld);
      [|by rewrite resolveComponent_local].
    cbn [fst snd kindTable exampleDoc Swagger_Components Examples].
    change (mapIndex _ "d") with (Some 4%positive). cbv iota.
    by apply bind_Fail.
Qed.

(** C4 (the code departs). A Schema Ref with an empty reference string and
    a null Value makes the Schema resolver dereference nil, where the
    Parameter resolver returns success on the same Ref. *)
Theorem resolveSchemaRef_null_Value_panics fuel :
  fst (resolveSchemaRef (S fuel) danglingDoc (Some 1%positive) blankRefs) = Fail Panic
  /\ fst (resolveParameterRef (S fuel) danglingDoc (Some 1%positive) blankRefs) = Ok tt.
Proof. split; vm_compute; reflexivity. Qed.

(** C5 (the code departs). The walk never enters the Examples table: it
    returns success and leaves the document as it was, although the Example
    resolver run on the entry "c" would give it the Value of "a". *)
Theorem ResolveRefsIn_skips_Examples fuel :
  ResolveRefsIn (S fuel) exampleDoc exampleWorld = (Ok tt, exampleWorld)
  /\ valueOf KExample (Some 3%positive) exampleWorld = Some None
  /\ valueOf KExample (Some 3%positive)
       (snd (resolveExampleRef (3 + fuel) exampleDoc (Some 3%positive) exampleWorld))
     = Some (Some 9%positive).
Proof. repeat split; vm_compute; reflexivity. Qed.

(** C10 (the code departs). A document without any reference string is
    not always resolved: the pass dereferences nil on a schema entry that
    has neither reference string nor Value, on a table entry that is nil,
    and on a request body whose Content holds a nil entry.  The last is
    skipped by an explicit check when it is the Content of a response. *)
Theorem ResolveRefsIn_ref_free_document_panics fuel :
  fst (ResolveRefsIn (2 + fuel) blankSchemaDoc blankRefs) = Fail Panic
  /\ fst (ResolveRefsIn (2 + fuel) nilEntryDoc emptyWorld) = Fail Panic
  /\ fst (ResolveRefsIn (2 + fuel) nilContentBodyDoc nilContentWorld) = Fail Panic
  /\ fst (ResolveRefsIn (2 + fuel) nilContentResponseDoc nilContentWorld) = Ok tt.
Proof. repeat split; vm_compute; reflexivity. Qed.

Lemma failedToResolveRefFragment_not_Part value value' what :
  failedToResolveRefFragment value <> failedToResolveRefFragmentPart value' what.
Proof. unfold failedToResolveRefFragment, failedToResolveRefFragmentPart. discriminate. Qed.

(** C6 (the code departs). With the table of its kind absent, the Header
    resolver fails with the message of UnresolvableFragment, which is no
    message of UnresolvableFragmentPart; the Parameter resolver, in the same
    situation, fails with UnresolvableFragmentPart. *)
Theorem resolveHeaderRef_missing_table_error fuel :
  fst (resolveHeaderRef (2 + fuel) danglingDoc (Some 1%positive) danglingWorld)
  = Fail (Err (failedToResolveRefFragment "#/components/headers/x"))
  /\ (forall value what,
        failedToResolveRefFragment "#/components/headers/x"
        <> failedToResolveRefFragmentPart value what)
  /\ fst (resolveParameterRef (2 + fuel) danglingDoc (Some 1%positive) danglingWorld)
     = Fail (Err (failedToResolveRefFragmentPart "#/components/parameters/x"
                    "parameters")).
Proof.
  split; [vm_compute; reflexivity|]. split; [|vm_compute; reflexivity].
  intros value what. apply failedToResolveRefFragment_not_Part.
Qed.

(** C9 (the code departs). The Example resolver passes the prefix
    "#/components/examples", without the final '/': for a reference string
    of the form "#/components/examples/<id>" the identifier it cuts out is
    "/<id>", and the lookup fails with UnresolvableFragmentPart whether or
    not the example exists. *)
Theorem resolveExampleRef_rejects_local_form fuel swagger c w o id :
  derefRef KExample c w = Some o ->
  Ref o = "#/components/examples/" ++ id ->
  resolveExampleRef (2 + fuel) swagger c w
  = (Fail (Err (failedToResolveRefFragmentPart (Ref o) ("/" ++ id))), w).
Proof.
  intros Ho Href. change (2 + fuel) with (S (S fuel)).
  rewrite resolveExampleRef_shape. unfold flattenWith.
  rewrite (bind_run _ _ w o w); [|by apply loadRef_run].
  rewrite Href. change (nonEmpty _) with true. cbv iota.
  unfold bind. rewrite resolveComponent_local by reflexivity.
  change ("#/components/examples/" ++ id)
    with (kindPrefix KExample ++ ("/" ++ id)).
  by rewrite locateIn_slash by (by left).
Qed.

(** *** The seven resolvers at once: how a reference string is refused *)

Lemma bind_ret_tt (m : M unit) w : (m ;;; ret tt) w = m w.
Proof. unfold bind, ret. by destruct (m w) as [[[]|?] ?]. Qed.

Lemma resolveRef_shape k fuel swagger c w :
  resolveRef k (S fuel) swagger c w
  = guardOf k c
      (flattenWith k (kindPrefix k) (kindTable k) (tableError k) (idError k)
         (resolveComponent fuel swagger) (resolveRef k fuel swagger) c ;;;
       descendOf k (resolveSchemaRef fuel swagger) c) w.
Proof.
  destruct k; unfold resolveRef, guardOf, descendOf.
  - apply resolveHeaderRef_shape.
  - apply resolveParameterRef_shape.
  - apply resolveRequestBodyRef_shape.
  - apply resolveResponseRef_shape.
  - apply resolveSchemaRef_shape.
  - apply resolveSecuritySchemeRef_shape.
  - rewrite bind_ret_tt. apply resolveExampleRef_shape.
Qed.

Lemma guardOf_fresh k c body w :
  k = KExample \/ (k, c) ∉ visited w ->
  guardOf k c body w = body (entered k c w).
Proof.
  intros Hfresh.
  assert (k <> KExample -> guardedWith k c body w
          = body (set_visited (fun s => {[ (k, c) ]} ∪ s) w)) as Hguard.
  { intros Hk. destruct Hfresh as [?|Hfresh]; [done|].
    unfold guardedWith, bind, isVisited, markVisited.
    by rewrite bool_decide_eq_false_2. }
  destruct k; try (by apply Hguard); reflexivity.
Qed.

Lemma derefRef_entered k c k' c' w :
  derefRef k c (entered k' c' w) = derefRef k c w.
Proof. by destruct k', c. Qed.

(** A resolver run on a Ref it has to flatten comes to the locator. *)
Lemma resolveRef_locates k fuel swagger c w o :
  k = KExample \/ (k, c) ∉ visited w ->
  derefRef k c w = Some o -> Ref o <> "" ->
  resolveRef k (S fuel) swagger c w
  = ((ci <- resolveComponent fuel swagger (Ref o) (kindPrefix k) ;;
      match kindTable k (fst ci) with
      | None => throw (tableError k (Ref o))
      | Some definitions =>
          match mapIndex definitions (snd ci) with
          | None => throw (idError k (Ref o) (snd ci))
          | Some resolved =>
              resolveRef k fuel swagger (Some resolved) ;;;
              r <- loadRef k (Some resolved) ;;
              storeValue k c (Value r)
          end
      end) ;;;
     descendOf k (resolveSchemaRef fuel swagger) c) (entered k c w).
Proof.
  intros Hfresh Ho Hne. rewrite resolveRef_shape, guardOf_fresh by done.
  unfold flattenWith. unfold bind at 1 2.
  unfold loadRef. rewrite derefRef_entered, Ho.
  apply nonEmpty_true in Hne. by rewrite Hne.
Qed.

Lemma resolveRef_locate_fails k fuel swagger c w o f w' :
  k = KExample \/ (k, c) ∉ visited w ->
  derefRef k c w = Some o -> Ref o <> "" ->
  resolveComponent fuel swagger (Ref o) (kindPrefix k) (entered k c w) = (Fail f, w') ->
  resolveRef k (S fuel) swagger c w = (Fail f, w').
Proof.
  intros Hfresh Ho Hne Hloc. rewrite (resolveRef_locates _ _ _ _ _ o) by done.
  unfold bind. by rewrite Hloc.
Qed.

Lemma resolveComponent_disallowed fuel swagger ref prefix w :
  HasPrefix ref "#" = false -> IsExternalRefsAllowed w = false ->
  resolveComponent (S fuel) swagger ref prefix w
  = (Fail (Err (errNonAllowedExternalRef ref)), w).
Proof.
  intros Hext Hoff. simpl. unfold bind. rewrite Hext. simpl. by rewrite Hoff.
Qed.

Lemma entered_allowed k c w :
  IsExternalRefsAllowed (entered k c w) = IsExternalRefsAllowed w.
Proof. by destruct k. Qed.

Lemma kindPrefix_local k id : HasPrefix (kindPrefix k ++ id) "#" = true.
Proof. by destruct k. Qed.

(** X1. With external references disabled, each of the seven resolvers,
    run on a Ref it has not visited whose reference string is not empty
    and does not start with '#', returns the error "Encountered
    non-allowed external reference" naming that string.  Nothing is
    loaded or written: the state left is the one before the call with the
    Ref marked as visited (unmarked by the Example resolver). *)
Theorem resolveRef_external_disallowed k fuel swagger c w o :
  k = KExample \/ (k, c) ∉ visited w ->
  derefRef k c w = Some o ->
  Ref o <> "" -> HasPrefix (Ref o) "#" = false ->
  IsExternalRefsAllowed w = false ->
  resolveRef k (S (S fuel)) swagger c w
  = (Fail (Err (errNonAllowedExternalRef (Ref o))), entered k c w).
Proof.
  intros Hfresh Ho Hne Hext Hoff.
  apply (resolveRef_locate_fails _ _ _ _ _ o); try done.
  apply resolveComponent_disallowed; [done|]. by rewrite entered_allowed.
Qed.

(** X2. A reference string that starts with '#' and not with the prefix of
    the resolver's kind (a schema reference held by a Parameter Ref, say)
    makes each of the seven resolvers return the error "Failed to resolve
    fragment in URI" naming that string, whether or not external
    references are allowed and whatever the document holds. *)
Theorem resolveRef_wrong_prefix k fuel swagger c w o :
  k = KExample \/ (k, c) ∉ visited w ->
  derefRef k c w = Some o ->
  HasPrefix (Ref o) "#" = true -> HasPrefix (Ref o) (kindPrefix k) = false ->
  resolveRef k (S (S fuel)) swagger c w
  = (Fail (Err (failedToResolveRefFragment (Ref o))), entered k c w).
Proof.
  intros Hfresh Ho Hloc Hpre.
  apply (resolveRef_locate_fails _ _ _ _ _ o); try done.
  - intros Hempty. by rewrite Hempty in Hloc.
  - rewrite resolveComponent_local by done. unfold locateIn. by rewrite Hpre.
Qed.

(** X3. A reference string made of the prefix of the resolver's kind and
    an identifier that contains '/' makes each of the seven resolvers
    return the error "Failed to resolve '<id>' in fragment in URI",
    before any table is read. *)
Theorem resolveRef_nested_path k fuel swagger c w o id :
  k = KExample \/ (k, c) ∉ visited w ->
  derefRef k c w = Some o ->
  Ref o = kindPrefix k ++ id -> occursIn "/" id ->
  resolveRef k (S (S fuel)) swagger c w
  = (Fail (Err (failedToResolveRefFragmentPart (Ref o) id)), entered k c w).
Proof.
  intros Hfresh Ho Href Hslash.
  apply (resolveRef_locate_fails _ _ _ _ _ o); try done.
  - rewrite Href. by destruct k.
  - rewrite Href. rewrite resolveComponent_local by apply kindPrefix_local.
    by rewrite locateIn_slash.
Qed.

(** X4. A well-formed local reference string whose identifier the table of
    the kind does not hold (or holds with a nil entry) makes the resolver
    fail without calling itself on anything.  The error is the one the
    code has for the kind: when the table is nil,
    [failedToResolveRefFragmentPart] with the name of the table
    ([failedToResolveRefFragment] for a Header); when the table has no
    entry, [failedToResolveRefFragmentPart] with the identifier
    ([failedToResolveRefFragment] for a Header). *)
Theorem resolveRef_missing_entry k fuel swagger c w o id :
  k = KExample \/ (k, c) ∉ visited w ->
  derefRef k c w = Some o ->
  Ref o = kindPrefix k ++ id -> ~ occursIn "/" id ->
  (forall definitions, kindTable k (Swagger_Components swagger) = Some definitions ->
     mapIndex definitions id = None) ->
  resolveRef k (S (S fuel)) swagger c w
  = (Fail (Err (match kindTable k (Swagger_Components swagger) with
                | None => tableError k (Ref o)
                | Some _ => idError k (Ref o) id
                end)), entered k c w).
Proof.
  intros Hfresh Ho Href Hflat Hmiss.
  rewrite (resolveRef_locates _ _ _ _ _ o); try done.
  - rewrite Href. unfold bind at 1 2.
    rewrite resolveComponent_local by apply kindPrefix_local.
    rewrite locateIn_flat by done. cbn [fst snd].
    destruct (kindTable k (Swagger_Components swagger)) as [definitions|] eqn:Ht.
    + by rewrite (Hmiss _ eq_refl).
    + reflexivity.
  - rewrite Href. by destruct k.
Qed.

(** X5. With external references allowed, a reference string that does not
    start with '#' and that [url.Parse] rejects makes each of the seven
    resolvers return the error "Can't parse reference"; no document is
    loaded. *)
Theorem resolveRef_unparsable_reference k fuel swagger c w o :
  k = KExample \/ (k, c) ∉ visited w ->
  derefRef k c w = Some o ->
  Ref o <> "" -> HasPrefix (Ref o) "#" = false ->
  IsExternalRefsAllowed w = true ->
  url_Parse (Ref o) = None ->
  resolveRef k (S (S fuel)) swagger c w
  = (Fail (Err (errCantParseReference (Ref o))), entered k c w).
Proof.
  intros Hfresh Ho Hne Hext Hon Hparse.
  apply (resolveRef_locate_fails _ _ _ _ _ o); try done.
  simpl. unfold bind. rewrite Hext. simpl. rewrite entered_allowed, Hon. simpl.
  by rewrite Hparse.
Qed.

(** X6. With external references allowed and no loader function set, a
    reference to a location with a scheme, a host or a query is refused by
    [LoadSwaggerFromURI] before any file is read, and the resolver returns
    that error wrapped in "Error while resolving reference".  The location
    the loader was called on is the parsed reference with its fragment
    cleared. *)
Theorem resolveRef_remote_location_unsupported k fuel swagger c w o parsedURL :
  LoadSwaggerFromURIFunc = None ->
  k = KExample \/ (k, c) ∉ visited w ->
  derefRef k c w = Some o ->
  Ref o <> "" -> HasPrefix (Ref o) "#" = false ->
  IsExternalRefsAllowed w = true ->
  url_Parse (Ref o) = Some parsedURL ->
  Scheme parsedURL <> "" \/ Host parsedURL <> "" \/ RawQuery parsedURL <> "" ->
  resolveRef k (S (S (S fuel))) swagger c w
  = (Fail (Err (errWhileResolvingReference (Ref o)
                  (errUnsupportedURI (URL_String (URL_clearFragment parsedURL))))),
     set_loaderCalls (fun t => (t ++ [URL_clearFragment parsedURL])%list)
       (entered k c w)).
Proof.
  intros Hnil Hfresh Ho Hne Hext Hon Hparse Hremote.
  apply (resolveRef_locate_fails _ _ _ _ _ o); try done.
  assert (nonEmpty (Scheme parsedURL) || nonEmpty (Host parsedURL)
          || nonEmpty (RawQuery parsedURL) = true) as Hb.
  { destruct Hremote as [H|[H|H]]; apply nonEmpty_true in H; rewrite H;
      by rewrite ?orb_true_r. }
  simpl. unfold bind. rewrite Hext. simpl. rewrite entered_allowed, Hon. simpl.
  rewrite Hparse, Hnil. simpl. by rewrite Hb.
Qed.

(** *** With external references disabled: every run ends, frames the
    state, and blames a reference string *)

Lemma Frame_refl w : Frame w w.
Proof. by split. Qed.

Lemma Frame_trans w1 w2 w3 : Frame w1 w2 -> Frame w2 w3 -> Frame w1 w3.
Proof.
  intros H12 H23. split.
  - by rewrite (frame_headers _ _ H23), (frame_headers _ _ H12).
  - by rewrite (frame_parameters _ _ H23), (frame_parameters _ _ H12).
  - by rewrite (frame_requestBodies _ _ H23), (frame_requestBodies _ _ H12).
  - by rewrite (frame_responses _ _ H23), (frame_responses _ _ H12).
  - by rewrite (frame_contentTypes _ _ H23), (frame_contentTypes _ _ H12).
  - by rewrite (frame_schemas _ _ H23), (frame_schemas _ _ H12).
  - by rewrite (frame_allowed _ _ H23), (frame_allowed _ _ H12).
  - by rewrite (frame_loaderCalls _ _ H23), (frame_loaderCalls _ _ H12).
  - etrans; [apply (frame_visited _ _ H12)|apply (frame_visited _ _ H23)].
  - intros k l Hc.
    pose proof (frame_visited _ _ H12 (k, Some l)) as S12.
    pose proof (frame_visited _ _ H23 (k, Some l)) as S23.
    rewrite (frame_refs _ _ H23), (frame_refs _ _ H12); [done| |].
    + destruct Hc as [?|?]; [by left|right]. tauto.
    + destruct Hc as [?|?]; [left|by right]. tauto.
  - intros k l. by rewrite (frame_Ref _ _ H23), (frame_Ref _ _ H12).
Qed.

Lemma Frame_dom w w' : Frame w w' -> dom (refs w') = dom (refs w).
Proof.
  intros HF. apply set_eq. intros [k l]. rewrite !elem_of_dom.
  pose proof (frame_Ref _ _ HF k l) as H.
  destruct (refs w' !! (k, l)), (refs w !! (k, l)); cbn in H; try done.
  all: split; intros [? ?]; done.
Qed.

Lemma Ready_Frame n w w' : Ready n w -> Frame w w' -> Ready n w'.
Proof.
  intros [Hoff Hn] HF. split; [by rewrite (frame_allowed _ _ HF)|].
  rewrite (Frame_dom _ _ HF).
  pose proof (pending_mono (dom (refs w)) w w' (frame_visited _ _ HF)). lia.
Qed.

Lemma Blames_Frame {swagger} w w' e : Frame w w' -> Blames swagger w' e -> Blames swagger w e.
Proof.
  intros HF (k & l & o & Ho & Hne & He).
  pose proof (frame_Ref _ _ HF k l) as H. rewrite Ho in H.
  destruct (refs w !! (k, l)) as [o'|] eqn:Ho'; [|done].
  injection H as H. exists k, l, o'. by rewrite <- H.
Qed.

(** A step that leaves the state alone and returns or panics. *)
Lemma RunsAt_quiet {swagger A} (m : M A) w :
  m w = (Fail Panic, w) \/ (exists a, m w = (Ok a, w)) -> RunsAt swagger m w.
Proof.
  intros [H|[a H]]; unfold RunsAt; rewrite H; cbn;
    (split; [done|]); (split; [apply Frame_refl|done]).
Qed.

Lemma RunsAt_ret {swagger A} (a : A) w : RunsAt swagger (ret a) w.
Proof. apply RunsAt_quiet. right. by exists a. Qed.

Lemma RunsAt_loadRef {swagger} k p w : RunsAt swagger (loadRef k p) w.
Proof.
  apply RunsAt_quiet. unfold loadRef.
  destruct (derefRef k p w) as [o|]; [right; by exists o|by left].
Qed.

Lemma RunsAt_loadFrom {swagger A} (store : World -> gmap loc A) p w :
  RunsAt swagger (loadFrom store p) w.
Proof.
  apply RunsAt_quiet. unfold loadFrom. destruct p as [l|]; [|by left].
  destruct (store w !! l) as [a|]; [right; by exists a|by left].
Qed.

Lemma RunsAt_bind {swagger A B} (m : M A) (f : A -> M B) w :
  RunsAt swagger m w -> (forall a w1, m w = (Ok a, w1) -> RunsAt swagger (f a) w1) ->
  RunsAt swagger (bind m f) w.
Proof.
  intros (Hfuel & HF & Herr) Hf. unfold RunsAt, bind.
  destruct (m w) as [[a|e] w1] eqn:Hm; cbn in *.
  2: { split; [intros [= ->]; by apply Hfuel|]. split; [done|].
       intros e' [= ->]. by apply Herr. }
  destruct (Hf a w1 eq_refl) as (Hfuel' & HF' & Herr').
  split; [done|]. split; [by apply (Frame_trans _ w1)|].
  intros e He. apply (Blames_Frame _ w1); [done|]. by apply Herr'.
Qed.

Lemma RunsAt_Frame {swagger A} (m : M A) w r w' : RunsAt swagger m w -> m w = (r, w') -> Frame w w'.
Proof. intros (_ & HF & _) H. by rewrite H in HF. Qed.

Lemma forEach_RunsAt {swagger A} (P : World -> Prop) (l : list A) (f : A -> M unit) :
  (forall w1 w2, P w1 -> Frame w1 w2 -> P w2) ->
  (forall x w, x ∈ l -> P w -> RunsAt swagger (f x) w) ->
  forall w, P w -> RunsAt swagger (forEach l f) w.
Proof.
  intros HP. induction l as [|x l IH]; intros Hf w Hw; cbn.
  - apply RunsAt_ret.
  - assert (RunsAt swagger (f x) w) as Hx by (apply Hf; [left|done]).
    apply RunsAt_bind; [done|]. intros [] w1 Hrun. apply IH.
    + intros y w2 Hy. apply Hf. by right.
    + apply (HP w); [done|]. by apply (RunsAt_Frame (swagger := swagger) (f x) w (Ok tt)).
Qed.

Lemma forRange_RunsAt {swagger A} (P : World -> Prop) (m : option (gomap A))
    (f : A -> M unit) :
  (forall w1 w2, P w1 -> Frame w1 w2 -> P w2) ->
  (forall entries key x w, m = Some entries -> (key, x) ∈ entries -> P w ->
     RunsAt swagger (f x) w) ->
  forall w, P w -> RunsAt swagger (forRange m f) w.
Proof.
  intros HP Hf w Hw. destruct m as [entries|]; cbn; [|apply RunsAt_ret].
  apply (forEach_RunsAt P); [done| |done].
  intros [key x] w1 Hin. by apply (Hf entries key).
Qed.

Lemma optional_RunsAt {swagger} n resolveSchema (schema : ptr) w :
  Halts swagger KSchema n resolveSchema -> Ready n w ->
  RunsAt swagger match schema with
         | None => ret tt
         | Some v => resolveSchema (Some v)
         end w.
Proof.
  intros Hs Hw. destruct schema; [by apply Hs|apply RunsAt_ret].
Qed.

Lemma descendOf_RunsAt {swagger} k n resolveSchema c w :
  Halts swagger KSchema n resolveSchema -> Ready n w ->
  RunsAt swagger (descendOf k resolveSchema c) w.
Proof.
  intros Hs Hw. destruct k; cbn; try apply RunsAt_ret.
  - unfold descendHeader. apply RunsAt_bind; [apply RunsAt_loadRef|].
    intros o w1 Ho. apply loadRef_Ok in Ho as [_ ->].
    destruct (Value o); [|apply RunsAt_ret].
    apply RunsAt_bind; [apply RunsAt_loadFrom|].
    intros v w1 Hv. apply loadFrom_Ok in Hv as (_ & _ & _ & ->).
    by apply (optional_RunsAt n).
  - unfold descendParameter. apply RunsAt_bind; [apply RunsAt_loadRef|].
    intros o w1 Ho. apply loadRef_Ok in Ho as [_ ->].
    destruct (Value o); [|apply RunsAt_ret].
    apply RunsAt_bind; [apply RunsAt_loadFrom|].
    intros v w1 Hv. apply loadFrom_Ok in Hv as (_ & _ & _ & ->).
    by apply (optional_RunsAt n).
  - unfold descendRequestBody. apply RunsAt_bind; [apply RunsAt_loadRef|].
    intros o w1 Ho. apply loadRef_Ok in Ho as [_ ->].
    destruct (Value o); [|apply RunsAt_ret].
    apply RunsAt_bind; [apply RunsAt_loadFrom|].
    intros v w1 Hv. apply loadFrom_Ok in Hv as (_ & _ & _ & ->).
    apply (forRange_RunsAt (Ready n)); [apply Ready_Frame| |done].
    intros entries key contentType w1 _ _ Hw1.
    apply RunsAt_bind; [apply RunsAt_loadFrom|].
    intros ct w2 Hct. apply loadFrom_Ok in Hct as (_ & _ & _ & ->).
    by apply (optional_RunsAt n).
  - unfold descendResponse. apply RunsAt_bind; [apply RunsAt_loadRef|].
    intros o w1 Ho. apply loadRef_Ok in Ho as [_ ->].
    destruct (Value o); [|apply RunsAt_ret].
    apply RunsAt_bind; [apply RunsAt_loadFrom|].
    intros v w1 Hv. apply loadFrom_Ok in Hv as (_ & _ & _ & ->).
    apply (forRange_RunsAt (Ready n)); [apply Ready_Frame| |done].
    intros entries key contentType w1 _ _ Hw1.
    destruct contentType as [lct|]; [|apply RunsAt_ret].
    apply RunsAt_bind; [apply RunsAt_loadFrom|].
    intros ct w2 Hct. apply loadFrom_Ok in Hct as (lx & [= <-] & Hct & ->).
    destruct (ContentType_Schema ct) as [schema|] eqn:Hschema; [|apply RunsAt_ret].
    apply RunsAt_bind; [by apply Hs|].
    intros [] w2 Hrun. apply RunsAt_quiet. right. exists tt.
    rewrite <- Hschema. apply storeContentTypeSchema_run.
    assert (Frame w1 w2) as HF.
    { apply (RunsAt_Frame (swagger := swagger) (resolveSchema (Some schema)) w1 (Ok tt)); [|done].
      by apply Hs. }
    by rewrite (frame_contentTypes _ _ HF).
  - unfold descendSchema. apply RunsAt_bind; [apply RunsAt_loadRef|].
    intros o w1 Ho. apply loadRef_Ok in Ho as [_ ->].
    apply RunsAt_bind; [apply RunsAt_loadFrom|].
    intros v w1 Hv. apply loadFrom_Ok in Hv as (_ & _ & _ & ->).
    assert (RunsAt swagger match Items v with
                   | None => ret tt
                   | Some v0 => resolveSchema (Some v0)
                   end w) as Hitems by (by apply (optional_RunsAt n)).
    apply RunsAt_bind; [done|]. intros [] w1 Hrun1.
    assert (Ready n w1) as Hw1.
    { apply (Ready_Frame n w); [done|]. by apply (RunsAt_Frame (swagger := swagger) _ w (Ok tt)) in Hrun1. }
    assert (RunsAt swagger (forRange (Properties v) (fun v0 => resolveSchema v0)) w1) as Hprops.
    { apply (forRange_RunsAt (Ready n)); [apply Ready_Frame| |done].
      intros entries key p w2 _ _ Hw2. by apply Hs. }
    apply RunsAt_bind; [done|]. intros [] w2 Hrun2.
    apply (optional_RunsAt n); [done|].
    apply (Ready_Frame n w1); [done|]. by apply (RunsAt_Frame (swagger := swagger) _ w1 (Ok tt)) in Hrun2.
Qed.

Lemma tableError_form k ref :
  tableError k ref = failedToResolveRefFragment ref
  \/ exists what, tableError k ref = failedToResolveRefFragmentPart ref what.
Proof. destruct k; cbn; eauto. Qed.

Lemma idError_form k ref id :
  idError k ref id = failedToResolveRefFragment ref
  \/ exists what, idError k ref id = failedToResolveRefFragmentPart ref what.
Proof. destruct k; cbn; eauto. Qed.

(** The locator, external references disabled: it leaves the state alone,
    and fails with one of three errors, each naming the reference. *)
Lemma resolveComponent_disabled fuel swagger ref prefix w :
  IsExternalRefsAllowed w = false ->
  exists r, resolveComponent (S fuel) swagger ref prefix w = (r, w) /\
    ((exists id, r = Ok (Swagger_Components swagger, id))
     \/ (r = Fail (Err (errNonAllowedExternalRef ref)) /\ HasPrefix ref "#" = false)
     \/ (r = Fail (Err (failedToResolveRefFragment ref))
         /\ HasPrefix ref prefix = false)
     \/ (exists id, r = Fail (Err (failedToResolveRefFragmentPart ref id))
           /\ ref = prefix ++ id /\ occursIn "/" id)).
Proof.
  intros Hoff. destruct (HasPrefix ref "#") eqn:Hloc.
  - rewrite resolveComponent_local by done. eexists. split; [done|].
    unfold locateIn. destruct (HasPrefix ref prefix) eqn:Hpre.
    2: { right. right. by left. }
    destruct (0 <=? _)%Z eqn:Hslash.
    2: { left. by eexists. }
    right. right. right. eexists. split; [done|].
    apply HasPrefix_true in Hpre as [t ->]. rewrite sliceFrom_app in *.
    split; [done|]. by apply IndexByte_found.
  - rewrite resolveComponent_disallowed by done. eexists. split; [done|].
    right. by left.
Qed.

Lemma append_cancel (p a b : string) : p ++ a = p ++ b -> a = b.
Proof.
  induction p as [|c p IH]; [done|].
  rewrite !append_cons. intros [= ?]. by apply IH.
Qed.

(** Why a reference string names no entry of the table of its kind. *)
Lemma not_Names_external swagger k ref target :
  HasPrefix ref "#" = false -> ~ Names swagger k ref target.
Proof.
  intros Hext (id & m & -> & _). by rewrite kindPrefix_local in Hext.
Qed.

Lemma not_Names_prefix swagger k ref target :
  HasPrefix ref (kindPrefix k) = false -> ~ Names swagger k ref target.
Proof.
  intros Hpre (id & m & -> & _). by rewrite HasPrefix_app in Hpre.
Qed.

Lemma not_Names_slash swagger k id target :
  occursIn "/" id -> ~ Names swagger k (kindPrefix k ++ id) target.
Proof.
  intros Hslash (id' & m & Heq & Hflat & _).
  apply append_cancel in Heq as ->. done.
Qed.

Lemma not_Names_entry swagger k id target :
  (forall definitions, kindTable k (Swagger_Components swagger) = Some definitions ->
     mapIndex definitions id = None) ->
  ~ Names swagger k (kindPrefix k ++ id) target.
Proof.
  intros Hmiss (id' & m & Heq & _ & Hm & Hi).
  apply append_cancel in Heq as <-. rewrite (Hmiss m Hm) in Hi. done.
Qed.


Lemma RunsAt_from {swagger A} (m : M A) w0 w :
  RunsAt swagger m w -> Frame w0 w -> RunsFrom swagger w0 m w.
Proof.
  intros (Hfuel & HF & Herr) H0. split; [done|].
  split; [by apply (Frame_trans _ w)|]. split; [apply (frame_visited _ _ HF)|].
  intros e He. apply (Blames_Frame _ w); [done|]. by apply Herr.
Qed.

Lemma RunsFrom_bind {swagger A B} (m : M A) (f : A -> M B) w0 w :
  RunsFrom swagger w0 m w ->
  (forall a w1, m w = (Ok a, w1) -> Frame w0 w1 -> visited w ⊆ visited w1 ->
     RunsFrom swagger w0 (f a) w1) ->
  RunsFrom swagger w0 (bind m f) w.
Proof.
  intros (Hfuel & HF & Hv & Herr) Hf. unfold RunsFrom, bind.
  destruct (m w) as [[a|e] w1] eqn:Hm; cbn in *.
  2: { split; [intros [= ->]; by apply Hfuel|]. split; [done|]. split; [done|].
       intros e' [= ->]. by apply Herr. }
  destruct (Hf a w1 eq_refl HF Hv) as (Hfuel' & HF' & Hv' & Herr').
  split; [done|]. split; [done|]. split; [by etrans|done].
Qed.

Lemma RunsFrom_throw {swagger A} w0 w e :
  Frame w0 w -> Blames swagger w0 e -> RunsFrom swagger w0 (throw e : M A) w.
Proof.
  intros HF Hb. split; [done|]. split; [done|]. split; [done|].
  by intros e' [= <-].
Qed.

Lemma Ready_step n w1 w3 :
  Ready n w1 ->
  IsExternalRefsAllowed w3 = IsExternalRefsAllowed w1 ->
  dom (refs w3) = dom (refs w1) ->
  visited w1 ⊆ visited w3 ->
  Ready n w3.
Proof.
  intros [Hoff Hn] Hflag Hdom Hv. split; [congruence|]. rewrite Hdom.
  pose proof (pending_mono (dom (refs w1)) w1 w3 Hv). lia.
Qed.

Lemma entered_guarded k c w :
  k <> KExample -> entered k c w = set_visited (fun s => {[ (k, c) ]} ∪ s) w.
Proof. by destruct k. Qed.

Lemma guardOf_visited k c body w :
  k <> KExample -> (k, c) ∈ visited w -> guardOf k c body w = (Ok tt, w).
Proof.
  intros Hk Hin.
  assert (guardedWith k c body w = (Ok tt, w)) as Hguard.
  { unfold guardedWith, bind, isVisited. by rewrite bool_decide_eq_true_2. }
  by destruct k.
Qed.

(** Writing the Value of a Ref that this part of the pass has visited for
    the first time keeps the frame. *)
Lemma storeValue_Frame k lc v w0 w2 w3 :
  (k, Some lc) ∉ visited w0 -> (k, Some lc) ∈ visited w2 ->
  Frame w0 w2 -> storeValue k (Some lc) v w2 = (Ok tt, w3) ->
  Frame w0 w3 /\ visited w3 = visited w2 /\ dom (refs w3) = dom (refs w2).
Proof.
  intros Hfresh Hin HF Hstore.
  apply storeValue_Ok in Hstore as (l & o & [= <-] & Ho & ->).
  split; [|split; [done|]].
  - destruct HF. split; try done.
    + intros k' l' Hc. cbn.
      assert ((k', l') <> (k, lc)) as Hneq.
      { intros [= -> ->]. by destruct Hc. }
      rewrite lookup_insert_ne by done. by apply frame_refs0.
    + intros k' l'. cbn. destruct (decide ((k, lc) = (k', l'))) as [[= <- <-]|Hneq].
      * rewrite lookup_insert_eq. cbn. by rewrite <- frame_Ref0, Ho.
      * rewrite lookup_insert_ne by done. apply frame_Ref0.
  - cbn. apply dom_insert_lookup_L. by exists o.
Qed.

(** The body of a guarded resolver, run on a Ref it has just marked. *)
Lemma body_RunsFrom k fuel swagger c w :
  k <> KExample -> (k, c) ∉ visited w -> Ready (S fuel) w ->
  Halts swagger k fuel (resolveRef k fuel swagger) ->
  Halts swagger KSchema fuel (resolveSchemaRef fuel swagger) ->
  RunsFrom swagger w
    (flattenWith k (kindPrefix k) (kindTable k) (tableError k) (idError k)
       (resolveComponent fuel swagger) (resolveRef k fuel swagger) c ;;;
     descendOf k (resolveSchemaRef fuel swagger) c)
    (entered k c w).
Proof.
  intros Hk Hfresh [Hoff Hn] Hself Hschema.
  rewrite entered_guarded by done.
  set (w1 := set_visited (fun s => {[ (k, c) ]} ∪ s) w).
  assert (Frame w w1) as F01.
  { split; try done. apply union_subseteq_r. }
  assert ((k, c) ∈ visited w1) as Hc1.
  { apply elem_of_union. left. by apply elem_of_singleton. }
  assert (forall o w3, derefRef k c w = Some o -> Frame w w3 ->
            visited w1 ⊆ visited w3 -> Ready fuel w3) as Hready.
  { intros o w3 Ho HF Hv. destruct c as [lc|]; [|discriminate]. cbn in Ho.
    assert (Ready fuel w1) as Hw1.
    { split; [done|].
      assert ((k, lc) ∈ dom (refs w)) as Hin by (apply elem_of_dom; by exists o).
      pose proof (pending_mark (dom (refs w)) k lc w Hin Hfresh) as Hlt.
      change (pending (dom (refs w)) w1 < pending (dom (refs w)) w) in Hlt.
      change (refs w1) with (refs w). lia. }
    apply (Ready_step fuel w1); try done.
    - by rewrite (frame_allowed _ _ HF).
    - by rewrite (Frame_dom _ _ HF). }
  apply RunsFrom_bind.
  - (* the reference string *)
    unfold flattenWith.
    apply RunsFrom_bind; [apply RunsAt_from; [apply RunsAt_loadRef|done]|].
    intros o w' Ho _ _. apply loadRef_Ok in Ho as [Ho ->].
    change (derefRef k c w1) with (derefRef k c w) in Ho.
    pose proof (Hready o w1 Ho F01 (reflexivity _)) as Hw1.
    destruct c as [lc|]; [|discriminate]. cbn in Ho.
    destruct (nonEmpty (Ref o)) eqn:Hne; [|apply RunsAt_from; [apply RunsAt_ret|done]].
    apply nonEmpty_true in Hne.
    assert (forall e, (forall target, ~ Names swagger k (Ref o) target) ->
              e = errNonAllowedExternalRef (Ref o)
              \/ e = failedToResolveRefFragment (Ref o)
              \/ (exists what, e = failedToResolveRefFragmentPart (Ref o) what) ->
            Blames swagger w e) as Hblame.
    { intros e Hno He. by exists k, lc, o. }
    apply RunsFrom_bind.
    + (* the locator *)
      destruct fuel as [|fuel']; [destruct Hw1; lia|].
      destruct (resolveComponent_disabled fuel' swagger (Ref o) (kindPrefix k) w1)
        as (r & Hloc & Hr); [done|].
      unfold RunsFrom. rewrite Hloc. cbn [fst snd].
      split; [|split; [done|split; [done|]]].
      * destruct Hr as [[id ->]|[[-> _]|[[-> _]|(id & -> & _)]]]; done.
      * intros e ->.
        destruct Hr as [[id [=]]|[[[= ->] Hext]|[[[= ->] Hpre]|(id & [= ->] & Href & Hs)]]].
        -- apply Hblame; [|by left]. intros t. by apply not_Names_external.
        -- apply Hblame; [|right; by left]. intros t. by apply not_Names_prefix.
        -- apply Hblame; [|right; right; by exists id]. intros t. rewrite Href.
           by apply not_Names_slash.
    + intros [components id] w' Hloc _ _.
      apply resolveComponent_Ok_disabled in Hloc as (-> & -> & Href & _); [|done].
      cbn [fst snd].
      destruct (kindTable k (Swagger_Components swagger)) as [definitions|] eqn:Ht.
      2: { apply RunsFrom_throw; [done|]. apply Hblame.
           - intros t. rewrite Href. apply not_Names_entry. intros d Hd. congruence.
           - destruct (tableError_form k (Ref o)) as [->|[what ->]]; eauto. }
      destruct (mapIndex definitions id) as [resolved|] eqn:Hid.
      2: { apply RunsFrom_throw; [done|]. apply Hblame.
           - intros t. rewrite Href. apply not_Names_entry. intros d Hd. congruence.
           - destruct (idError_form k (Ref o) id) as [->|[what ->]]; eauto. }
      apply RunsFrom_bind; [apply RunsAt_from; [by apply Hself|done]|].
      intros [] w2 Hcall F02 Hv12.
      apply RunsFrom_bind; [apply RunsAt_from; [apply RunsAt_loadRef|done]|].
      intros r w' Hr _ _. apply loadRef_Ok in Hr as [_ ->].
      unfold RunsFrom.
      destruct (storeValue k (Some lc) (Value r) w2) as [[[]|f] w3] eqn:Hstore;
        cbn [fst snd].
      * destruct (storeValue_Frame k lc (Value r) w w2 w3) as (F03 & Hv3 & _);
          try done; [by apply Hv12|].
        split; [done|]. split; [done|]. split; [by rewrite Hv3|done].
      * unfold storeValue in Hstore.
        destruct (refs w2 !! (k, lc)); [discriminate|].
        injection Hstore as <- <-. split; [done|]. split; [done|]. by split.
  - (* the value *)
    intros [] w3 Hflat F03 Hv13.
    unfold flattenWith in Hflat. ok_bind Hflat as o w' Ho.
    apply loadRef_Ok in Ho as [Ho _].
    change (derefRef k c w1) with (derefRef k c w) in Ho.
    apply RunsAt_from; [|done].
    apply (descendOf_RunsAt k fuel); [done|]. by apply (Hready o).
Qed.

(** Each guarded resolver, at every depth. *)
Lemma resolveRef_Halts swagger n :
  forall k, k <> KExample -> Halts swagger k n (resolveRef k n swagger).
Proof.
  induction n as [|fuel IH]; intros k Hk c w Hw; [destruct Hw; lia|].
  unfold RunsAt. rewrite resolveRef_shape.
  destruct (decide ((k, c) ∈ visited w)) as [Hin|Hfresh].
  - rewrite guardOf_visited by done. cbn [fst snd].
    split; [|done]. split; [done|]. split; [apply Frame_refl|done].
  - rewrite guardOf_fresh by (by right).
    destruct (body_RunsFrom k fuel swagger c w) as (Hfuel & HF & Hv & Herr);
      try done; [by apply IH|by apply (IH KSchema)|].
    split; [done|]. intros _. apply Hv. rewrite entered_guarded by done.
    apply elem_of_union. left. by apply elem_of_singleton.
Qed.

Lemma then_Ready {swagger} n (m k : M unit) :
  (forall w, Ready n w -> RunsAt swagger m w) -> (forall w, Ready n w -> RunsAt swagger k w) ->
  forall w, Ready n w -> RunsAt swagger (m ;;; k) w.
Proof.
  intros Hm Hk w Hw. apply RunsAt_bind; [by apply Hm|].
  intros [] w1 Hrun. apply Hk, (Ready_Frame n w); [done|].
  apply (RunsAt_Frame (swagger := swagger) m w (Ok tt)); [by apply Hm|done].
Qed.

Lemma forEach_Ready {swagger A} n (l : list A) (f : A -> M unit) :
  (forall x w, Ready n w -> RunsAt swagger (f x) w) ->
  forall w, Ready n w -> RunsAt swagger (forEach l f) w.
Proof.
  intros Hf. apply (forEach_RunsAt (Ready n)); [apply Ready_Frame|].
  intros x w _. apply Hf.
Qed.

Lemma forRange_Ready {swagger A} n (m : option (gomap A)) (f : A -> M unit) :
  (forall x w, Ready n w -> RunsAt swagger (f x) w) ->
  forall w, Ready n w -> RunsAt swagger (forRange m f) w.
Proof.
  intros Hf. apply (forRange_RunsAt (Ready n)); [apply Ready_Frame|].
  intros entries key x w _ _. apply Hf.
Qed.

Lemma pending_size D w : pending D w <= size D.
Proof.
  unfold pending. apply subseteq_size. intros x. rewrite elem_of_filter. tauto.
Qed.

(** The pass, external references disabled, given more depth than the heap
    has Refs. *)
Lemma ResolveRefsIn_runs fuel swagger w :
  IsExternalRefsAllowed w = false -> size (dom (refs w)) < fuel ->
  fst (ResolveRefsIn (S fuel) swagger w) <> Fail OutOfFuel
  /\ Frame (set_visited (fun _ => ∅) w) (snd (ResolveRefsIn (S fuel) swagger w))
  /\ forall e, fst (ResolveRefsIn (S fuel) swagger w) = Fail (Err e) -> Blames swagger w e.
Proof.
  intros Hoff Hfuel. simpl.
  set (w0 := set_visited (fun _ => ∅) w).
  rewrite (bind_run (fun w1 => (Ok tt, set_visited (fun _ => ∅) w1)) _ w tt w0 eq_refl).
  assert (Ready fuel w0) as Hw0.
  { split; [done|]. pose proof (pending_size (dom (refs w)) w0).
    change (refs w0) with (refs w). lia. }
  assert (forall k c w1, k <> KExample -> Ready fuel w1 ->
            RunsAt swagger (resolveRef k fuel swagger c) w1) as Hres.
  { intros k c w1 Hk Hw1. by apply (resolveRef_Halts swagger fuel k Hk). }
  match goal with |- fst (?m w0) <> _ /\ _ => change (RunsAt swagger m w0) end.
  clearbody w0. revert w0 Hw0.
  repeat (apply then_Ready;
          [apply forRange_Ready; intros c w1 Hw1;
           first [ by apply (Hres KHeader) | by apply (Hres KParameter)
                 | by apply (Hres KRequestBody) | by apply (Hres KResponse)
                 | by apply (Hres KSchema) | by apply (Hres KSecurityScheme) ]|]).
  apply forRange_Ready. intros [pathItem|] w1 Hw1; [|apply RunsAt_ret].
  revert w1 Hw1. apply forEach_Ready. intros [method operation]. cbn [snd].
  apply then_Ready.
  { intros w2 Hw2. destruct (Operation_Parameters operation); [|apply RunsAt_ret].
    revert w2 Hw2. apply forEach_Ready. intros c w2 Hw2. by apply (Hres KParameter). }
  apply then_Ready.
  { intros w2 Hw2. destruct (Operation_RequestBody operation); [|apply RunsAt_ret].
    by apply (Hres KRequestBody). }
  apply forRange_Ready. intros c w2 Hw2. by apply (Hres KResponse).
Qed.

(** X7. With external references disabled the pass ends on every document
    and every heap, cyclic, dangling or ill-formed: the depth of its calls
    stays below the number of Ref structs in the heap plus two.  It
    returns nil, returns an error or panics. *)
Theorem ResolveRefsIn_terminates fuel swagger w :
  IsExternalRefsAllowed w = false -> size (dom (refs w)) + 1 < fuel ->
  fst (ResolveRefsIn fuel swagger w) <> Fail OutOfFuel.
Proof.
  intros Hoff Hfuel. destruct fuel as [|fuel]; [lia|].
  apply ResolveRefsIn_runs; [done|lia].
Qed.

(** X8. However the pass ends (nil, an error or a panic), with external
    references disabled it has written nothing but Value fields of Refs
    it visited: the values, the content types, the flag and the trace of
    loader calls are as before, no reference string has changed, and a
    Ref that is not in the visited set at the end is as it was. *)
Theorem ResolveRefsIn_frame fuel swagger w r w' :
  IsExternalRefsAllowed w = false -> size (dom (refs w)) + 1 < fuel ->
  ResolveRefsIn fuel swagger w = (r, w') ->
  Frame (set_visited (fun _ => ∅) w) w'.
Proof.
  intros Hoff Hfuel Hrun. destruct fuel as [|fuel]; [lia|].
  destruct (ResolveRefsIn_runs fuel swagger w) as (_ & HF & _); [done|lia|].
  by rewrite Hrun in HF.
Qed.

(** X9. With external references disabled, an error the pass returns is
    one of "Encountered non-allowed external reference", "Failed to
    resolve fragment in URI" and "Failed to resolve '...' in fragment in
    URI", and the reference string it names is the non-empty reference
    string of a Ref of the heap that names no entry of the table of its
    kind in the document. *)
Theorem ResolveRefsIn_error_names_reference fuel swagger w e w' :
  IsExternalRefsAllowed w = false -> size (dom (refs w)) + 1 < fuel ->
  ResolveRefsIn fuel swagger w = (Fail (Err e), w') ->
  Blames swagger w e.
Proof.
  intros Hoff Hfuel Hrun. destruct fuel as [|fuel]; [lia|].
  destruct (ResolveRefsIn_runs fuel swagger w) as (_ & _ & Herr); [done|lia|].
  apply Herr. by rewrite Hrun.
Qed.


(** X10. Each of the six guarded resolvers, external references disabled,
    ends on every Ref and every heap once it is given more depth than
    there are Refs not visited yet, and however it ends it has written
    only to Refs it visited for the first time.  (The Example resolver,
    which has no guard, does not: see C3.) *)
Theorem resolveRef_terminates k fuel swagger c w :
  k <> KExample ->
  IsExternalRefsAllowed w = false -> pending (dom (refs w)) w < fuel ->
  fst (resolveRef k fuel swagger c w) <> Fail OutOfFuel
  /\ Frame w (snd (resolveRef k fuel swagger c w)).
Proof.
  intros Hk Hoff Hfuel.
  destruct (resolveRef_Halts swagger fuel k Hk c w) as [(Hend & HF & _) _]; done.
Qed.

(** X11. External references disabled, a guarded resolver that has
    returned nil has marked its Ref: run again on the same Ref in the
    state it left, at any depth, it returns nil at once and changes
    nothing. *)
Theorem resolveRef_again k fuel fuel' swagger c w w' :
  k <> KExample ->
  IsExternalRefsAllowed w = false -> pending (dom (refs w)) w < fuel ->
  resolveRef k fuel swagger c w = (Ok tt, w') ->
  resolveRef k (S fuel') swagger c w' = (Ok tt, w').
Proof.
  intros Hk Hoff Hfuel Hrun.
  destruct (resolveRef_Halts swagger fuel k Hk c w) as [_ Hmark]; [done|].
  rewrite Hrun in Hmark. rewrite resolveRef_shape.
  apply guardOf_visited; [done|]. by apply Hmark.
Qed.

(** *** Documents whose references name definitions: the pass returns nil *)

Lemma Keeps_refl w : Keeps w w.
Proof. split; [apply Frame_refl|done]. Qed.

Lemma Keeps_trans w1 w2 w3 : Keeps w1 w2 -> Keeps w2 w3 -> Keeps w1 w3.
Proof.
  intros [F12 D12] [F23 D23]. split; [by apply (Frame_trans _ w2)|].
  intros k l o Ho He. apply D23; [|done]. by apply D12.
Qed.

Lemma Defines_Keeps w w' k l v : Keeps w w' -> Defines w k l v -> Defines w' k l v.
Proof.
  intros [_ HK] (o & Ho & He & Hv). exists o. split; [by apply HK|done].
Qed.

Lemma Denotes_Keeps swagger D w w' k l v :
  Keeps w w' -> Denotes swagger D w k l v -> Denotes swagger D w' k l v.
Proof.
  intros HK [Hdef|(o & target & Ho & HN & Hin & Hdef)].
  - left. by apply (Defines_Keeps w).
  - right. pose proof (frame_Ref _ _ (proj1 HK) k l) as HR. rewrite Ho in HR.
    destruct (refs w' !! (k, l)) as [o'|] eqn:Ho'; [|done]. injection HR as HR.
    exists o', target. rewrite HR. split; [done|]. split; [done|]. split; [done|].
    by apply (Defines_Keeps w).
Qed.

Lemma Names_nonempty swagger k ref target : Names swagger k ref target -> ref <> "".
Proof. intros (id & m & -> & _). by destruct k. Qed.

Lemma Denotes_functional swagger D w k l v v' :
  Denotes swagger D w k l v -> Denotes swagger D w k l v' -> v = v'.
Proof.
  intros [(o & Ho & He & Hv)|(o & t & Ho & HN & _ & o1 & Ho1 & _ & Hv)]
         [(o' & Ho' & He' & Hv')|(o' & t' & Ho' & HN' & _ & o1' & Ho1' & _ & Hv')].
  - congruence.
  - assert (o' = o) as -> by congruence.
    by destruct (Names_nonempty _ _ _ _ HN').
  - assert (o' = o) as -> by congruence.
    by destruct (Names_nonempty _ _ _ _ HN).
  - assert (o' = o) as -> by congruence.
    assert (t' = t) as -> by apply (Names_functional _ _ _ _ _ HN' HN).
    congruence.
Qed.

Lemma WfValue_Frame w w' D k v : Frame w w' -> WfValue w D k v -> WfValue w' D k v.
Proof.
  intros HF. destruct HF. unfold WfValue, WfContent.
  by rewrite frame_headers0, frame_parameters0, frame_requestBodies0,
    frame_responses0, frame_contentTypes0, frame_schemas0.
Qed.

Lemma Flat_Keeps swagger D w w' : Keeps w w' -> Flat swagger w D -> Flat swagger w' D.
Proof.
  intros HK HD k l Hin. destruct (HD k l Hin) as (v & Hv & Hwf).
  exists v. split; [by apply (Denotes_Keeps _ _ w)|].
  apply (WfValue_Frame w); [apply HK|done].
Qed.

Lemma Settles_refl swagger D w : Settles swagger D w w.
Proof. split; [apply Keeps_refl|]. by intros k l v Hin Hnot. Qed.

Lemma Settles_trans swagger D w1 w2 w3 :
  Settles swagger D w1 w2 -> Settles swagger D w2 w3 -> Settles swagger D w1 w3.
Proof.
  intros [K12 N12] [K23 N23]. split; [by apply (Keeps_trans _ w2)|].
  intros k l v Hin3 Hnot1 HD Hv.
  destruct (decide ((k, Some l) ∈ visited w2)) as [Hin2|Hnot2].
  - unfold valueOf, derefRef. rewrite (frame_refs _ _ (proj1 K23)) by (by left).
    by apply (N12 k l v).
  - apply (N23 k l v); try done. by apply (Denotes_Keeps _ _ w1).
Qed.

Lemma Sound_Settles swagger D n w w' :
  Sound swagger D n w -> Settles swagger D w w' -> Sound swagger D n w'.
Proof.
  intros (Hoff & HD & Hn) [HK _]. split; [|split].
  - by rewrite (frame_allowed _ _ (proj1 HK)).
  - by apply (Flat_Keeps _ _ w).
  - pose proof (pending_mono D w w' (frame_visited _ _ (proj1 HK))). lia.
Qed.

Lemma forEach_settles {A} swagger D (G : World -> Prop) (l : list A)
    (f : A -> M unit) :
  (forall w w', G w -> Settles swagger D w w' -> G w') ->
  (forall x w, x ∈ l -> G w ->
     exists w', f x w = (Ok tt, w') /\ Settles swagger D w w') ->
  forall w, G w -> exists w', forEach l f w = (Ok tt, w') /\ Settles swagger D w w'.
Proof.
  intros HG. induction l as [|x l IH]; intros Hf w Hw.
  - exists w. split; [done|apply Settles_refl].
  - destruct (Hf x w) as (w1 & Hx & H01); [left|done|].
    destruct (IH (fun y w Hy => Hf y w (list_elem_of_further _ _ _ Hy)) w1)
      as (w' & Hl & H1'); [by apply (HG w)|].
    exists w'. split; [|by apply (Settles_trans _ _ _ w1)].
    cbn [forEach]. by rewrite (bind_run _ _ _ _ _ Hx).
Qed.

Lemma forRange_settles {A} swagger D (G : World -> Prop) (m : option (gomap A))
    (f : A -> M unit) :
  (forall w w', G w -> Settles swagger D w w' -> G w') ->
  (forall entries key x w, m = Some entries -> (key, x) ∈ entries -> G w ->
     exists w', f x w = (Ok tt, w') /\ Settles swagger D w w') ->
  forall w, G w -> exists w', forRange m f w = (Ok tt, w') /\ Settles swagger D w w'.
Proof.
  intros HG Hf w Hw. destruct m as [entries|]; cbn.
  - apply (forEach_settles swagger D G); try done.
    intros [key x] w1 Hin. by apply (Hf entries key).
  - exists w. split; [done|apply Settles_refl].
Qed.

Lemma optional_settles swagger D n resolveSchema (schema : ptr) w :
  ResolvesOn swagger D KSchema n resolveSchema -> Sound swagger D n w ->
  OptionalRef D KSchema schema ->
  exists w',
    match schema with
    | None => ret tt
    | Some v => resolveSchema (Some v)
    end w = (Ok tt, w') /\ Settles swagger D w w'.
Proof.
  intros Hres Hw [->|(l & -> & Hin)].
  - exists w. split; [done|apply Settles_refl].
  - destruct (Hres (Some l) w Hw) as (w' & Hrun & HS & _); [by exists l|].
    by exists w'.
Qed.

Lemma WfContent_Frame w w' D nilAllowed content :
  Frame w w' -> WfContent w D nilAllowed content -> WfContent w' D nilAllowed content.
Proof.
  intros HF Hwf. unfold WfContent in *. by rewrite (frame_contentTypes _ _ HF).
Qed.

Lemma content_settles swagger D n nilAllowed content w1 w2 :
  Sound swagger D n w1 /\ WfContent w1 D nilAllowed content ->
  Settles swagger D w1 w2 ->
  Sound swagger D n w2 /\ WfContent w2 D nilAllowed content.
Proof.
  intros [Hs Hc] HS. split; [by apply (Sound_Settles _ _ _ w1)|].
  apply (WfContent_Frame w1); [apply HS|done].
Qed.

(** The descent into a well-formed value. *)
Lemma descendOf_settles swagger D n resolveSchema k lc o w :
  ResolvesOn swagger D KSchema n resolveSchema -> Sound swagger D n w ->
  refs w !! (k, lc) = Some o -> WfValue w D k (Value o) ->
  exists w', descendOf k resolveSchema (Some lc) w = (Ok tt, w')
    /\ Settles swagger D w w'.
Proof.
  intros Hres Hw Ho Hwf.
  assert (forall w0, exists w', ret tt w0 = (Ok tt, w') /\ Settles swagger D w0 w')
    as Hret.
  { intros w0. exists w0. split; [done|apply Settles_refl]. }
  destruct k; cbn [descendOf]; try apply Hret.
  - unfold descendHeader. rewrite (bind_run _ _ w o w); [|by apply loadRef_run].
    destruct Hwf as [Hv|(lv & h & Hv & Hh & Hs)]; rewrite Hv; [apply Hret|].
    rewrite (bind_run _ _ w h w); [|by apply loadFrom_run].
    by apply (optional_settles swagger D n).
  - unfold descendParameter. rewrite (bind_run _ _ w o w); [|by apply loadRef_run].
    destruct Hwf as [Hv|(lv & h & Hv & Hh & Hs)]; rewrite Hv; [apply Hret|].
    rewrite (bind_run _ _ w h w); [|by apply loadFrom_run].
    by apply (optional_settles swagger D n).
  - unfold descendRequestBody. rewrite (bind_run _ _ w o w); [|by apply loadRef_run].
    destruct Hwf as [Hv|(lv & b & Hv & Hb & Hcontent)]; rewrite Hv; [apply Hret|].
    rewrite (bind_run _ _ w b w); [|by apply loadFrom_run].
    apply (forRange_settles swagger D
             (fun w1 => Sound swagger D n w1
                        /\ WfContent w1 D false (RequestBody_Content b)));
      [apply content_settles| |done].
    intros m key contentType w1 Hm Hentry [Hs1 Hc1].
    destruct (Hc1 m key contentType Hm Hentry)
      as [[[=] _]|(lct & ct & -> & Hct & Hschema)].
    rewrite (bind_run _ _ w1 ct w1); [|by apply loadFrom_run].
    by apply (optional_settles swagger D n).
  - unfold descendResponse. rewrite (bind_run _ _ w o w); [|by apply loadRef_run].
    destruct Hwf as [Hv|(lv & b & Hv & Hb & Hcontent)]; rewrite Hv; [apply Hret|].
    rewrite (bind_run _ _ w b w); [|by apply loadFrom_run].
    apply (forRange_settles swagger D
             (fun w1 => Sound swagger D n w1
                        /\ WfContent w1 D true (Response_Content b)));
      [apply content_settles| |done].
    intros m key contentType w1 Hm Hentry [Hs1 Hc1].
    destruct (Hc1 m key contentType Hm Hentry)
      as [[_ ->]|(lct & ct & -> & Hct & Hschema)]; [apply Hret|].
    rewrite (bind_run _ _ w1 ct w1); [|by apply loadFrom_run].
    destruct (ContentType_Schema ct) as [schema|] eqn:Hs; [|apply Hret].
    destruct Hschema as [[=]|(l & [= <-] & Hl)].
    destruct (Hres (Some schema) w1 Hs1) as (w2 & Hrun & HS & _); [by exists schema|].
    exists w2. split; [|done].
    rewrite (bind_run _ _ w1 tt w2 Hrun). rewrite <- Hs.
    apply storeContentTypeSchema_run.
    by rewrite (frame_contentTypes _ _ (proj1 (proj1 HS))).
  - destruct Hwf as (lv & sch & Hv & Hsch & Hi & Hp & Ha).
    unfold descendSchema. rewrite (bind_run _ _ w o w); [|by apply loadRef_run].
    rewrite Hv. rewrite (bind_run _ _ w sch w); [|by apply loadFrom_run].
    destruct (optional_settles swagger D n resolveSchema (Items sch) w Hres Hw Hi)
      as (wa & Hruna & HSa).
    rewrite (bind_run _ _ w tt wa Hruna).
    pose proof (Sound_Settles _ _ _ _ _ Hw HSa) as Hwa.
    destruct (forRange_settles swagger D (Sound swagger D n) (Properties sch)
                (fun v => resolveSchema v) (Sound_Settles swagger D n)) with (w := wa)
      as (wb & Hrunb & HSb); [|done|].
    { intros m key p w1 Hm Hentry Hw1.
      destruct (Hres p w1 Hw1) as (w2 & Hrun & HS & _); [by apply (Hp m key)|].
      by exists w2. }
    rewrite (bind_run _ _ wa tt wb Hrunb).
    pose proof (Sound_Settles _ _ _ _ _ Hwa HSb) as Hwb.
    destruct (optional_settles swagger D n resolveSchema (AdditionalProperties sch) wb
                Hres Hwb Ha) as (wc & Hrunc & HSc).
    exists wc. split; [done|].
    apply (Settles_trans _ _ _ wa); [done|]. by apply (Settles_trans _ _ _ wb).
Qed.

(** Each guarded resolver on a Ref of such a document. *)
Lemma resolveRef_resolves swagger D n :
  forall k, k <> KExample -> ResolvesOn swagger D k n (resolveRef k n swagger).
Proof.
  induction n as [|fuel IH]; intros k Hk c w (Hoff & HD & Hn) (lc & -> & Hin); [lia|].
  rewrite resolveRef_shape.
  destruct (decide ((k, Some lc) ∈ visited w)) as [Hvis|Hfresh].
  { rewrite guardOf_visited by done. exists w. split; [done|].
    split; [apply Settles_refl|done]. }
  rewrite guardOf_fresh by (by right). rewrite entered_guarded by done.
  set (w1 := set_visited (fun s => {[ (k, Some lc) ]} ∪ s) w).
  assert (forall x, x ∈ visited w1 <-> x = (k, Some lc) \/ x ∈ visited w) as Hmark.
  { intros x. cbn. by rewrite elem_of_union, elem_of_singleton. }
  assert (Keeps w w1) as K01.
  { split; [|done]. split; try done. apply union_subseteq_r. }
  assert (pending D w1 < fuel) as Hn1.
  { pose proof (pending_mark D k lc w Hin Hfresh) as Hlt.
    change (pending D w1 < pending D w) in Hlt. lia. }
  assert (Sound swagger D fuel w1) as Hw1.
  { split; [done|]. split; [by apply (Flat_Keeps _ _ w)|done]. }
  assert (Halts := IH KSchema ltac:(discriminate)).
  destruct (HD k lc Hin) as (v & Hv & Hwf).
  destruct Hv as [(o & Ho & He & Hval)|(o & target & Ho & HN & Htin & ot & Hot & Het & Hvt)].
  - (* a definition *)
    rewrite (bind_run _ _ w1 tt w1).
    2: { unfold flattenWith. rewrite (bind_run _ _ w1 o w1); [|by apply loadRef_run].
         by rewrite He. }
    destruct (descendOf_settles swagger D fuel (resolveSchemaRef fuel swagger)
                k lc o w1) as (w' & Hrun & HS); try done.
    { rewrite Hval. apply (WfValue_Frame w); [apply K01|done]. }
    exists w'. split; [done|]. split.
    + apply (Settles_trans _ _ _ w1); [|done]. split; [done|].
      intros k' l' v' Hin' Hnot' _ Hv'. apply Hmark in Hin' as [[= -> ->]|?]; [|done].
      unfold valueOf. cbn. rewrite Ho. cbn. f_equal.
      apply (Denotes_functional swagger D w k lc); [|done].
      left. by exists o.
    + apply (frame_visited _ _ (proj1 (proj1 HS))), Hmark. by left.
  - (* a reference to a definition *)
    pose proof (Names_nonempty _ _ _ _ HN) as Hne.
    destruct HN as (id & definitions & Href & Hflat & Htable & Hindex).
    destruct fuel as [|fuel']; [lia|].
    destruct (IH k Hk (Some target) w1 Hw1) as (w2 & Hcall & [K12 N12] & Htv);
      [by exists target|].
    assert (refs w2 !! (k, target) = Some ot) as Hot2.
    { apply (proj2 K12); [|done]. by apply (proj2 K01). }
    assert (refs w2 !! (k, lc) = Some o) as Ho2.
    { rewrite (frame_refs _ _ (proj1 K12)); [done|]. left. apply Hmark. by left. }
    set (o3 := {| Ref := Ref o; Value := Value ot |}).
    set (w3 := set_refs (insert (k, lc) o3) w2).
    assert (storeValue k (Some lc) (Value ot) w2 = (Ok tt, w3)) as Hstore.
    { unfold storeValue. by rewrite Ho2. }
    rewrite (bind_run _ _ w1 tt w3).
    2: { unfold flattenWith. rewrite (bind_run _ _ w1 o w1); [|by apply loadRef_run].
         rewrite (proj2 (nonEmpty_true _) Hne).
         rewrite (bind_run _ _ w1 (Swagger_Components swagger, id) w1).
         2: { rewrite resolveComponent_local; [|rewrite Href; apply kindPrefix_local].
              rewrite Href. by rewrite locateIn_flat. }
         cbn [fst snd]. rewrite Htable, Hindex.
         rewrite (bind_run _ _ w1 tt w2 Hcall).
         rewrite (bind_run _ _ w2 ot w2); [done|by apply loadRef_run]. }
    assert (Keeps w w2) as K02 by (by apply (Keeps_trans _ w1)).
    destruct (storeValue_Frame k lc (Value ot) w w2 w3) as (F03 & Hv3 & _); try done.
    { apply (frame_visited _ _ (proj1 K12)), Hmark. by left. }
    { apply K02. }
    assert (forall k' l', (k', l') <> (k, lc) -> refs w3 !! (k', l') = refs w2 !! (k', l'))
      as Hother.
    { intros k' l' Hneq. cbn. by rewrite lookup_insert_ne. }
    assert (Keeps w w3) as K03.
    { split; [done|]. intros k' l' o' Ho' He'.
      rewrite Hother; [by apply (proj2 K02)|]. intros [= -> ->]. congruence. }
    assert (Settles swagger D w w3) as S03.
    { split; [done|]. intros k' l' v' Hin' Hnot' HD' Hv'. rewrite Hv3 in Hin'.
      destruct (decide ((k', l') = (k, lc))) as [[= -> ->]|Hneq].
      - unfold valueOf. cbn. rewrite lookup_insert_eq. cbn. f_equal. rewrite Hvt.
        apply (Denotes_functional swagger D w k lc); [|done].
        right. exists o, target. split; [done|]. split; [|split; [done|by exists ot]].
        by exists id, definitions.
      - unfold valueOf, derefRef. rewrite Hother by done.
        apply (N12 k' l' v'); try done.
        intros Hx. apply Hmark in Hx as [[= -> ->]|?]; done. }
    assert (Sound swagger D (S fuel') w3) as Hw3.
    { split; [by rewrite (frame_allowed _ _ F03)|]. split; [by apply (Flat_Keeps _ _ w)|].
      assert (visited w1 ⊆ visited w3) as Hsub.
      { rewrite Hv3. apply (frame_visited _ _ (proj1 K12)). }
      pose proof (pending_mono D w1 w3 Hsub). lia. }
    destruct (descendOf_settles swagger D (S fuel') (resolveSchemaRef (S fuel') swagger)
                k lc o3 w3) as (w' & Hrun & HS); try done.
    { cbn. by rewrite lookup_insert_eq. }
    { cbn [Value o3]. rewrite Hvt. apply (WfValue_Frame w); done. }
    exists w'. split; [done|]. split; [by apply (Settles_trans _ _ _ w3)|].
    apply (frame_visited _ _ (proj1 (proj1 HS))). rewrite Hv3.
    apply (frame_visited _ _ (proj1 K12)), Hmark. by left.
Qed.

Lemma forEach_settles_post {A} swagger D (G : World -> Prop) (Q : A -> World -> Prop)
    (l : list A) (f : A -> M unit) :
  (forall w w', G w -> Settles swagger D w w' -> G w') ->
  (forall x w w', Q x w -> Settles swagger D w w' -> Q x w') ->
  (forall x w, x ∈ l -> G w ->
     exists w', f x w = (Ok tt, w') /\ Settles swagger D w w' /\ Q x w') ->
  forall w, G w ->
    exists w', forEach l f w = (Ok tt, w') /\ Settles swagger D w w'
      /\ forall x, x ∈ l -> Q x w'.
Proof.
  intros HG HQ. induction l as [|x l IH]; intros Hf w Hw.
  - exists w. split; [done|]. split; [apply Settles_refl|].
    intros x Hx. by apply not_elem_of_nil in Hx.
  - destruct (Hf x w) as (w1 & Hx & H01 & Q1); [left|done|].
    destruct (IH (fun y w Hy => Hf y w (list_elem_of_further _ _ _ Hy)) w1)
      as (w' & Hl & H1' & Qs); [by apply (HG w)|].
    exists w'. split; [|split; [by apply (Settles_trans _ _ _ w1)|]].
    + cbn [forEach]. by rewrite (bind_run _ _ _ _ _ Hx).
    + intros y Hy. apply elem_of_cons in Hy as [->|Hy]; [|by apply Qs].
      by apply (HQ x w1).
Qed.

Lemma forRange_settles_post {A} swagger D (G : World -> Prop)
    (Q : A -> World -> Prop) (m : option (gomap A)) (f : A -> M unit) :
  (forall w w', G w -> Settles swagger D w w' -> G w') ->
  (forall x w w', Q x w -> Settles swagger D w w' -> Q x w') ->
  (forall entries key x w, m = Some entries -> (key, x) ∈ entries -> G w ->
     exists w', f x w = (Ok tt, w') /\ Settles swagger D w w' /\ Q x w') ->
  forall w, G w ->
    exists w', forRange m f w = (Ok tt, w') /\ Settles swagger D w w'
      /\ forall entries key x, m = Some entries -> (key, x) ∈ entries -> Q x w'.
Proof.
  intros HG HQ Hf w Hw. destruct m as [entries|]; cbn.
  - destruct (forEach_settles_post swagger D G (fun kv => Q (snd kv)) entries
                (fun kv => f (snd kv)) HG) with (w := w) as (w' & Hrun & HS & Hall);
      try done.
    + intros kv. apply HQ.
    + intros [key x] w1 Hin. by apply (Hf entries key).
    + exists w'. split; [done|]. split; [done|].
      intros ? key x [= <-] Hin. apply (Hall _ Hin).
  - exists w. split; [done|]. split; [apply Settles_refl|done].
Qed.

Lemma Settles_visited swagger D w w' x :
  x ∈ visited w -> Settles swagger D w w' -> x ∈ visited w'.
Proof. intros Hx HS. by apply (frame_visited _ _ (proj1 (proj1 HS))). Qed.

Lemma table_settles swagger D k n (m : option (gomap ptr)) w :
  k <> KExample -> kindTable k (Swagger_Components swagger) = m ->
  RootsIn swagger D -> Sound swagger D n w ->
  exists w',
    forRange m (fun component => resolveRef k n swagger component) w = (Ok tt, w')
    /\ Settles swagger D w w'
    /\ forall entries key p, m = Some entries -> (key, p) ∈ entries ->
         (k, p) ∈ visited w'.
Proof.
  intros Hk Hm Hroots Hw.
  apply (forRange_settles_post swagger D (Sound swagger D n)
           (fun p w => (k, p) ∈ visited w)); [apply Sound_Settles| | |done].
  - intros p w1 w2. apply Settles_visited.
  - intros entries key p w1 Hentries Hin Hw1.
    apply (resolveRef_resolves swagger D n k Hk); [done|].
    apply Hroots. apply (Root_table _ k entries key); [done|congruence|done].
Qed.

Lemma OperationVisited_Settles swagger D operation w w' :
  OperationVisited operation w -> Settles swagger D w w' ->
  OperationVisited operation w'.
Proof.
  intros (Hp & Hb & Hr) HS. split; [|split].
  - intros parameters p Hps Hin. apply (Settles_visited swagger D w); [|done].
    by apply (Hp parameters).
  - intros l Hl. apply (Settles_visited swagger D w); [|done]. by apply Hb.
  - intros m key p Hm Hin. apply (Settles_visited swagger D w); [|done].
    by apply (Hr m key).
Qed.

Lemma operation_settles swagger D fuel paths path item method operation w :
  RootsIn swagger D ->
  Paths swagger = Some paths -> (path, Some item) ∈ paths ->
  (method, operation) ∈ Operations item ->
  Sound swagger D fuel w ->
  exists w',
    (match Operation_Parameters operation with
     | None => ret tt
     | Some parameters =>
         forEach parameters (fun parameter =>
           resolveParameterRef fuel swagger parameter)
     end ;;;
     match Operation_RequestBody operation with
     | None => ret tt
     | Some requestBody => resolveRequestBodyRef fuel swagger (Some requestBody)
     end ;;;
     forRange (Operation_Responses operation)
       (fun response => resolveResponseRef fuel swagger response)) w = (Ok tt, w')
    /\ Settles swagger D w w' /\ OperationVisited operation w'.
Proof.
  intros Hroots Hpaths Hitem Hop Hw.
  assert (exists wa,
    match Operation_Parameters operation with
    | None => ret tt
    | Some parameters =>
        forEach parameters (fun parameter =>
          resolveParameterRef fuel swagger parameter)
    end w = (Ok tt, wa) /\ Settles swagger D w wa
    /\ forall parameters p, Operation_Parameters operation = Some parameters ->
         p ∈ parameters -> (KParameter, p) ∈ visited wa) as (wa & Hruna & HSa & Va).
  { destruct (Operation_Parameters operation) as [parameters|] eqn:Hps.
    - destruct (forEach_settles_post swagger D (Sound swagger D fuel)
                  (fun p w => (KParameter, p) ∈ visited w) parameters
                  (fun parameter => resolveParameterRef fuel swagger parameter)
                  (Sound_Settles swagger D fuel)) with (w := w)
        as (wa & Hrun & HS & Hall); try done.
      + intros p w1 w2. apply Settles_visited.
      + intros p w1 Hin Hw1.
        apply (resolveRef_resolves swagger D fuel KParameter); [done|done|].
        apply Hroots.
        by apply (Root_parameter _ paths path item method operation parameters).
      + exists wa. split; [done|]. split; [done|].
        intros ? p [= <-] Hin. by apply Hall.
    - exists w. split; [done|]. split; [apply Settles_refl|done]. }
  rewrite (bind_run _ _ w tt wa Hruna).
  pose proof (Sound_Settles _ _ _ _ _ Hw HSa) as Hwa.
  assert (exists wb,
    match Operation_RequestBody operation with
    | None => ret tt
    | Some requestBody => resolveRequestBodyRef fuel swagger (Some requestBody)
    end wa = (Ok tt, wb) /\ Settles swagger D wa wb
    /\ forall l, Operation_RequestBody operation = Some l ->
         (KRequestBody, Some l) ∈ visited wb) as (wb & Hrunb & HSb & Vb).
  { destruct (Operation_RequestBody operation) as [requestBody|] eqn:Hbody.
    - destruct (resolveRef_resolves swagger D fuel KRequestBody ltac:(discriminate)
                  (Some requestBody) wa Hwa) as (wb & Hrun & HS & Hv).
      + apply Hroots. by apply (Root_requestBody _ paths path item method operation).
      + exists wb. split; [done|]. split; [done|]. by intros ? [= <-].
    - exists wa. split; [done|]. split; [apply Settles_refl|done]. }
  rewrite (bind_run _ _ wa tt wb Hrunb).
  pose proof (Sound_Settles _ _ _ _ _ Hwa HSb) as Hwb.
  destruct (forRange_settles_post swagger D (Sound swagger D fuel)
              (fun p w => (KResponse, p) ∈ visited w) (Operation_Responses operation)
              (fun response => resolveResponseRef fuel swagger response)
              (Sound_Settles swagger D fuel)) with (w := wb)
    as (wc & Hrunc & HSc & Vc); try done.
  { intros p w1 w2. apply Settles_visited. }
  { intros m key p w1 Hm Hin Hw1.
    apply (resolveRef_resolves swagger D fuel KResponse); [done|done|].
    apply Hroots. by apply (Root_response _ paths path item method operation m key). }
  exists wc. split; [done|]. split.
  { apply (Settles_trans _ _ _ wa); [done|]. by apply (Settles_trans _ _ _ wb). }
  split; [|split].
  - intros parameters p Hps Hin. apply (Settles_visited swagger D wb); [|done].
    apply (Settles_visited swagger D wa); [|done]. by apply (Va parameters).
  - intros l Hl. apply (Settles_visited swagger D wb); [|done]. by apply Vb.
  - intros m key p Hm Hin. by apply (Vc m key).
Qed.

(** The pass on such a document. *)
Lemma ResolveRefsIn_settles D swagger w fuel :
  IsExternalRefsAllowed w = false ->
  Flat swagger w D -> RootsIn swagger D -> size D + 1 < fuel ->
  exists w', ResolveRefsIn fuel swagger w = (Ok tt, w')
    /\ (forall k p, Root swagger k p -> (k, p) ∈ visited w')
    /\ (forall k l v, (k, Some l) ∈ visited w' -> (k, l) ∈ D ->
          Denotes swagger D w k l v -> valueOf k (Some l) w' = Some v)
    /\ Keeps (set_visited (fun _ => ∅) w) w'.
Proof.
  intros Hoff HD Hroots Hfuel. destruct fuel as [|fuel]; [lia|].
  simpl.
  set (w0 := set_visited (fun _ => ∅) w).
  rewrite (bind_run (fun w1 => (Ok tt, set_visited (fun _ => ∅) w1)) _ w tt w0 eq_refl).
  assert (Sound swagger D fuel w0) as Hw0.
  { split; [done|]. split; [done|]. pose proof (pending_size D w0). lia. }
  destruct (table_settles swagger D KHeader fuel
              (Headers (Swagger_Components swagger)) w0) as (w1 & R1 & S1 & V1);
    try done.
  rewrite (bind_run _ _ w0 tt w1 R1).
  pose proof (Sound_Settles _ _ _ _ _ Hw0 S1) as Hw1.
  destruct (table_settles swagger D KParameter fuel
              (Parameters_ (Swagger_Components swagger)) w1) as (w2 & R2 & S2 & V2);
    try done.
  rewrite (bind_run _ _ w1 tt w2 R2).
  pose proof (Sound_Settles _ _ _ _ _ Hw1 S2) as Hw2.
  destruct (table_settles swagger D KRequestBody fuel
              (RequestBodies (Swagger_Components swagger)) w2) as (w3 & R3 & S3 & V3);
    try done.
  rewrite (bind_run _ _ w2 tt w3 R3).
  pose proof (Sound_Settles _ _ _ _ _ Hw2 S3) as Hw3.
  destruct (table_settles swagger D KResponse fuel
              (Responses (Swagger_Components swagger)) w3) as (w4 & R4 & S4 & V4);
    try done.
  rewrite (bind_run _ _ w3 tt w4 R4).
  pose proof (Sound_Settles _ _ _ _ _ Hw3 S4) as Hw4.
  destruct (table_settles swagger D KSchema fuel
              (Schemas (Swagger_Components swagger)) w4) as (w5 & R5 & S5 & V5);
    try done.
  rewrite (bind_run _ _ w4 tt w5 R5).
  pose proof (Sound_Settles _ _ _ _ _ Hw4 S5) as Hw5.
  destruct (table_settles swagger D KSecurityScheme fuel
              (SecuritySchemes (Swagger_Components swagger)) w5)
    as (w6 & R6 & S6 & V6); try done.
  rewrite (bind_run _ _ w5 tt w6 R6).
  pose proof (Sound_Settles _ _ _ _ _ Hw5 S6) as Hw6.
  match goal with |- exists w', forRange ?m ?f w6 = _ /\ _ =>
    destruct (forRange_settles_post swagger D (Sound swagger D fuel) PathItemVisited
                m f (Sound_Settles swagger D fuel)) with (w := w6)
      as (w7 & R7 & S7 & V7); [| |done|]
  end.
  { intros x wa wb Hx HS item method operation Hi Hin.
    apply (OperationVisited_Settles swagger D _ wa); [|done]. by apply (Hx item method). }
  { intros paths path pathItem wa Hpaths Hin Hwa.
    destruct pathItem as [item|].
    - destruct (forEach_settles_post swagger D (Sound swagger D fuel)
                  (fun kv => OperationVisited (snd kv)) (Operations item)
                  (fun kv =>
                     match Operation_Parameters kv.2 with
                     | Some parameters =>
                         forEach parameters (fun parameter =>
                           resolveParameterRef fuel swagger parameter)
                     | None => ret tt
                     end ;;;
                     match Operation_RequestBody kv.2 with
                     | Some requestBody =>
                         resolveRequestBodyRef fuel swagger (Some requestBody)
                     | None => ret tt
                     end ;;;
                     forRange (Operation_Responses kv.2)
                       (fun response => resolveResponseRef fuel swagger response))
                  (Sound_Settles swagger D fuel)) with (w := wa)
        as (wb & Hrun & HS & Hall); try done.
      + intros kv. apply OperationVisited_Settles.
      + intros [method operation] wb Hop Hwb.
        by apply (operation_settles swagger D fuel paths path item method).
      + exists wb. split; [done|]. split; [done|].
        intros item' method operation [= <-] Hop. apply (Hall _ Hop).
    - exists wa. split; [done|]. split; [apply Settles_refl|].
      by intros item method operation [=]. }
  assert (Settles swagger D w6 w7) as S67 by done.
  assert (Settles swagger D w5 w7) as S57 by (by apply (Settles_trans _ _ _ w6)).
  assert (Settles swagger D w4 w7) as S47 by (by apply (Settles_trans _ _ _ w5)).
  assert (Settles swagger D w3 w7) as S37 by (by apply (Settles_trans _ _ _ w4)).
  assert (Settles swagger D w2 w7) as S27 by (by apply (Settles_trans _ _ _ w3)).
  assert (Settles swagger D w1 w7) as S17 by (by apply (Settles_trans _ _ _ w2)).
  assert (Settles swagger D w0 w7) as [K07 N07] by (by apply (Settles_trans _ _ _ w1)).
  exists w7. split; [done|]. split; [|split; [|done]].
  - intros k p HR.
    destruct HR as [k m key p Hk Hm Hin
                   |paths path item method operation parameters p Hpaths Hitem Hop Hps Hin
                   |paths path item method operation l Hpaths Hitem Hop Hbody
                   |paths path item method operation m key p Hpaths Hitem Hop Hm Hin].
    + destruct k; cbn in Hm.
      * apply (Settles_visited swagger D w1); [|done]. by apply (V1 m key).
      * apply (Settles_visited swagger D w2); [|done]. by apply (V2 m key).
      * apply (Settles_visited swagger D w3); [|done]. by apply (V3 m key).
      * apply (Settles_visited swagger D w4); [|done]. by apply (V4 m key).
      * apply (Settles_visited swagger D w5); [|done]. by apply (V5 m key).
      * apply (Settles_visited swagger D w6); [|done]. by apply (V6 m key).
      * done.
    + destruct (V7 paths path (Some item) Hpaths Hitem item method operation eq_refl Hop)
        as (Hp & _ & _). by apply (Hp parameters).
    + destruct (V7 paths path (Some item) Hpaths Hitem item method operation eq_refl Hop)
        as (_ & Hb & _). by apply Hb.
    + destruct (V7 paths path (Some item) Hpaths Hitem item method operation eq_refl Hop)
        as (_ & _ & Hr). by apply (Hr m key).
  - intros k l v Hin HinD Hv. by apply (N07 k l v).
Qed.

(** X12. A document in which every reference string names a definition
    (an entry of the table of its kind that has no reference string), with
    well-formed values and external references disabled, is resolved
    without error, given any depth above the number of its Refs plus one.
    Afterwards every Ref the walk starts from is visited; every visited
    Ref of the document holds the value it stands for (its own, or the
    one of the definition it names); definitions are as they were, and
    nothing but Value fields of referring Refs has been written. *)
Theorem ResolveRefsIn_flat_document D swagger w fuel :
  IsExternalRefsAllowed w = false ->
  Flat swagger w D -> RootsIn swagger D -> size D + 1 < fuel ->
  exists w', ResolveRefsIn fuel swagger w = (Ok tt, w')
    /\ (forall k p, Root swagger k p -> (k, p) ∈ visited w')
    /\ (forall k l v, (k, Some l) ∈ visited w' -> (k, l) ∈ D ->
          Denotes swagger D w k l v -> valueOf k (Some l) w' = Some v)
    /\ Keeps (set_visited (fun _ => ∅) w) w'.
Proof. apply ResolveRefsIn_settles. Qed.

(** X13. In such a document, a guarded resolver run on a Ref it has not
    visited returns nil, given more depth than Refs are still to be
    visited, and leaves in the Ref the value it stands for: for a Ref with
    a reference string, the Value of the definition the string names.
    Definitions are as they were. *)
Theorem resolveRef_flattens_reference k fuel D swagger lc w v :
  k <> KExample ->
  IsExternalRefsAllowed w = false ->
  Flat swagger w D -> pending D w < fuel ->
  (k, lc) ∈ D -> (k, Some lc) ∉ visited w ->
  Denotes swagger D w k lc v ->
  exists w', resolveRef k fuel swagger (Some lc) w = (Ok tt, w')
    /\ valueOf k (Some lc) w' = Some v
    /\ Keeps w w'.
Proof.
  intros Hk Hoff HD Hn Hin Hfresh Hv.
  destruct (resolveRef_resolves swagger D fuel k Hk (Some lc) w)
    as (w' & Hrun & [HK Hnew] & Hvis); [done|by exists lc|].
  exists w'. split; [done|]. split; [|done]. by apply (Hnew k lc v).
Qed.

(** X14. The Example resolver flattens a reference string made of
    "#/components/examples" (no '/' after it) and the key of a definition
    in the Examples table: it returns nil and the only write is the Value
    of the definition, copied into the referring Ref.  Nothing is marked
    visited. *)
Theorem resolveExampleRef_flattens fuel swagger lc w o id definitions target ot :
  refs w !! (KExample, lc) = Some o ->
  Ref o = "#/components/examples" ++ id -> ~ occursIn "/" id ->
  Examples (Swagger_Components swagger) = Some definitions ->
  mapIndex definitions id = Some target ->
  refs w !! (KExample, target) = Some ot -> Ref ot = "" ->
  resolveExampleRef (3 + fuel) swagger (Some lc) w
  = (Ok tt, set_refs (insert (KExample, lc) {| Ref := Ref o; Value := Value ot |}) w).
Proof.
  intros Ho Href Hflat Htable Hindex Hot Het.
  change (3 + fuel) with (S (S (S fuel))).
  rewrite resolveExampleRef_shape. unfold flattenWith.
  rewrite (bind_run _ _ w o w); [|by apply loadRef_run].
  assert (nonEmpty (Ref o) = true) as -> by (by rewrite Href).
  rewrite (bind_run _ _ w (Swagger_Components swagger, id) w).
  2: { rewrite resolveComponent_local by (by rewrite Href). rewrite Href.
       change "#/components/examples" with (kindPrefix KExample).
       by rewrite locateIn_flat. }
  cbn [fst snd kindTable]. rewrite Htable, Hindex.
  rewrite (bind_run _ _ w tt w).
  2: { rewrite resolveExampleRef_shape. unfold flattenWith.
       rewrite (bind_run _ _ w ot w); [|by apply loadRef_run]. by rewrite Het. }
  rewrite (bind_run _ _ w ot w); [|by apply loadRef_run].
  unfold storeValue. by rewrite Ho.
Qed.

(** *** The loaders *)

(** X15. [LoadSwaggerFromFile] on a path does what [LoadSwaggerFromURI]
    does on the URL that has this path and nothing else: the same call of
    the loader function when one is set, the same file read and the same
    decoding and pass otherwise (the test on scheme, host and query never
    fires for such a URL).  The states differ by the record of the
    location alone, which only [LoadSwaggerFromURI] keeps. *)
Theorem LoadSwaggerFromFile_as_URI fuel path w :
  LoadSwaggerFromURI (S fuel)
    {| Scheme := ""; Host := ""; Path := path; RawQuery := ""; Fragment := "" |} w
  = LoadSwaggerFromFile (S fuel) path
      (set_loaderCalls
         (fun t => (t ++ [ {| Scheme := ""; Host := ""; Path := path;
                              RawQuery := ""; Fragment := "" |} ])%list) w).
Proof.
  simpl. unfold bind at 1. by destruct LoadSwaggerFromURIFunc.
Qed.

(** X16. With no loader function set, [LoadSwaggerFromURI] on a location
    that has only a path reads the file, decodes it and runs the pass:
    when the file is read and decoded into a document in which every
    reference names a definition, it returns that document, resolved (as
    in X12). *)
Theorem LoadSwaggerFromURI_flat_document D fuel location data swagger w w1 w2 :
  LoadSwaggerFromURIFunc = None ->
  Scheme location = "" -> Host location = "" -> RawQuery location = "" ->
  ioutil_ReadFile (Path location)
    (set_loaderCalls (fun t => (t ++ [location])%list) w) = (Ok data, w1) ->
  json_Unmarshal data w1 = (Ok swagger, w2) ->
  IsExternalRefsAllowed w2 = false ->
  Flat swagger w2 D -> RootsIn swagger D -> size D + 3 < fuel ->
  exists w', LoadSwaggerFromURI fuel location w = (Ok swagger, w')
    /\ (forall k p, Root swagger k p -> (k, p) ∈ visited w')
    /\ (forall k l v, (k, Some l) ∈ visited w' -> (k, l) ∈ D ->
          Denotes swagger D w2 k l v -> valueOf k (Some l) w' = Some v)
    /\ Keeps (set_visited (fun _ => ∅) w2) w'.
Proof.
  intros Hnil Hscheme Hhost Hquery Hread Hjson Hoff HD Hroots Hfuel.
  destruct fuel as [|[|fuel]]; [lia|lia|].
  destruct (ResolveRefsIn_settles D swagger w2 fuel) as (w' & Hrun & Hpost);
    [done|done|done|lia|].
  exists w'. split; [|done].
  simpl LoadSwaggerFromURI. unfold bind at 1. rewrite Hnil, Hscheme, Hhost, Hquery.
  cbn [nonEmpty String.length Nat.ltb Nat.leb orb].
  rewrite (bind_run _ _ _ _ _ Hread).
  rewrite (bind_run _ _ _ _ _ Hjson).
  by rewrite (bind_run _ _ _ _ _ Hrun).
Qed.

(** X17. On such a document the pass can be run again: the second pass
    returns nil too, and a Ref of the document visited by both holds the
    same value after the second as after the first. *)
Theorem ResolveRefsIn_twice D swagger w fuel :
  IsExternalRefsAllowed w = false ->
  Flat swagger w D -> RootsIn swagger D -> size D + 1 < fuel ->
  exists w' w'',
    ResolveRefsIn fuel swagger w = (Ok tt, w')
    /\ ResolveRefsIn fuel swagger w' = (Ok tt, w'')
    /\ forall k l, (k, l) ∈ D ->
         (k, Some l) ∈ visited w' -> (k, Some l) ∈ visited w'' ->
         valueOf k (Some l) w'' = valueOf k (Some l) w'.
Proof.
  intros Hoff HD Hroots Hfuel.
  destruct (ResolveRefsIn_settles D swagger w fuel)
    as (w' & Hrun & _ & Hval & HK); try done.
  set (w0 := set_visited (fun _ => ∅) w) in HK.
  destruct (ResolveRefsIn_settles D swagger w' fuel)
    as (w'' & Hrun' & _ & Hval' & _); try done.
  { by rewrite (frame_allowed _ _ (proj1 HK)). }
  { apply (Flat_Keeps _ _ w0); [done|exact HD]. }
  exists w', w''. split; [done|]. split; [done|].
  intros k l Hin Hv' Hv''. destruct (HD k l Hin) as (v & Hv & _).
  rewrite (Hval k l v) by done. apply Hval'; try done.
  apply (Denotes_Keeps _ _ w0); [done|exact Hv].
Qed.

Lemma forEach_not_Ok {A} (l : list A) (f : A -> M unit) x :
  x ∈ l -> (forall w, fst (f x w) <> Ok tt) ->
  forall w, fst (forEach l f w) <> Ok tt.
Proof.
  intros Hin Hx. induction l as [|y l IH]; intros w; [by apply not_elem_of_nil in Hin|].
  cbn [forEach]. unfold bind.
  destruct (f y w) as [[[]|e] w1] eqn:Hy; [|done].
  apply elem_of_cons in Hin as [<-|Hin]; [|by apply IH].
  specialize (Hx w). by rewrite Hy in Hx.
Qed.

(** X18. A nil entry in the Content map of a RequestBody is dereferenced:
    the RequestBody resolver, run on a definition whose value has such an
    entry, never returns nil, whatever the order in which the map is
    ranged over.  (The Response resolver skips nil entries.) *)
Theorem resolveRequestBodyRef_nil_content fuel swagger c w o lv b m key :
  (KRequestBody, c) ∉ visited w ->
  derefRef KRequestBody c w = Some o -> Ref o = "" -> Value o = Some lv ->
  requestBodies w !! lv = Some b -> RequestBody_Content b = Some m ->
  (key, None) ∈ m ->
  fst (resolveRequestBodyRef (S fuel) swagger c w) <> Ok tt.
Proof.
  intros Hfresh Ho He Hv Hb Hm Hin.
  change (resolveRequestBodyRef (S fuel)) with (resolveRef KRequestBody (S fuel)).
  rewrite resolveRef_shape, guardOf_fresh by (by right).
  set (w1 := entered KRequestBody c w).
  rewrite (bind_run _ _ w1 tt w1).
  2: { unfold flattenWith. rewrite (bind_run _ _ w1 o w1); [|by apply loadRef_run].
       by rewrite He. }
  cbn [descendOf]. unfold descendRequestBody.
  rewrite (bind_run _ _ w1 o w1); [|by apply loadRef_run]. rewrite Hv.
  rewrite (bind_run _ _ w1 b w1); [|by apply loadFrom_run]. rewrite Hm.
  cbn [forRange]. apply (forEach_not_Ok _ _ (key, None)); [done|].
  intros w2. done.
Qed.

Lemma kindPrefix_needs_hash k s :
  HasPrefix s "#" = false -> HasPrefix s (kindPrefix k) = false.
Proof.
  destruct s as [|d s]; [by destruct k|]. intros H.
  assert (Ascii.eqb "#" d = false) as E.
  { unfold HasPrefix in H. by destruct (Ascii.eqb "#" d). }
  destruct k; unfold kindPrefix, HasPrefix; by rewrite E.
Qed.

(** X19. [url.Parse] returns the fragment of a reference without its '#',
    while every prefix the resolvers pass starts with '#'.  So, external
    references allowed, when the parsed reference has a fragment that
    does not itself start with '#' and the document is loaded without
    error, each of the seven resolvers still fails, with "Failed to
    resolve fragment in URI" naming the fragment: the loaded document is
    never looked into.  The state is the one the loader left. *)
Theorem resolveRef_external_fragment_refused k fuel swagger c w o parsedURL doc w' :
  k = KExample \/ (k, c) ∉ visited w ->
  derefRef k c w = Some o ->
  Ref o <> "" -> HasPrefix (Ref o) "#" = false ->
  IsExternalRefsAllowed w = true ->
  url_Parse (Ref o) = Some parsedURL ->
  HasPrefix (Fragment parsedURL) "#" = false ->
  LoadSwaggerFromURI (S fuel) (URL_clearFragment parsedURL) (entered k c w)
  = (Ok doc, w') ->
  resolveRef k (S (S (S fuel))) swagger c w
  = (Fail (Err (failedToResolveRefFragment (Fragment parsedURL))), w').
Proof.
  intros Hfresh Ho Hne Hext Hon Hparse Hfrag Hload.
  apply (resolveRef_locate_fails _ _ _ _ _ o); try done.
  rewrite (resolveComponent_loaded _ _ _ _ _ parsedURL doc w'); try done.
  - unfold locateIn. by rewrite (kindPrefix_needs_hash k).
  - by rewrite entered_allowed.
Qed.

End Loader.

(** ** The theorems at sample documents *)

(** A finite check of the hypothesis on Schema Refs. *)
Lemma shape_check (m : gmap (Kind * loc) ComponentRef) :
  bool_decide (map_Forall (fun (x : Kind * loc) o =>
                 x.1 = KSchema -> Ref o <> "" -> Value o = None) m) = true ->
  forall l o, m !! (KSchema, l) = Some o -> Ref o <> "" -> Value o = None.
Proof.
  intros H l o Ho. apply bool_decide_eq_true in H.
  exact (H (KSchema, l) o Ho eq_refl).
Qed.

(** The claim C1 as the specification states it fails on two parameters
    that refer to each other: the walk returns no error and leaves both
    with a null Value. *)
Lemma ResolveRefsIn_leaves_null_Value :
  ~ (forall fuel swagger w w',
       ResolveRefsIn noParse Path noFile noJSON None fuel swagger w = (Ok tt, w') ->
       forall k p, Root swagger k p ->
         exists o, derefRef k p w' = Some o /\ Value o <> None).
Proof.
  intros H.
  destruct (H 10 parameterCycle parameterCycleWorld _ eq_refl
              KParameter (Some 1%positive)) as (o & Ho & Hv).
  - apply (Root_table _ KParameter
             [("A", Some 1%positive); ("B", Some 2%positive)] "A");
      [discriminate|reflexivity|left].
  - vm_compute in Ho. injection Ho as <-. by apply Hv.
Qed.

Lemma ResolveRefsIn_flattens_reachable_refs_witness :
  let w' := snd (ResolveRefsIn noParse Path noFile noJSON None 10
                   petStore petStoreWorld) in
  IsExternalRefsAllowed petStoreWorld = false
  /\ ResolveRefsIn noParse Path noFile noJSON None 10 petStore petStoreWorld
     = (Ok tt, w')
  /\ Root petStore KSchema (Some 3%positive)
  /\ exists o, derefRef KSchema (Some 3%positive) w' = Some o /\
       (KSchema = KSchema -> Value o <> None) /\
       (Ref o <> "" -> exists target, Names petStore KSchema (Ref o) target) /\
       (forall l l', Some 3%positive = Some l -> Hops petStore w' KSchema l l' ->
          valueOf KSchema (Some l') w' = Some (Value o)).
Proof.
  intros w'.
  assert (Root petStore KSchema (Some 3%positive)) as Hroot.
  { apply (Root_table _ KSchema
             [("Pet", Some 1%positive); ("Person", Some 2%positive);
              ("A", Some 3%positive); ("B", Some 4%positive);
              ("C", Some 5%positive)] "A"); [discriminate|reflexivity|].
    right. right. left. }
  assert (ResolveRefsIn noParse Path noFile noJSON None 10 petStore petStoreWorld
          = (Ok tt, w')) as Hrun by (vm_compute; reflexivity).
  split; [reflexivity|]. split; [exact Hrun|]. split; [exact Hroot|].
  apply (ResolveRefsIn_flattens_reachable_refs noParse Path noFile noJSON None
           10 petStore petStoreWorld w' eq_refl).
  - apply shape_check. vm_compute. reflexivity.
  - exact Hrun.
  - apply Reach_root, Hroot.
Defined.

Lemma resolveComponent_prefix_then_flat_id_witness :
  Remainder noParse Path noFile noJSON None 0 danglingDoc
    "#/components/schemas/a/b" emptyWorld
    danglingDoc "#/components/schemas/a/b" emptyWorld
  /\ resolveComponent noParse Path noFile noJSON None 1 danglingDoc
       "#/components/schemas/a/b" "#/components/schemas/" emptyWorld
     = (Fail (Err (failedToResolveRefFragmentPart "#/components/schemas/a/b" "a/b")),
        emptyWorld)
  /\ resolveComponent noParse Path noFile noJSON None 1 danglingDoc
       "#/components/schemas/a" "#/components/parameters/" emptyWorld
     = (Fail (Err (failedToResolveRefFragment "#/components/schemas/a")), emptyWorld)
  /\ resolveComponent noParse Path noFile noJSON None 1 danglingDoc
       "#/components/schemas/a" "#/components/schemas/" emptyWorld
     = (Ok (noComponents, "a"), emptyWorld).
Proof.
  assert (forall ref, HasPrefix ref "#" = true ->
            Remainder noParse Path noFile noJSON None 0 danglingDoc ref emptyWorld
              danglingDoc ref emptyWorld) as Hlocal.
  { intros ref Href. left. by repeat split. }
  split; [by apply Hlocal|]. split; [|split].
  - destruct (resolveComponent_prefix_then_flat_id noParse Path noFile noJSON None
                0 danglingDoc "#/components/schemas/a/b" "#/components/schemas/"
                emptyWorld danglingDoc "#/components/schemas/a/b" emptyWorld
                (Hlocal "#/components/schemas/a/b" eq_refl)) as (_ & Hslash & _).
    apply (Hslash "a/b"); [reflexivity|]. right. left. reflexivity.
  - destruct (resolveComponent_prefix_then_flat_id noParse Path noFile noJSON None
                0 danglingDoc "#/components/schemas/a" "#/components/parameters/"
                emptyWorld danglingDoc "#/components/schemas/a" emptyWorld
                (Hlocal "#/components/schemas/a" eq_refl)) as (Hprefix & _ & _).
    apply Hprefix. intros [id Hid]. discriminate Hid.
  - destruct (resolveComponent_prefix_then_flat_id noParse Path noFile noJSON None
                0 danglingDoc "#/components/schemas/a" "#/components/schemas/"
                emptyWorld danglingDoc "#/components/schemas/a" emptyWorld
                (Hlocal "#/components/schemas/a" eq_refl)) as (_ & _ & Hflat).
    apply (Hflat "a"); [reflexivity|]. intros [Hin|[]]. discriminate Hin.
Defined.

Lemma resolveComponent_external_reference_witness :
  HasPrefix "other.json#/components/schemas/X" "#" = false
  /\ resolveComponent otherParse Path noFile noJSON (Some otherLoad) 2 danglingDoc
       "other.json#/components/schemas/X" "#/components/schemas/" emptyWorld
     = (Fail (Err (errNonAllowedExternalRef "other.json#/components/schemas/X")),
        emptyWorld)
  /\ loaderCalls
       (snd (resolveComponent otherParse Path noFile noJSON (Some otherLoad) 2
               danglingDoc "other.json#/components/schemas/X"
               "#/components/schemas/" openWorld))
     = [ {| Scheme := ""; Host := ""; Path := "other.json"; RawQuery := "";
            Fragment := "" |} ]
  /\ fst (resolveComponent otherParse Path noFile noJSON (Some otherLoad) 2
            danglingDoc "other.json#/components/schemas/X"
            "#/components/schemas/" openWorld)
     = locateIn petStore "/components/schemas/X" "#/components/schemas/".
Proof.
  destruct (resolveComponent_external_reference otherParse Path noFile noJSON
              (Some otherLoad) 1 danglingDoc "other.json#/components/schemas/X"
              "#/components/schemas/" emptyWorld eq_refl) as [Hoff _].
  destruct (resolveComponent_external_reference otherParse Path noFile noJSON
              (Some otherLoad) 1 danglingDoc "other.json#/components/schemas/X"
              "#/components/schemas/" openWorld eq_refl) as [_ Hon].
  destruct (Hon eq_refl _ eq_refl) as (Hstate & _ & Hloaded).
  split; [reflexivity|]. split; [exact (Hoff eq_refl)|]. split.
  - rewrite Hstate. vm_compute. reflexivity.
  - rewrite (Hloaded petStore
               (snd (LoadSwaggerFromURI otherParse Path noFile noJSON (Some otherLoad) 1
                       (URL_clearFragment
                          {| Scheme := ""; Host := ""; Path := "other.json";
                             RawQuery := ""; Fragment := "/components/schemas/X" |})
                       openWorld))); [reflexivity|].
    vm_compute. reflexivity.
Defined.

Lemma resolveExampleRef_rejects_local_form_witness :
  derefRef KExample (Some 2%positive) exampleWorld
  = Some {| Ref := "#/components/examples/a"; Value := None |}
  /\ resolveExampleRef noParse Path noFile noJSON None 2 exampleDoc
       (Some 2%positive) exampleWorld
     = (Fail (Err (failedToResolveRefFragmentPart "#/components/examples/a" "/a")),
        exampleWorld).
Proof.
  split; [vm_compute; reflexivity|].
  apply (resolveExampleRef_rejects_local_form noParse Path noFile noJSON None 0
           exampleDoc (Some 2%positive) exampleWorld
           {| Ref := "#/components/examples/a"; Value := None |} "a");
    [vm_compute; reflexivity|reflexivity].
Defined.

Lemma plainRefs_member k l :
  (k, l) ∈ plainRefs ->
  (k, l) = (KSchema, 1%positive) \/ (k, l) = (KSchema, 2%positive)
  \/ (k, l) = (KResponse, 1%positive).
Proof.
  unfold plainRefs. rewrite !elem_of_union, !elem_of_singleton. tauto.
Qed.

Lemma plainWorld_RefFree : RefFree plainWorld plainRefs.
Proof.
  assert (ValidRef plainRefs KSchema (Some 1%positive)) as H1.
  { exists 1%positive. split; [done|]. unfold plainRefs.
    rewrite !elem_of_union, !elem_of_singleton. tauto. }
  assert (ValidRef plainRefs KSchema (Some 2%positive)) as H2.
  { exists 2%positive. split; [done|]. unfold plainRefs.
    rewrite !elem_of_union, !elem_of_singleton. tauto. }
  intros k l Hin.
  destruct (plainRefs_member k l Hin) as [[= -> ->]|[[= -> ->]|[= -> ->]]].
  - exists {| Ref := ""; Value := Some 10%positive |}.
    split; [vm_compute; reflexivity|]. split; [reflexivity|].
    exists 10%positive, {| Items := Some 2%positive; Properties := None;
                           AdditionalProperties := None |}.
    split; [reflexivity|]. split; [vm_compute; reflexivity|].
    split; [by right|]. split; [discriminate|by left].
  - exists {| Ref := ""; Value := Some 11%positive |}.
    split; [vm_compute; reflexivity|]. split; [reflexivity|].
    exists 11%positive, {| Items := Some 1%positive; Properties := None;
                           AdditionalProperties := None |}.
    split; [reflexivity|]. split; [vm_compute; reflexivity|].
    split; [by right|]. split; [discriminate|by left].
  - exists {| Ref := ""; Value := Some 20%positive |}.
    split; [vm_compute; reflexivity|]. split; [reflexivity|].
    right. exists 20%positive,
      {| Response_Content := Some [("application/json", Some 30%positive)] |}.
    split; [reflexivity|]. split; [vm_compute; reflexivity|].
    intros m key contentType [= <-] Hentry.
    apply list_elem_of_singleton in Hentry as [= -> ->].
    right. exists 30%positive, {| ContentType_Schema := Some 2%positive |}.
    split; [reflexivity|]. split; [vm_compute; reflexivity|]. by right.
Qed.

Lemma plainDoc_RootsIn : RootsIn plainDoc plainRefs.
Proof.
  intros k p HR.
  destruct HR as [k m key p Hk Hm Hin
                 |paths path item method operation parameters p Hpaths
                 |paths path item method operation l Hpaths
                 |paths path item method operation m key p Hpaths];
    try discriminate Hpaths.
  destruct k; cbn in Hm; try discriminate Hm; injection Hm as <-;
    apply list_elem_of_singleton in Hin as [= -> ->];
    exists 1%positive; (split; [done|]); unfold plainRefs;
    rewrite !elem_of_union, !elem_of_singleton; tauto.
Qed.

Lemma ResolveRefsIn_ref_free_document_witness :
  RefFree plainWorld plainRefs /\ RootsIn plainDoc plainRefs
  /\ size plainRefs + 1 < 5
  /\ exists w', ResolveRefsIn noParse Path noFile noJSON None 5 plainDoc plainWorld
               = (Ok tt, w') /\ SameHeap plainWorld w'.
Proof.
  assert (size plainRefs + 1 < 5) as Hsize by (vm_compute; lia).
  split; [exact plainWorld_RefFree|]. split; [exact plainDoc_RootsIn|].
  split; [exact Hsize|].
  exact (ResolveRefsIn_ref_free_document noParse Path noFile noJSON None
           plainRefs plainDoc plainWorld 5
           plainWorld_RefFree plainDoc_RootsIn Hsize).
Defined.

Lemma resolveRef_external_disallowed_witness :
  (KSchema = KExample \/ (KSchema, Some 1%positive) ∉ visited strayWorld)
  /\ derefRef KSchema (Some 1%positive) strayWorld
     = Some {| Ref := "other.json#/components/schemas/X"; Value := None |}
  /\ HasPrefix "other.json#/components/schemas/X" "#" = false
  /\ resolveRef noParse Path noFile noJSON None KSchema 2 strayDoc
       (Some 1%positive) strayWorld
     = (Fail (Err (errNonAllowedExternalRef "other.json#/components/schemas/X")),
        entered KSchema (Some 1%positive) strayWorld).
Proof.
  assert ((KSchema, Some 1%positive) ∉ visited strayWorld) as Hfresh
    by apply not_elem_of_empty.
  split; [by right|]. split; [reflexivity|]. split; [reflexivity|].
  exact (resolveRef_external_disallowed noParse Path noFile noJSON None KSchema 0
           strayDoc (Some 1%positive) strayWorld
           {| Ref := "other.json#/components/schemas/X"; Value := None |}
           (or_intror Hfresh) eq_refl ltac:(discriminate) eq_refl eq_refl).
Defined.

Lemma resolveRef_wrong_prefix_witness :
  (KParameter = KExample \/ (KParameter, Some 1%positive) ∉ visited strayWorld)
  /\ derefRef KParameter (Some 1%positive) strayWorld
     = Some {| Ref := "#/components/schemas/S"; Value := None |}
  /\ HasPrefix "#/components/schemas/S" "#" = true
  /\ HasPrefix "#/components/schemas/S" (kindPrefix KParameter) = false
  /\ resolveRef noParse Path noFile noJSON None KParameter 2 strayDoc
       (Some 1%positive) strayWorld
     = (Fail (Err (failedToResolveRefFragment "#/components/schemas/S")),
        entered KParameter (Some 1%positive) strayWorld).
Proof.
  assert ((KParameter, Some 1%positive) ∉ visited strayWorld) as Hfresh
    by apply not_elem_of_empty.
  split; [by right|]. split; [reflexivity|]. split; [reflexivity|].
  split; [reflexivity|].
  exact (resolveRef_wrong_prefix noParse Path noFile noJSON None KParameter 0
           strayDoc (Some 1%positive) strayWorld
           {| Ref := "#/components/schemas/S"; Value := None |}
           (or_intror Hfresh) eq_refl eq_refl eq_refl).
Defined.

Lemma resolveRef_nested_path_witness :
  (KSchema = KExample \/ (KSchema, Some 2%positive) ∉ visited strayWorld)
  /\ derefRef KSchema (Some 2%positive) strayWorld
     = Some {| Ref := "#/components/schemas/a/b"; Value := None |}
  /\ occursIn "/" "a/b"
  /\ resolveRef noParse Path noFile noJSON None KSchema 2 strayDoc
       (Some 2%positive) strayWorld
     = (Fail (Err (failedToResolveRefFragmentPart "#/components/schemas/a/b" "a/b")),
        entered KSchema (Some 2%positive) strayWorld).
Proof.
  assert ((KSchema, Some 2%positive) ∉ visited strayWorld) as Hfresh
    by apply not_elem_of_empty.
  assert (occursIn "/" "a/b") as Hslash
    by exact (proj1 (IndexByte_found noParse noFile "a/b" "/") eq_refl).
  split; [by right|]. split; [reflexivity|]. split; [exact Hslash|].
  exact (resolveRef_nested_path noParse Path noFile noJSON None KSchema 0
           strayDoc (Some 2%positive) strayWorld
           {| Ref := "#/components/schemas/a/b"; Value := None |} "a/b"
           (or_intror Hfresh) eq_refl eq_refl Hslash).
Defined.


Lemma resolveRef_missing_entry_witness :
  (KParameter = KExample \/ (KParameter, Some 2%positive) ∉ visited strayWorld)
  /\ derefRef KParameter (Some 2%positive) strayWorld
     = Some {| Ref := "#/components/parameters/q"; Value := None |}
  /\ ~ occursIn "/" "q"
  /\ (forall definitions,
        kindTable KParameter (Swagger_Components strayDoc) = Some definitions ->
        mapIndex definitions "q" = None)
  /\ resolveRef noParse Path noFile noJSON None KParameter 2 strayDoc
       (Some 2%positive) strayWorld
     = (Fail (Err (failedToResolveRefFragmentPart "#/components/parameters/q" "q")),
        entered KParameter (Some 2%positive) strayWorld).
Proof.
  assert ((KParameter, Some 2%positive) ∉ visited strayWorld) as Hfresh
    by apply not_elem_of_empty.
  assert (~ occursIn "/" "q") as Hflat.
  { intros H. apply (proj2 (IndexByte_found noParse noFile "q" "/")) in H.
    discriminate H. }
  assert (forall definitions,
            kindTable KParameter (Swagger_Components strayDoc) = Some definitions ->
            mapIndex definitions "q" = None) as Hmiss.
  { intros definitions [= <-]. reflexivity. }
  split; [by right|]. split; [reflexivity|]. split; [exact Hflat|].
  split; [exact Hmiss|].
  exact (resolveRef_missing_entry noParse Path noFile noJSON None KParameter 0
           strayDoc (Some 2%positive) strayWorld
           {| Ref := "#/components/parameters/q"; Value := None |} "q"
           (or_intror Hfresh) eq_refl eq_refl Hflat Hmiss).
Defined.

Lemma resolveRef_unparsable_reference_witness :
  (KSchema = KExample \/ (KSchema, Some 1%positive) ∉ visited strayOpenWorld)
  /\ derefRef KSchema (Some 1%positive) strayOpenWorld
     = Some {| Ref := "other.json#/components/schemas/X"; Value := None |}
  /\ HasPrefix "other.json#/components/schemas/X" "#" = false
  /\ IsExternalRefsAllowed strayOpenWorld = true
  /\ noParse "other.json#/components/schemas/X" = None
  /\ resolveRef noParse Path noFile noJSON None KSchema 2 strayDoc
       (Some 1%positive) strayOpenWorld
     = (Fail (Err (errCantParseReference "other.json#/components/schemas/X")),
        entered KSchema (Some 1%positive) strayOpenWorld).
Proof.
  assert ((KSchema, Some 1%positive) ∉ visited strayOpenWorld) as Hfresh
    by apply not_elem_of_empty.
  split; [by right|]. split; [reflexivity|]. split; [reflexivity|].
  split; [reflexivity|]. split; [reflexivity|].
  exact (resolveRef_unparsable_reference noParse Path noFile noJSON None KSchema 0
           strayDoc (Some 1%positive) strayOpenWorld
           {| Ref := "other.json#/components/schemas/X"; Value := None |}
           (or_intror Hfresh) eq_refl ltac:(discriminate) eq_refl eq_refl eq_refl).
Defined.

Lemma resolveRef_remote_location_unsupported_witness :
  (KSchema = KExample \/ (KSchema, Some 3%positive) ∉ visited strayOpenWorld)
  /\ derefRef KSchema (Some 3%positive) strayOpenWorld
     = Some {| Ref := "http://example.com/api.json#/components/schemas/X";
               Value := None |}
  /\ IsExternalRefsAllowed strayOpenWorld = true
  /\ resolveRef remoteParse schemeHostPath noFile noJSON None KSchema 3 strayDoc
       (Some 3%positive) strayOpenWorld
     = (Fail (Err (errWhileResolvingReference
                     "http://example.com/api.json#/components/schemas/X"
                     (errUnsupportedURI "http://example.com/api.json"))),
        set_loaderCalls
          (fun t => (t ++ [ {| Scheme := "http"; Host := "example.com";
                               Path := "/api.json"; RawQuery := "";
                               Fragment := "" |} ])%list)
          (entered KSchema (Some 3%positive) strayOpenWorld)).
Proof.
  assert ((KSchema, Some 3%positive) ∉ visited strayOpenWorld) as Hfresh
    by apply not_elem_of_empty.
  assert (Ref {| Ref := "http://example.com/api.json#/components/schemas/X";
                 Value := None |} <> "") as Hne by discriminate.
  assert (Scheme {| Scheme := "http"; Host := "example.com"; Path := "/api.json";
                    RawQuery := ""; Fragment := "/components/schemas/X" |} <> "")
    as Hscheme by discriminate.
  split; [by right|]. split; [reflexivity|]. split; [reflexivity|].
  exact (resolveRef_remote_location_unsupported remoteParse schemeHostPath noFile
           noJSON None KSchema 0 strayDoc (Some 3%positive) strayOpenWorld
           {| Ref := "http://example.com/api.json#/components/schemas/X";
              Value := None |}
           {| Scheme := "http"; Host := "example.com"; Path := "/api.json";
              RawQuery := ""; Fragment := "/components/schemas/X" |}
           eq_refl (or_intror Hfresh) eq_refl Hne eq_refl eq_refl
           eq_refl (or_introl Hscheme)).
Defined.


Lemma ResolveRefsIn_terminates_witness :
  IsExternalRefsAllowed schemaRingWorld = false
  /\ size (dom (refs schemaRingWorld)) + 1 < 5
  /\ fst (ResolveRefsIn noParse Path noFile noJSON None 5 schemaRing schemaRingWorld)
     <> Fail OutOfFuel.
Proof.
  assert (size (dom (refs schemaRingWorld)) + 1 < 5) as Hsize by (vm_compute; lia).
  split; [reflexivity|]. split; [exact Hsize|].
  exact (ResolveRefsIn_terminates noParse Path noFile noJSON None 5 schemaRing
           schemaRingWorld eq_refl Hsize).
Defined.

Lemma ResolveRefsIn_frame_witness :
  IsExternalRefsAllowed schemaRingWorld = false
  /\ size (dom (refs schemaRingWorld)) + 1 < 5
  /\ Frame (set_visited (fun _ => ∅) schemaRingWorld)
       (snd (ResolveRefsIn noParse Path noFile noJSON None 5 schemaRing
               schemaRingWorld)).
Proof.
  assert (size (dom (refs schemaRingWorld)) + 1 < 5) as Hsize by (vm_compute; lia).
  split; [reflexivity|]. split; [exact Hsize|].
  exact (ResolveRefsIn_frame noParse Path noFile noJSON None 5 schemaRing
           schemaRingWorld _ _ eq_refl Hsize (surjective_pairing _)).
Defined.

Lemma ResolveRefsIn_error_names_reference_witness :
  IsExternalRefsAllowed strayWorld = false
  /\ size (dom (refs strayWorld)) + 1 < 7
  /\ fst (ResolveRefsIn noParse Path noFile noJSON None 7 strayDoc strayWorld)
     = Fail (Err (failedToResolveRefFragment "#/components/schemas/S"))
  /\ Blames strayDoc strayWorld (failedToResolveRefFragment "#/components/schemas/S").
Proof.
  assert (size (dom (refs strayWorld)) + 1 < 7) as Hsize by (vm_compute; lia).
  assert (ResolveRefsIn noParse Path noFile noJSON None 7 strayDoc strayWorld
          = (Fail (Err (failedToResolveRefFragment "#/components/schemas/S")),
             snd (ResolveRefsIn noParse Path noFile noJSON None 7 strayDoc
                    strayWorld))) as Hrun by (vm_compute; reflexivity).
  split; [reflexivity|]. split; [exact Hsize|].
  split; [by rewrite Hrun|].
  exact (ResolveRefsIn_error_names_reference noParse Path noFile noJSON None 7
           strayDoc strayWorld _ _ eq_refl Hsize Hrun).
Defined.

Lemma resolveRef_terminates_witness :
  KParameter <> KExample
  /\ IsExternalRefsAllowed parameterCycleWorld = false
  /\ pending (dom (refs parameterCycleWorld)) parameterCycleWorld < 3
  /\ fst (resolveRef noParse Path noFile noJSON None KParameter 3 parameterCycle
            (Some 1%positive) parameterCycleWorld) <> Fail OutOfFuel
  /\ Frame parameterCycleWorld
       (snd (resolveRef noParse Path noFile noJSON None KParameter 3 parameterCycle
               (Some 1%positive) parameterCycleWorld)).
Proof.
  assert (KParameter <> KExample) as Hk by discriminate.
  assert (pending (dom (refs parameterCycleWorld)) parameterCycleWorld < 3) as Hn
    by (vm_compute; lia).
  split; [exact Hk|]. split; [reflexivity|]. split; [exact Hn|].
  exact (resolveRef_terminates noParse Path noFile noJSON None KParameter 3
           parameterCycle (Some 1%positive) parameterCycleWorld Hk eq_refl Hn).
Defined.

Lemma resolveRef_again_witness :
  KParameter <> KExample
  /\ IsExternalRefsAllowed parameterCycleWorld = false
  /\ pending (dom (refs parameterCycleWorld)) parameterCycleWorld < 3
  /\ fst (resolveRef noParse Path noFile noJSON None KParameter 3 parameterCycle
            (Some 1%positive) parameterCycleWorld) = Ok tt
  /\ resolveRef noParse Path noFile noJSON None KParameter 1 parameterCycle
       (Some 1%positive)
       (snd (resolveRef noParse Path noFile noJSON None KParameter 3 parameterCycle
               (Some 1%positive) parameterCycleWorld))
     = (Ok tt,
        snd (resolveRef noParse Path noFile noJSON None KParameter 3 parameterCycle
               (Some 1%positive) parameterCycleWorld)).
Proof.
  assert (KParameter <> KExample) as Hk by discriminate.
  assert (pending (dom (refs parameterCycleWorld)) parameterCycleWorld < 3) as Hn
    by (vm_compute; lia).
  assert (resolveRef noParse Path noFile noJSON None KParameter 3 parameterCycle
            (Some 1%positive) parameterCycleWorld
          = (Ok tt,
             snd (resolveRef noParse Path noFile noJSON None KParameter 3
                    parameterCycle (Some 1%positive) parameterCycleWorld))) as Hrun
    by (vm_compute; reflexivity).
  split; [exact Hk|]. split; [reflexivity|]. split; [exact Hn|].
  split; [by rewrite Hrun|].
  exact (resolveRef_again noParse Path noFile noJSON None KParameter 3 0
           parameterCycle (Some 1%positive) parameterCycleWorld _ Hk eq_refl Hn Hrun).
Defined.


Lemma flatRefs_member k l :
  (k, l) ∈ flatRefs <->
  (k, l) = (KSchema, 1%positive) \/ (k, l) = (KSchema, 2%positive)
  \/ (k, l) = (KSchema, 3%positive) \/ (k, l) = (KSchema, 4%positive).
Proof.
  unfold flatRefs. rewrite !elem_of_union, !elem_of_singleton. tauto.
Qed.

Lemma flatDoc_Names_Person :
  Names flatDoc KSchema "#/components/schemas/Person" 2%positive.
Proof.
  exists "Person", [("Pet", Some 1%positive); ("Person", Some 2%positive)].
  split; [reflexivity|]. split; [|by split].
  intros H. apply (proj2 (IndexByte_found noParse noFile "Person" "/")) in H.
  discriminate H.
Qed.

Lemma flatDoc_Names_Pet :
  Names flatDoc KSchema "#/components/schemas/Pet" 1%positive.
Proof.
  exists "Pet", [("Pet", Some 1%positive); ("Person", Some 2%positive)].
  split; [reflexivity|]. split; [|by split].
  intros H. apply (proj2 (IndexByte_found noParse noFile "Pet" "/")) in H.
  discriminate H.
Qed.

Lemma flatWorld_Defines_Pet : Defines flatWorld KSchema 1%positive (Some 101%positive).
Proof. by exists {| Ref := ""; Value := Some 101%positive |}. Qed.

Lemma flatWorld_Defines_Person :
  Defines flatWorld KSchema 2%positive (Some 102%positive).
Proof. by exists {| Ref := ""; Value := Some 102%positive |}. Qed.

Lemma flatWorld_Denotes_owner :
  Denotes flatDoc flatRefs flatWorld KSchema 3%positive (Some 102%positive).
Proof.
  right. exists {| Ref := "#/components/schemas/Person"; Value := None |}, 2%positive.
  split; [reflexivity|]. split; [apply flatDoc_Names_Person|].
  split; [apply flatRefs_member; tauto|apply flatWorld_Defines_Person].
Qed.

Lemma flatWorld_Denotes_pet :
  Denotes flatDoc flatRefs flatWorld KSchema 4%positive (Some 101%positive).
Proof.
  right. exists {| Ref := "#/components/schemas/Pet"; Value := None |}, 1%positive.
  split; [reflexivity|]. split; [apply flatDoc_Names_Pet|].
  split; [apply flatRefs_member; tauto|apply flatWorld_Defines_Pet].
Qed.

Lemma flatWorld_Flat : Flat flatDoc flatWorld flatRefs.
Proof.
  assert (WfValue flatWorld flatRefs KSchema (Some 101%positive)) as Hpet.
  { exists 101%positive, {| Items := None;
                            Properties := Some [("owner", Some 3%positive)];
                            AdditionalProperties := None |}.
    split; [reflexivity|]. split; [reflexivity|]. split; [by left|].
    split; [|by left].
    intros m key p [= <-] Hentry. apply list_elem_of_singleton in Hentry as [= -> ->].
    exists 3%positive. split; [done|]. apply flatRefs_member. tauto. }
  assert (WfValue flatWorld flatRefs KSchema (Some 102%positive)) as Hperson.
  { exists 102%positive, {| Items := None;
                            Properties := Some [("pet", Some 4%positive)];
                            AdditionalProperties := None |}.
    split; [reflexivity|]. split; [reflexivity|]. split; [by left|].
    split; [|by left].
    intros m key p [= <-] Hentry. apply list_elem_of_singleton in Hentry as [= -> ->].
    exists 4%positive. split; [done|]. apply flatRefs_member. tauto. }
  intros k l Hin.
  apply flatRefs_member in Hin as [[= -> ->]|[[= -> ->]|[[= -> ->]|[= -> ->]]]].
  - exists (Some 101%positive). split; [left; apply flatWorld_Defines_Pet|done].
  - exists (Some 102%positive). split; [left; apply flatWorld_Defines_Person|done].
  - exists (Some 102%positive). split; [apply flatWorld_Denotes_owner|done].
  - exists (Some 101%positive). split; [apply flatWorld_Denotes_pet|done].
Qed.

Lemma flatDoc_RootsIn : RootsIn flatDoc flatRefs.
Proof.
  intros k p HR.
  destruct HR as [k m key p Hk Hm Hin
                 |paths path item method operation parameters p Hpaths
                 |paths path item method operation l Hpaths
                 |paths path item method operation m key p Hpaths];
    try discriminate Hpaths.
  destruct k; cbn in Hm; try discriminate Hm. injection Hm as <-.
  apply elem_of_cons in Hin as [[= -> ->]|Hin].
  - exists 1%positive. split; [done|]. apply flatRefs_member. tauto.
  - apply list_elem_of_singleton in Hin as [= -> ->].
    exists 2%positive. split; [done|]. apply flatRefs_member. tauto.
Qed.

Lemma ResolveRefsIn_flat_document_witness :
  IsExternalRefsAllowed flatWorld = false
  /\ Flat flatDoc flatWorld flatRefs /\ RootsIn flatDoc flatRefs
  /\ size flatRefs + 1 < 6
  /\ exists w', ResolveRefsIn noParse Path noFile noJSON None 6 flatDoc flatWorld
                = (Ok tt, w')
       /\ (forall k p, Root flatDoc k p -> (k, p) ∈ visited w')
       /\ (forall k l v, (k, Some l) ∈ visited w' -> (k, l) ∈ flatRefs ->
             Denotes flatDoc flatRefs flatWorld k l v ->
             valueOf k (Some l) w' = Some v)
       /\ Keeps (set_visited (fun _ => ∅) flatWorld) w'.
Proof.
  assert (size flatRefs + 1 < 6) as Hsize by (vm_compute; lia).
  split; [reflexivity|]. split; [exact flatWorld_Flat|].
  split; [exact flatDoc_RootsIn|]. split; [exact Hsize|].
  exact (ResolveRefsIn_flat_document noParse Path noFile noJSON None
           flatRefs flatDoc flatWorld 6 eq_refl flatWorld_Flat flatDoc_RootsIn Hsize).
Defined.

Lemma resolveRef_flattens_reference_witness :
  KSchema <> KExample
  /\ IsExternalRefsAllowed flatWorld = false
  /\ Flat flatDoc flatWorld flatRefs
  /\ pending flatRefs flatWorld < 5
  /\ (KSchema, 3%positive) ∈ flatRefs
  /\ ((KSchema, Some 3%positive) ∉ visited flatWorld)
  /\ Denotes flatDoc flatRefs flatWorld KSchema 3%positive (Some 102%positive)
  /\ exists w', resolveRef noParse Path noFile noJSON None KSchema 5 flatDoc
                  (Some 3%positive) flatWorld = (Ok tt, w')
       /\ valueOf KSchema (Some 3%positive) w' = Some (Some 102%positive)
       /\ Keeps flatWorld w'.
Proof.
  assert (KSchema <> KExample) as Hk by discriminate.
  assert (pending flatRefs flatWorld < 5) as Hn by (vm_compute; lia).
  assert ((KSchema, 3%positive) ∈ flatRefs) as Hin by (apply flatRefs_member; tauto).
  assert ((KSchema, Some 3%positive) ∉ visited flatWorld) as Hfresh
    by apply not_elem_of_empty.
  split; [exact Hk|]. split; [reflexivity|]. split; [exact flatWorld_Flat|].
  split; [exact Hn|]. split; [exact Hin|]. split; [exact Hfresh|].
  split; [exact flatWorld_Denotes_owner|].
  exact (resolveRef_flattens_reference noParse Path noFile noJSON None KSchema 5
           flatRefs flatDoc 3%positive flatWorld (Some 102%positive)
           Hk eq_refl flatWorld_Flat Hn Hin Hfresh flatWorld_Denotes_owner).
Defined.

Lemma resolveExampleRef_flattens_witness :
  refs exampleWorld !! (KExample, 3%positive)
  = Some {| Ref := "#/components/examplesa"; Value := None |}
  /\ ~ occursIn "/" "a"
  /\ mapIndex [("a", Some 1%positive); ("b", Some 2%positive);
               ("c", Some 3%positive); ("d", Some 4%positive)] "a"
     = Some 1%positive
  /\ refs exampleWorld !! (KExample, 1%positive)
     = Some {| Ref := ""; Value := Some 9%positive |}
  /\ resolveExampleRef noParse Path noFile noJSON None 3 exampleDoc
       (Some 3%positive) exampleWorld
     = (Ok tt,
        set_refs (insert (KExample, 3%positive)
                    {| Ref := "#/components/examplesa"; Value := Some 9%positive |})
          exampleWorld).
Proof.
  assert (~ occursIn "/" "a") as Hflat.
  { intros H. apply (proj2 (IndexByte_found noParse noFile "a" "/")) in H.
    discriminate H. }
  split; [reflexivity|]. split; [exact Hflat|]. split; [reflexivity|].
  split; [reflexivity|].
  exact (resolveExampleRef_flattens noParse Path noFile noJSON None 0 exampleDoc
           3%positive exampleWorld
           {| Ref := "#/components/examplesa"; Value := None |} "a"
           [("a", Some 1%positive); ("b", Some 2%positive);
            ("c", Some 3%positive); ("d", Some 4%positive)]
           1%positive {| Ref := ""; Value := Some 9%positive |}
           eq_refl eq_refl Hflat eq_refl eq_refl eq_refl eq_refl).
Defined.


Lemma Flat_same_heap swagger D w w' :
  refs w' = refs w -> headers w' = headers w -> parameters w' = parameters w ->
  requestBodies w' = requestBodies w -> responses w' = responses w ->
  contentTypes w' = contentTypes w -> schemas w' = schemas w ->
  Flat swagger w D -> Flat swagger w' D.
Proof.
  intros Hr Hh Hp Hb Hs Hc Hsch HD k l Hin.
  destruct (HD k l Hin) as (v & Hv & Hwf). exists v.
  unfold Denotes, Defines, WfValue, WfContent in *.
  by rewrite Hr, Hh, Hp, Hb, Hs, Hc, Hsch.
Qed.

Lemma LoadSwaggerFromURI_flat_document_witness :
  exists w1 w2,
    flatFile "flat.json"
      (set_loaderCalls
         (fun t => (t ++ [ {| Scheme := ""; Host := ""; Path := "flat.json";
                              RawQuery := ""; Fragment := "" |} ])%list) emptyWorld)
    = (Ok [Byte.x7b; Byte.x7d], w1)
    /\ flatJSON [Byte.x7b; Byte.x7d] w1 = (Ok flatDoc, w2)
    /\ IsExternalRefsAllowed w2 = false
    /\ Flat flatDoc w2 flatRefs /\ RootsIn flatDoc flatRefs
    /\ size flatRefs + 3 < 8
    /\ exists w', LoadSwaggerFromURI noParse Path flatFile flatJSON None 8
                    {| Scheme := ""; Host := ""; Path := "flat.json";
                       RawQuery := ""; Fragment := "" |} emptyWorld
                  = (Ok flatDoc, w')
         /\ (forall k p, Root flatDoc k p -> (k, p) ∈ visited w')
         /\ (forall k l v, (k, Some l) ∈ visited w' -> (k, l) ∈ flatRefs ->
               Denotes flatDoc flatRefs w2 k l v -> valueOf k (Some l) w' = Some v)
         /\ Keeps (set_visited (fun _ => ∅) w2) w'.
Proof.
  set (location := {| Scheme := ""; Host := ""; Path := "flat.json";
                      RawQuery := ""; Fragment := "" |}).
  set (w1 := set_loaderCalls (fun t => (t ++ [location])%list) emptyWorld).
  set (w2 := snd (flatJSON [Byte.x7b; Byte.x7d] w1)).
  assert (Flat flatDoc w2 flatRefs) as HD.
  { by apply (Flat_same_heap flatDoc flatRefs flatWorld w2), flatWorld_Flat. }
  assert (size flatRefs + 3 < 8) as Hsize by (vm_compute; lia).
  exists w1, w2. split; [reflexivity|]. split; [reflexivity|].
  split; [reflexivity|]. split; [exact HD|]. split; [exact flatDoc_RootsIn|].
  split; [exact Hsize|].
  exact (LoadSwaggerFromURI_flat_document noParse Path flatFile flatJSON None
           flatRefs 8 location [Byte.x7b; Byte.x7d] flatDoc emptyWorld w1 w2
           eq_refl eq_refl eq_refl eq_refl eq_refl eq_refl eq_refl
           HD flatDoc_RootsIn Hsize).
Defined.

Lemma ResolveRefsIn_twice_witness :
  IsExternalRefsAllowed flatWorld = false
  /\ Flat flatDoc flatWorld flatRefs /\ RootsIn flatDoc flatRefs
  /\ size flatRefs + 1 < 6
  /\ exists w' w'',
       ResolveRefsIn noParse Path noFile noJSON None 6 flatDoc flatWorld = (Ok tt, w')
       /\ ResolveRefsIn noParse Path noFile noJSON None 6 flatDoc w' = (Ok tt, w'')
       /\ forall k l, (k, l) ∈ flatRefs ->
            (k, Some l) ∈ visited w' -> (k, Some l) ∈ visited w'' ->
            valueOf k (Some l) w'' = valueOf k (Some l) w'.
Proof.
  assert (size flatRefs + 1 < 6) as Hsize by (vm_compute; lia).
  split; [reflexivity|]. split; [exact flatWorld_Flat|].
  split; [exact flatDoc_RootsIn|]. split; [exact Hsize|].
  exact (ResolveRefsIn_twice noParse Path noFile noJSON None
           flatRefs flatDoc flatWorld 6 eq_refl flatWorld_Flat flatDoc_RootsIn Hsize).
Defined.

Lemma resolveRequestBodyRef_nil_content_witness :
  ((KRequestBody, Some 1%positive) ∉ visited nilContentWorld)
  /\ derefRef KRequestBody (Some 1%positive) nilContentWorld
     = Some {| Ref := ""; Value := Some 10%positive |}
  /\ requestBodies nilContentWorld !! 10%positive
     = Some {| RequestBody_Content := Some [("application/json", None)] |}
  /\ ("application/json", None) ∈ [("application/json", @None loc)]
  /\ fst (resolveRequestBodyRef noParse Path noFile noJSON None 1 danglingDoc
            (Some 1%positive) nilContentWorld) <> Ok tt.
Proof.
  assert ((KRequestBody, Some 1%positive) ∉ visited nilContentWorld) as Hfresh
    by apply not_elem_of_empty.
  assert (("application/json", None) ∈ [("application/json", @None loc)]) as Hin
    by apply list_elem_of_here.
  split; [exact Hfresh|]. split; [reflexivity|]. split; [reflexivity|].
  split; [exact Hin|].
  exact (resolveRequestBodyRef_nil_content noParse Path noFile noJSON None 0
           danglingDoc (Some 1%positive) nilContentWorld
           {| Ref := ""; Value := Some 10%positive |} 10%positive
           {| RequestBody_Content := Some [("application/json", None)] |}
           [("application/json", None)] "application/json"
           Hfresh eq_refl eq_refl eq_refl eq_refl eq_refl Hin).
Defined.


Lemma resolveRef_external_fragment_refused_witness :
  (KSchema = KExample \/ (KSchema, Some 1%positive) ∉ visited strayOpenWorld)
  /\ derefRef KSchema (Some 1%positive) strayOpenWorld
     = Some {| Ref := "other.json#/components/schemas/X"; Value := None |}
  /\ IsExternalRefsAllowed strayOpenWorld = true
  /\ otherParse "other.json#/components/schemas/X"
     = Some {| Scheme := ""; Host := ""; Path := "other.json"; RawQuery := "";
               Fragment := "/components/schemas/X" |}
  /\ HasPrefix "/components/schemas/X" "#" = false
  /\ fst (LoadSwaggerFromURI otherParse Path noFile noJSON (Some otherLoad) 1
            {| Scheme := ""; Host := ""; Path := "other.json"; RawQuery := "";
               Fragment := "" |}
            (entered KSchema (Some 1%positive) strayOpenWorld)) = Ok petStore
  /\ fst (resolveRef otherParse Path noFile noJSON (Some otherLoad) KSchema 3
            strayDoc (Some 1%positive) strayOpenWorld)
     = Fail (Err (failedToResolveRefFragment "/components/schemas/X")).
Proof.
  assert ((KSchema, Some 1%positive) ∉ visited strayOpenWorld) as Hfresh
    by apply not_elem_of_empty.
  assert (Ref {| Ref := "other.json#/components/schemas/X"; Value := None |} <> "")
    as Hne by discriminate.
  split; [by right|]. split; [reflexivity|]. split; [reflexivity|].
  split; [reflexivity|]. split; [reflexivity|]. split; [reflexivity|].
  rewrite (resolveRef_external_fragment_refused otherParse Path noFile noJSON
             (Some otherLoad) KSchema 0 strayDoc (Some 1%positive) strayOpenWorld
             {| Ref := "other.json#/components/schemas/X"; Value := None |}
             {| Scheme := ""; Host := ""; Path := "other.json"; RawQuery := "";
                Fragment := "/components/schemas/X" |}
             petStore _ (or_intror Hfresh) eq_refl Hne eq_refl eq_refl eq_refl
             eq_refl (surjective_pairing _)).
  reflexivity.
Defined.




